(** * Coordination primitives of the chat backend

    A shallow embedding of the TypeScript classes of [backend/utils] and
    [backend/store]: the counting semaphore, the round-robin scheduler, the
    priority message queue, the deadlock detector, the LRU cache and the
    [send-message] handler that composes them, followed by the properties
    proved about them.

    Conventions of the embedding.
    - A JavaScript [number] that holds a counter, an index or a timestamp is
      a [Z]; [Date.now()] is an explicit argument [now].
    - A class instance is a record; a method is a function from the record
      (and its arguments) to the updated record and the returned value.
    - A thrown exception is the [Throw] outcome.
    - An [async] method is cut at its [await]: the part before it runs in
      the caller's step, the part after it in a later step of its own. *)

From Stdlib Require Import ZArith Lia Bool Ascii String DecimalString SpecFloat.
From stdpp Require Import base option list strings gmap sets sorting.

#[local] Set Warnings "-clear-no-such-hyp".

#[local] Open Scope string_scope.
#[local] Open Scope list_scope.
#[local] Open Scope Z_scope.

(** Result of a call that may throw. *)
Inductive outcome (A : Type) : Type :=
  | Ok (a : A)
  | Throw (err : string).
Arguments Ok {A} a.
Arguments Throw {A} err.

(** ** Semaphore (store/threads.ts, second document) *)

Module Semaphore.

  (** A waiter is the [resolve] callback of the promise a suspended
      [acquire()] returned; callbacks are told apart by the token of the
      caller that was handed the promise. *)
Definition waiter := nat.

Record t : Type := mk {
    permits : Z;
    maxPermits : Z;
    waitQueue : list waiter
  }.

Definition new (initialPermits : Z) : t :=
    {| permits := initialPermits; maxPermits := initialPermits; waitQueue := [] |}.

  (** What the promise returned by [acquire()] is when the call returns. *)
Inductive promise : Type :=
    | Resolved   (* [Promise.resolve()]: the caller goes on *)
    | Pending.   (* the caller is suspended until its [resolve] is called *)

Definition acquire (w : waiter) (s : t) : t * promise :=
    if 0 <? permits s
    then ({| permits := permits s - 1; maxPermits := maxPermits s;
             waitQueue := waitQueue s |}, Resolved)
    else ({| permits := permits s; maxPermits := maxPermits s;
             waitQueue := waitQueue s ++ [w] |}, Pending).

  (** [release()] returns the waiter whose [resolve] it called, if any. *)
Definition release (s : t) : t * option waiter :=
    match waitQueue s with
    | w :: rest =>
        ({| permits := permits s; maxPermits := maxPermits s; waitQueue := rest |},
         Some w)
    | [] =>
        ({| permits := permits s + 1; maxPermits := maxPermits s; waitQueue := [] |},
         None)
    end.

Definition tryAcquire (s : t) : t * bool :=
    if 0 <? permits s
    then ({| permits := permits s - 1; maxPermits := maxPermits s;
             waitQueue := waitQueue s |}, true)
    else (s, false).

Definition availablePermits (s : t) : Z := permits s.

Definition getQueueLength (s : t) : Z := Z.of_nat (length (waitQueue s)).

  (** *** Sequences of calls *)

Inductive op : Type :=
    | Acquire (w : waiter)
    | TryAcquire
    | Release.

Definition step (o : op) (s : t) : t :=
    match o with
    | Acquire w => fst (acquire w s)
    | TryAcquire => fst (tryAcquire s)
    | Release => fst (release s)
    end.

Definition run (ops : list op) (s : t) : t := foldl (λ s o, step o s) s ops.

  (** [acquire_all ws s]: one [acquire()] per token of [ws], in order. *)
Definition acquire_all (ws : list waiter) (s : t) : t :=
    run (Acquire <$> ws) s.

  (** Change in the number of permits that are granted and not yet
      released when [o] runs in [s]: an [acquire()] that resolves and a
      successful [tryAcquire()] grant one; a [release()] gives one back,
      and grants it again at once when it resumes a waiter. *)
Definition granted_delta (o : op) (s : t) : Z :=
    match o with
    | Acquire w => match snd (acquire w s) with Resolved => 1 | Pending => 0 end
    | TryAcquire => if snd (tryAcquire s) then 1 else 0
    | Release => match snd (release s) with Some _ => -1 + 1 | None => -1 end
    end.

  (** Permits granted and not yet released after [ops], [held] being the
      count before. *)
Fixpoint outstanding (ops : list op) (s : t) (held : Z) : Z :=
    match ops with
    | [] => held
    | o :: ops' => outstanding ops' (step o s) (held + granted_delta o s)
    end.

  (** Every [release()] of [ops] gives back a permit that is held. *)
Fixpoint releases_held (ops : list op) (s : t) (held : Z) : bool :=
    match ops with
    | [] => true
    | o :: ops' =>
        match o with Release => 0 <? held | _ => true end
        && releases_held ops' (step o s) (held + granted_delta o s)
    end.

End Semaphore.

(** ** Round-robin scheduler (utils/lruCache.ts, second document) *)

Module RoundRobinScheduler.

Record Worker : Type := mkWorker {
  id : string;
  load : Z;
  maxLoad : Z;
  active : bool;
  lastAssigned : Z
}.

Record t : Type := mk {
  workers : list Worker;
  currentIndex : nat;
  quantum : Z
}.

Definition new (quantum : Z) : t :=
  {| workers := []; currentIndex := 0; quantum := quantum |}.

Definition addWorker (wid : string) (maxLoad : Z) (s : t) : t :=
  {| workers := workers s ++
       [{| id := wid; load := 0; maxLoad := maxLoad; active := true;
           lastAssigned := 0 |}];
     currentIndex := currentIndex s;
     quantum := quantum s |}.

(** [this.workers = this.workers.filter(w => w.id !== id)]; the cursor is
    not touched. *)
Definition removeWorker (wid : string) (s : t) : t :=
  {| workers := filter (λ w, id w ≠ wid) (workers s);
     currentIndex := currentIndex s;
     quantum := quantum s |}.

Definition set_cursor (i : nat) (s : t) : t :=
  {| workers := workers s; currentIndex := i; quantum := quantum s |}.

(** The message of the [TypeError] that reading [worker.active] raises
    when [this.workers[this.currentIndex]] is [undefined]. *)
Definition undefined_worker : string :=
  "TypeError: Cannot read properties of undefined (reading 'active')".

(** The [while (attempts < maxAttempts)] loop, [remaining] being
    [maxAttempts - attempts]. One turn reads the worker under the cursor,
    moves the cursor on, and returns the worker (load incremented in
    place) when it is active and below its maximum. *)
Fixpoint assign_loop (now : Z) (remaining : nat) (s : t)
  : t * outcome (option Worker) :=
  match remaining with
  | O => (s, Ok None)
  | S remaining' =>
      let i := currentIndex s in
      let s1 := set_cursor ((i + 1) `mod` length (workers s))%nat s in
      match workers s !! i with
      | None => (s1, Throw undefined_worker)
      | Some worker =>
          if active worker && (load worker <? maxLoad worker)
          then
            let worker' :=
              {| id := id worker; load := load worker + 1;
                 maxLoad := maxLoad worker; active := active worker;
                 lastAssigned := now |} in
            ({| workers := <[i := worker']> (workers s1);
                currentIndex := currentIndex s1;
                quantum := quantum s1 |}, Ok (Some worker'))
          else assign_loop now remaining' s1
      end
  end.

Definition assignTask (now : Z) (s : t) : t * outcome (option Worker) :=
  match workers s with
  | [] => (s, Ok None)
  | _ => assign_loop now (length (workers s)) s
  end.

(** [this.workers.find(w => w.id === workerId)] as the index of the first
    match. *)
Fixpoint find_index (wid : string) (ws : list Worker) : option nat :=
  match ws with
  | [] => None
  | w :: ws' =>
      if bool_decide (id w = wid) then Some O else S <$> find_index wid ws'
  end.

Definition releaseTask (wid : string) (s : t) : t :=
  match find_index wid (workers s) with
  | None => s
  | Some i =>
      match workers s !! i with
      | None => s
      | Some worker =>
          if 0 <? load worker
          then {| workers :=
                    <[i := {| id := id worker; load := load worker - 1;
                              maxLoad := maxLoad worker; active := active worker;
                              lastAssigned := lastAssigned worker |}]> (workers s);
                  currentIndex := currentIndex s;
                  quantum := quantum s |}
          else s
      end
  end.

(** [this.workers[this.currentIndex] || null] *)
Definition getNextWorker (s : t) : option Worker := workers s !! currentIndex s.

(** The scheduler the modules build at load time: three workers of
    maximal load 50. *)
Definition messageScheduler : t :=
  addWorker "worker-3" 50 (addWorker "worker-2" 50 (addWorker "worker-1" 50 (new 1000))).

End RoundRobinScheduler.

(** ** Priority message queue (utils/messageQueue.ts, first document) *)

Module PriorityMessageQueue.

Inductive MessagePriority : Type := URGENT | HIGH | NORMAL | LOW.

#[global] Instance MessagePriority_eq_dec : EqDecision MessagePriority.
Proof. solve_decision. Defined.

Section Queue.
(** The type of the payload, [message: any]. *)
Context {A : Type}.

Record QueuedMessage : Type := mkQueued {
  id : string;
  threadId : string;
  message : A;
  priority : MessagePriority;
  timestamp : Z;
  retries : Z
}.

(** The instance. [urgent], [high], [normal] and [low] are the four arrays
    of the [queues] map. [awaiting] is the message whose [sendMessage]
    promise the drain loop is suspended on, if any. [delivered] lists the
    messages whose promise resolved, [console_error] the arguments (message
    id and retry limit) of each [console.error] line, both in order. *)
Record t : Type := mk {
  urgent : list QueuedMessage;
  high : list QueuedMessage;
  normal : list QueuedMessage;
  low : list QueuedMessage;
  processing : bool;
  maxRetries : Z;
  awaiting : option QueuedMessage;
  delivered : list QueuedMessage;
  console_error : list (string * Z)
}.

Definition new : t :=
  {| urgent := []; high := []; normal := []; low := [];
     processing := false; maxRetries := 3;
     awaiting := None; delivered := []; console_error := [] |}.

Definition get_queue (p : MessagePriority) (s : t) : list QueuedMessage :=
  match p with
  | URGENT => urgent s | HIGH => high s | NORMAL => normal s | LOW => low s
  end.

Definition set_queue (p : MessagePriority) (q : list QueuedMessage) (s : t) : t :=
  {| urgent := if decide (p = URGENT) then q else urgent s;
     high := if decide (p = HIGH) then q else high s;
     normal := if decide (p = NORMAL) then q else normal s;
     low := if decide (p = LOW) then q else low s;
     processing := processing s; maxRetries := maxRetries s;
     awaiting := awaiting s; delivered := delivered s;
     console_error := console_error s |}.

Definition set_processing (b : bool) (s : t) : t :=
  {| urgent := urgent s; high := high s; normal := normal s; low := low s;
     processing := b; maxRetries := maxRetries s;
     awaiting := awaiting s; delivered := delivered s;
     console_error := console_error s |}.

Definition set_awaiting (m : option QueuedMessage) (s : t) : t :=
  {| urgent := urgent s; high := high s; normal := normal s; low := low s;
     processing := processing s; maxRetries := maxRetries s;
     awaiting := m; delivered := delivered s;
     console_error := console_error s |}.

Definition log_delivered (m : QueuedMessage) (s : t) : t :=
  {| urgent := urgent s; high := high s; normal := normal s; low := low s;
     processing := processing s; maxRetries := maxRetries s;
     awaiting := awaiting s; delivered := delivered s ++ [m];
     console_error := console_error s |}.

Definition log_error (m : QueuedMessage) (s : t) : t :=
  {| urgent := urgent s; high := high s; normal := normal s; low := low s;
     processing := processing s; maxRetries := maxRetries s;
     awaiting := awaiting s; delivered := delivered s;
     console_error := console_error s ++ [(id m, maxRetries s)] |}.

(** [queue.sort((a, b) => a.timestamp - b.timestamp)]: [Array.prototype.sort]
    is stable, so elements of equal timestamp keep their order. *)
Fixpoint insert_by_timestamp (m : QueuedMessage) (q : list QueuedMessage)
  : list QueuedMessage :=
  match q with
  | [] => [m]
  | m' :: q' =>
      if timestamp m <=? timestamp m' then m :: m' :: q'
      else m' :: insert_by_timestamp m q'
  end.

Fixpoint sort_by_timestamp (q : list QueuedMessage) : list QueuedMessage :=
  match q with
  | [] => []
  | m :: q' => insert_by_timestamp m (sort_by_timestamp q')
  end.

(** The first two statements of [enqueue]: push, then sort the bucket. *)
Definition push (m : QueuedMessage) (s : t) : t :=
  set_queue (priority m) (sort_by_timestamp (get_queue (priority m) s ++ [m])) s.

Definition dequeue (s : t) : option QueuedMessage * t :=
  match urgent s with
  | m :: q => (Some m, set_queue URGENT q s)
  | [] =>
  match high s with
  | m :: q => (Some m, set_queue HIGH q s)
  | [] =>
  match normal s with
  | m :: q => (Some m, set_queue NORMAL q s)
  | [] =>
  match low s with
  | m :: q => (Some m, set_queue LOW q s)
  | [] => (None, s)
  end end end end.

(** The [while (true)] loop of [processQueue] from the top of a turn to
    the next suspension: either nothing is left and the loop is left with
    [processing = false], or the head is taken and the loop waits for
    [sendMessage]. *)
Definition drain (s : t) : t :=
  match dequeue s with
  | (None, s') => set_processing false s'
  | (Some m, s') => set_awaiting (Some m) s'
  end.

Definition processQueue (s : t) : t :=
  if processing s then s else drain (set_processing true s).

Definition enqueue (m : QueuedMessage) (s : t) : t := processQueue (push m s).

Definition retried (m : QueuedMessage) : QueuedMessage :=
  {| id := id m; threadId := threadId m; message := message m;
     priority := priority m; timestamp := timestamp m;
     retries := retries m + 1 |}.

(** The rest of a turn of the loop, run when the promise of [sendMessage]
    settles: [resolved = true] when it resolves, [false] when it rejects
    and the [catch] block runs. The loop then goes on to its next turn.
    ([sendMessage] as written always resolves; the [catch] block is the
    retry policy for a delivery that can fail.) *)
Definition settle (resolved : bool) (s : t) : t :=
  match awaiting s with
  | None => s
  | Some m =>
      let s0 := set_awaiting None s in
      drain
        (if resolved then log_delivered m s0
         else if retries m <? maxRetries s0 then enqueue (retried m) s0
         else log_error m s0)
  end.

(** The drain loop run to the end, [send m] telling whether the delivery
    of [m] (with the retry count it carries) succeeds. [fuel] bounds the
    number of deliveries. *)
Fixpoint run_drain (fuel : nat) (send : QueuedMessage → bool) (s : t) : t :=
  match fuel with
  | O => s
  | S fuel' =>
      match awaiting s with
      | None => s
      | Some m => run_drain fuel' send (settle (send m) s)
      end
  end.

(** [trace_drain] lists, for the deliveries [run_drain] goes through, the
    id of the message and whether its delivery succeeded. *)
Fixpoint trace_drain (fuel : nat) (send : QueuedMessage → bool) (s : t)
  : list (string * bool) :=
  match fuel with
  | O => []
  | S fuel' =>
      match awaiting s with
      | None => []
      | Some m => (id m, send m) :: trace_drain fuel' send (settle (send m) s)
      end
  end.

(** *** Vocabulary of the statements *)

Definition all_buckets (s : t) : list QueuedMessage :=
  urgent s ++ high s ++ normal s ++ low s.

Definition buckets_empty (s : t) : Prop :=
  urgent s = [] ∧ high s = [] ∧ normal s = [] ∧ low s = [].

(** The messages the queue still owns: the one in delivery and the ones
    in the buckets. *)
Definition pending (s : t) : list QueuedMessage :=
  option_list (awaiting s) ++ all_buckets s.

(** Deliveries a message can still go through when every one fails. *)
Definition attempts_left (m : QueuedMessage) : nat :=
  S (Z.to_nat (3 - retries m)).

(** The line [console.error] prints when [m] is given up. *)
Definition drop_report (m : QueuedMessage) : string * Z := (id m, 3).

(** States the class can be in between two steps: the flag [processing]
    is set exactly while the loop waits for a delivery, and the loop only
    stops on empty buckets. *)
Definition coherent (s : t) : Prop :=
  maxRetries s = 3
  ∧ (processing s = true ↔ is_Some (awaiting s))
  ∧ (awaiting s = None → all_buckets s = []).

Definition always_resolves : QueuedMessage → bool := λ _, true.
Definition never_resolves : QueuedMessage → bool := λ _, false.
(** Fails while the message has been retried fewer than three times: the
    first delivery and the first two retries reject, the third retry
    resolves, so the delivery of a message fails exactly three times. *)
Definition fails_three_times : QueuedMessage → bool := λ m, 3 <=? retries m.

Record Stats : Type := mkStats {
  stat_urgent : Z; stat_high : Z; stat_normal : Z; stat_low : Z; stat_total : Z
}.

Definition getStats (s : t) : Stats :=
  {| stat_urgent := Z.of_nat (length (urgent s));
     stat_high := Z.of_nat (length (high s));
     stat_normal := Z.of_nat (length (normal s));
     stat_low := Z.of_nat (length (low s));
     stat_total :=
       foldl (λ sum q, sum + Z.of_nat (length q)) 0
             [urgent s; high s; normal s; low s] |}.

End Queue.

Arguments QueuedMessage A : clear implicits.
Arguments t A : clear implicits.

End PriorityMessageQueue.

(** ** Maps in insertion order

    A JavaScript [Map] with string keys, as the list of its entries in
    insertion order. [aset] on a key that is present keeps the position of
    the entry, as [Map.prototype.set] and the mutation of an object held in
    the map both do. *)

Module AssocMap.

Section Ops.
Context {V : Type}.

Fixpoint aget (k : string) (m : list (string * V)) : option V :=
  match m with
  | [] => None
  | (k', v) :: m' => if decide (k' = k) then Some v else aget k m'
  end.

Fixpoint aset (k : string) (v : V) (m : list (string * V)) : list (string * V) :=
  match m with
  | [] => [(k, v)]
  | (k', v') :: m' =>
      if decide (k' = k) then (k, v) :: m' else (k', v') :: aset k v m'
  end.

Definition ahas (k : string) (m : list (string * V)) : bool :=
  bool_decide (is_Some (aget k m)).

Definition adelete (k : string) (m : list (string * V)) : list (string * V) :=
  filter (λ e, e.1 ≠ k) m.

End Ops.

End AssocMap.

(** ** Deadlock detector (utils/deadlockDetector.ts) *)

Module DeadlockDetector.
Import AssocMap.

Record Resource : Type := mkResource {
  rid : string;                  (* [id] *)
  rtype : string;                (* [type] *)
  holder : option string;        (* [string | null] *)
  waitQueue : list string
}.

Record Process : Type := mkProcess {
  pid : string;                  (* [id] *)
  holding : list string;
  waiting : list string
}.

Record t : Type := mk {
  resources : list (string * Resource);
  processes : list (string * Process)
}.

Definition new : t := {| resources := []; processes := [] |}.

(** The truth value JavaScript gives a [string | null]: [null] and the
    empty string are falsy. This is the test of [if (!resource.holder)]
    and of [if (resource.holder)]. *)
Definition truthy (h : option string) : bool :=
  match h with
  | None => false
  | Some p => negb (String.eqb p "")
  end.

(** *** The resource allocation graph *)

Definition graph : Type := list (string * list string).

(** [if (!graph.has(k)) graph.set(k, [])] *)
Definition add_node (k : string) (g : graph) : graph :=
  if ahas k g then g else aset k [] g.

(** [graph.get(k)!.push(v)] *)
Definition add_edge (k v : string) (g : graph) : graph :=
  match aget k g with
  | Some l => aset k (l ++ [v]) g
  | None => g
  end.

Definition add_process (g : graph) (e : string * Process) : graph :=
  foldl (λ g r, add_edge (pid e.2) r g) (add_node (pid e.2) g) (waiting e.2).

Definition add_resource (g : graph) (e : string * Resource) : graph :=
  let g1 := add_node (rid e.2) g in
  if truthy (holder e.2)
  then add_edge (rid e.2) (default "" (holder e.2)) g1
  else g1.

Definition buildResourceAllocationGraph (s : t) : graph :=
  foldl add_resource (foldl add_process [] (processes s)) (resources s).

(** *** Cycle search *)

(** The two sets of [hasCycle]: [visited] and [recStack]. *)
Definition marks : Type := gset string * gset string.

(** The [for (const neighbor of neighbors)] loop of [dfs], [rec] being the
    recursive call. [Some (true, _)] is the early [return true]. *)
Fixpoint dfs_neighbors (rec : string → marks → option (bool * marks))
    (neighbors : list string) (st : marks) : option (bool * marks) :=
  match neighbors with
  | [] => Some (false, st)
  | neighbor :: rest =>
      if decide (neighbor ∈ st.1) then
        if decide (neighbor ∈ st.2) then Some (true, st)
        else dfs_neighbors rec rest st
      else
        match rec neighbor st with
        | Some (false, st') => dfs_neighbors rec rest st'
        | r => r
        end
  end.

(** [dfs(node)]. The recursion of the source is bounded by [fuel], the
    depth of calls allowed; [None] is returned when it is used up
    ([hasCycle_within_fuel] shows it never is in [hasCycle]). *)
Fixpoint dfs (fuel : nat) (g : graph) (node : string) (st : marks)
  : option (bool * marks) :=
  match fuel with
  | O => None
  | S fuel' =>
      match dfs_neighbors (dfs fuel' g) (default [] (aget node g))
              ({[node]} ∪ st.1, {[node]} ∪ st.2) with
      | Some (false, st') => Some (false, (st'.1, st'.2 ∖ {[node]}))
      | r => r
      end
  end.

(** The [for (const node of graph.keys())] loop of [hasCycle]. *)
Fixpoint hasCycle_loop (fuel : nat) (g : graph) (keys : list string) (st : marks)
  : option bool :=
  match keys with
  | [] => Some false
  | node :: rest =>
      if decide (node ∈ st.1) then hasCycle_loop fuel g rest st
      else
        match dfs fuel g node st with
        | Some (false, st') => hasCycle_loop fuel g rest st'
        | Some (true, _) => Some true
        | None => None
        end
  end.

(** Every string that is a key of the graph or a neighbour in it. *)
Definition nodes (g : graph) : gset string :=
  list_to_set (g.*1) ∪ list_to_set (mjoin (g.*2)).

Definition hasCycle_fuel (g : graph) : nat := S (size (nodes g)).

Definition hasCycle_search (g : graph) : option bool :=
  hasCycle_loop (hasCycle_fuel g) g (g.*1) (∅, ∅).

Definition hasCycle (g : graph) : bool := default false (hasCycle_search g).

Definition detectDeadlock (s : t) : bool :=
  hasCycle (buildResourceAllocationGraph s).

(** *** The operations *)

Definition set_resource (r : Resource) (s : t) : t :=
  {| resources := aset (rid r) r (resources s); processes := processes s |}.

(** The resource and the process records that [requestResource] reads or
    creates. *)
Definition resource_or_new (resourceId : string) (s : t) : Resource :=
  default {| rid := resourceId; rtype := "thread"; holder := None; waitQueue := [] |}
          (aget resourceId (resources s)).

Definition process_or_new (processId : string) (s : t) : Process :=
  default {| pid := processId; holding := []; waiting := [] |}
          (aget processId (processes s)).

(** The state once the requester is put in the wait queue of the resource
    and the resource in the waiting list of the requester. *)
Definition enter_wait (processId resourceId : string) (s : t) : t :=
  let resource := resource_or_new resourceId s in
  let process := process_or_new processId s in
  {| resources :=
       aset resourceId
         {| rid := rid resource; rtype := rtype resource; holder := holder resource;
            waitQueue := waitQueue resource ++ [processId] |} (resources s);
     processes :=
       aset processId
         {| pid := pid process; holding := holding process;
            waiting := waiting process ++ [resourceId] |} (processes s) |}.

(** The state once that wait is taken back:
    [resource.waitQueue.filter(p => p !== processId)] and
    [process.waiting.filter(r => r !== resourceId)]. *)
Definition retract_wait (processId resourceId : string) (s : t) : t :=
  let resource := resource_or_new resourceId s in
  let process := process_or_new processId s in
  {| resources :=
       aset resourceId
         {| rid := rid resource; rtype := rtype resource; holder := holder resource;
            waitQueue := filter (λ p, p ≠ processId) (waitQueue resource) |}
         (resources s);
     processes :=
       aset processId
         {| pid := pid process; holding := holding process;
            waiting := filter (λ r, r ≠ resourceId) (waiting process) |}
         (processes s) |}.

Definition grant (processId resourceId : string) (s : t) : t :=
  let resource := resource_or_new resourceId s in
  let process := process_or_new processId s in
  {| resources :=
       aset resourceId
         {| rid := rid resource; rtype := rtype resource; holder := Some processId;
            waitQueue := waitQueue resource |} (resources s);
     processes :=
       aset processId
         {| pid := pid process; holding := holding process ++ [resourceId];
            waiting := waiting process |} (processes s) |}.

Definition requestResource (processId resourceId : string) (s : t) : t * bool :=
  if negb (truthy (holder (resource_or_new resourceId s)))
  then (grant processId resourceId s, true)
  else
    let s1 := enter_wait processId resourceId s in
    if detectDeadlock s1
    then (retract_wait processId resourceId s1, false)
    else (s1, false).

Definition releaseResource (processId resourceId : string) (s : t) : t :=
  match aget resourceId (resources s), aget processId (processes s) with
  | Some resource, Some process =>
      if bool_decide (holder resource = Some processId) then
        let process' :=
          {| pid := pid process;
             holding := filter (λ r, r ≠ resourceId) (holding process);
             waiting := waiting process |} in
        let processes1 := aset processId process' (processes s) in
        match waitQueue resource with
        | nextProcess :: rest =>
            match aget nextProcess processes1 with
            | Some nextProcessObj =>
                {| resources :=
                     aset resourceId
                       {| rid := rid resource; rtype := rtype resource;
                          holder := Some nextProcess; waitQueue := rest |}
                       (resources s);
                   processes :=
                     aset nextProcess
                       {| pid := pid nextProcessObj;
                          holding := holding nextProcessObj ++ [resourceId];
                          waiting := filter (λ r, r ≠ resourceId)
                                            (waiting nextProcessObj) |}
                       processes1 |}
            | None =>
                {| resources :=
                     aset resourceId
                       {| rid := rid resource; rtype := rtype resource;
                          holder := None; waitQueue := rest |} (resources s);
                   processes := processes1 |}
            end
        | [] =>
            {| resources :=
                 aset resourceId
                   {| rid := rid resource; rtype := rtype resource;
                      holder := None; waitQueue := [] |} (resources s);
               processes := processes1 |}
        end
      else s
  | _, _ => s
  end.

Definition clear (s : t) : t := new.

(** *** Vocabulary of the statements *)

(** The holder of a resource, as the detector sees it: the [holder] field
    when it is truthy. *)
Definition holder_of (s : t) (resourceId : string) : option string :=
  match aget resourceId (resources s) with
  | Some r => if truthy (holder r) then holder r else None
  | None => None
  end.


Definition holding_of (s : t) (processId : string) : list string :=
  default [] (holding <$> aget processId (processes s)).

Definition waiting_of (s : t) (processId : string) : list string :=
  default [] (waiting <$> aget processId (processes s)).

Definition waitQueue_of (s : t) (resourceId : string) : list string :=
  default [] (waitQueue <$> aget resourceId (resources s)).




(** Every record sits under its own id. *)
Definition keyed (s : t) : Prop :=
  (∀ k r, (k, r) ∈ resources s → rid r = k)
  ∧ (∀ k p, (k, p) ∈ processes s → pid p = k).

(** Edges and paths of a graph. *)
Definition edge (g : graph) (x y : string) : Prop :=
  ∃ l, aget x g = Some l ∧ y ∈ l.

Inductive path (g : graph) : string → string → Prop :=
  | path_edge x y : edge g x y → path g x y
  | path_step x y z : edge g x y → path g y z → path g x z.

(** [rec] answers, without running out of fuel, every call on a node of
    [U] that is not visited yet when at most [f] nodes of [U] are not, and
    only adds nodes of [U] to the visited ones. *)
Definition ends_within (U : gset string) (f : nat)
    (rec : string → marks → option (bool * marks)) : Prop :=
  ∀ node st, node ∈ U → node ∉ st.1 → st.1 ⊆ U → (size (U ∖ st.1) ≤ f)%nat →
    ∃ b st', rec node st = Some (b, st') ∧ st.1 ⊆ st'.1 ∧ st'.1 ⊆ U.

(** [finished g l]: every neighbour of an element of [l] comes later in
    [l]; DFS keeps its finished nodes in such an order. *)
Fixpoint finished (g : graph) (l : list string) : Prop :=
  match l with
  | [] => True
  | x :: l' => (∀ y, edge g x y → y ∈ l') ∧ finished g l'
  end.

(** The invariant of the search: the nodes on the recursion stack are
    visited, and the visited nodes off the stack can be listed in a
    finished order. *)
Definition search_inv (g : graph) (st : marks) : Prop :=
  st.2 ⊆ st.1
  ∧ ∃ l, (∀ x, x ∈ l ↔ x ∈ st.1 ∧ x ∉ st.2) ∧ finished g l.

(** A call of [rec] that answers [false] keeps the invariant, gives the
    stack back as it got it, and leaves its node visited. *)
Definition keeps_search_inv (g : graph)
    (rec : string → marks → option (bool * marks)) : Prop :=
  ∀ node st st',
    rec node st = Some (false, st') → node ∉ st.1 → search_inv g st →
    search_inv g st' ∧ st'.2 = st.2 ∧ st.1 ⊆ st'.1 ∧ node ∈ st'.1.

End DeadlockDetector.

(** ** LRU cache (utils/lruCache.ts, first document) *)

Module LRUCache.

Section Cache.
Context {K : Type} `{Countable K} {V : Type}.

(** A [CacheNode] object is known by its reference; [prev] and [next]
    hold references. *)
Definition ref : Type := nat.

Record CacheNode : Type := mkNode {
  key : K;
  value : V;
  prev : option ref;
  next : option ref;
  accessCount : Z;
  lastAccessed : Z
}.

(** The instance. [nodes] is the store of the node objects and [fresh]
    the reference the next [newNode] gets; [cache] is the [Map] from keys
    to node references. *)
Record t : Type := mk {
  capacity : Z;
  cache : gmap K ref;
  head : option ref;
  tail : option ref;
  hits : Z;
  misses : Z;
  nodes : gmap ref CacheNode;
  fresh : ref
}.

Definition new (capacity : Z) : t :=
  {| capacity := capacity; cache := ∅; head := None; tail := None;
     hits := 0; misses := 0; nodes := ∅; fresh := O |}.

(** Field reads and writes on the node store. *)
Definition prev_of (r : ref) (h : gmap ref CacheNode) : option ref :=
  h !! r ≫= prev.
Definition next_of (r : ref) (h : gmap ref CacheNode) : option ref :=
  h !! r ≫= next.

Definition set_prev (r : ref) (p : option ref) (h : gmap ref CacheNode)
  : gmap ref CacheNode :=
  alter (λ n, {| key := key n; value := value n; prev := p; next := next n;
                 accessCount := accessCount n; lastAccessed := lastAccessed n |}) r h.

Definition set_next (r : ref) (q : option ref) (h : gmap ref CacheNode)
  : gmap ref CacheNode :=
  alter (λ n, {| key := key n; value := value n; prev := prev n; next := q;
                 accessCount := accessCount n; lastAccessed := lastAccessed n |}) r h.

Definition with_links (head' tail' : option ref) (h : gmap ref CacheNode) (s : t) : t :=
  {| capacity := capacity s; cache := cache s; head := head'; tail := tail';
     hits := hits s; misses := misses s; nodes := h; fresh := fresh s |}.

(** [moveToFront(node)], statement by statement; each field is read from
    the store at the point where the source reads it. *)
Definition moveToFront (node : ref) (s : t) : t :=
  if decide (head s = Some node) then s
  else
    let h0 := nodes s in
    (* if (node.prev) node.prev.next = node.next *)
    let h1 := match prev_of node h0 with
              | Some p => set_next p (next_of node h0) h0
              | None => h0
              end in
    (* if (node.next) node.next.prev = node.prev *)
    let h2 := match next_of node h1 with
              | Some n => set_prev n (prev_of node h1) h1
              | None => h1
              end in
    (* if (node === this.tail) this.tail = node.prev *)
    let tail1 := if decide (tail s = Some node) then prev_of node h2 else tail s in
    (* node.prev = null; node.next = this.head *)
    let h3 := set_next node (head s) (set_prev node None h2) in
    (* if (this.head) this.head.prev = node *)
    let h4 := match head s with
              | Some hd => set_prev hd (Some node) h3
              | None => h3
              end in
    (* this.head = node; if (!this.tail) this.tail = node *)
    with_links (Some node)
      (match tail1 with None => Some node | Some tl => Some tl end) h4 s.

(** [get(key)]: the value, or [None] for the [null] of a miss. *)
Definition get (k : K) (now : Z) (s : t) : t * option V :=
  match cache s !! k with
  | None =>
      ({| capacity := capacity s; cache := cache s; head := head s; tail := tail s;
          hits := hits s; misses := misses s + 1; nodes := nodes s;
          fresh := fresh s |}, None)
  | Some node =>
      let h :=
        alter (λ n, {| key := key n; value := value n; prev := prev n;
                       next := next n; accessCount := accessCount n + 1;
                       lastAccessed := now |}) node (nodes s) in
      let s1 :=
        {| capacity := capacity s; cache := cache s; head := head s;
           tail := tail s; hits := hits s + 1; misses := misses s;
           nodes := h; fresh := fresh s |} in
      let s2 := moveToFront node s1 in
      (s2, value <$> nodes s2 !! node)
  end.

Definition evictLRU (s : t) : t :=
  match tail s with
  | None => s
  | Some tl =>
      match nodes s !! tl with
      | None => s   (* a reference always has its node *)
      | Some n =>
          let evictedKey := key n in
          match prev n with
          | Some p =>
              {| capacity := capacity s; cache := delete evictedKey (cache s);
                 head := head s; tail := Some p; hits := hits s;
                 misses := misses s; nodes := set_next p None (nodes s);
                 fresh := fresh s |}
          | None =>
              {| capacity := capacity s; cache := delete evictedKey (cache s);
                 head := None; tail := None; hits := hits s;
                 misses := misses s; nodes := nodes s; fresh := fresh s |}
          end
      end
  end.

Definition put (k : K) (v : V) (now : Z) (s : t) : t :=
  match cache s !! k with
  | Some node =>
      let h :=
        alter (λ n, {| key := key n; value := v; prev := prev n; next := next n;
                       accessCount := accessCount n; lastAccessed := now |})
              node (nodes s) in
      moveToFront node (with_links (head s) (tail s) h s)
  | None =>
      let s1 := if capacity s <=? Z.of_nat (size (cache s)) then evictLRU s else s in
      let newNode := fresh s1 in
      let h1 :=
        <[newNode := {| key := k; value := v; prev := None; next := head s1;
                        accessCount := 1; lastAccessed := now |}]> (nodes s1) in
      let h2 := match head s1 with
                | Some hd => set_prev hd (Some newNode) h1
                | None => h1
                end in
      {| capacity := capacity s1; cache := <[k := newNode]> (cache s1);
         head := Some newNode;
         tail := match tail s1 with None => Some newNode | Some tl => Some tl end;
         hits := hits s1; misses := misses s1; nodes := h2;
         fresh := S newNode |}
  end.

Definition clear (s : t) : t :=
  {| capacity := capacity s; cache := ∅; head := None; tail := None;
     hits := 0; misses := 0; nodes := nodes s; fresh := fresh s |}.

(** [this.cache.has(key)] *)
Definition has (k : K) (s : t) : bool := bool_decide (is_Some (cache s !! k)).

Definition size_of (s : t) : Z := Z.of_nat (size (cache s)).

(** [put] of each pair of [kvs], in order. *)
Definition put_all (kvs : list (K * V)) (now : Z) (s : t) : t :=
  foldl (λ s kv, put kv.1 kv.2 now s) s kvs.

(** *** Vocabulary of the statements *)

(** [seg h p l q]: in the store [h] the nodes of [l] are linked one to
    the next in both directions, the first with [prev = p] and the last
    with [next = q]. *)
Fixpoint seg (h : gmap ref CacheNode) (p : option ref) (l : list ref)
    (q : option ref) : Prop :=
  match l with
  | [] => True
  | r :: l' =>
      ∃ n, h !! r = Some n ∧ prev n = p
           ∧ next n = match l' with [] => q | r' :: _ => Some r' end
           ∧ seg h (Some r) l' q
  end.

(** The first reference of [l], or [q] when [l] is empty; the last one,
    or [p]. *)
Definition first_or (l : list ref) (q : option ref) : option ref :=
  match l with [] => q | r :: _ => Some r end.

Definition last_or (l : list ref) (p : option ref) : option ref :=
  match last l with Some r => Some r | None => p end.

Definition key_of (h : gmap ref CacheNode) (r : ref) : option K := key <$> h !! r.

Definition value_of (h : gmap ref CacheNode) (r : ref) : option V := value <$> h !! r.

(** [s'] has the entries of [s]: same capacity, same index, same keys and
    values in the nodes. *)
Definition same_entries (s s' : t) : Prop :=
  capacity s' = capacity s ∧ cache s' = cache s ∧ fresh s' = fresh s
  ∧ hits s' = hits s ∧ misses s' = misses s
  ∧ (∀ r, key_of (nodes s') r = key_of (nodes s) r)
  ∧ (∀ r, value_of (nodes s') r = value_of (nodes s) r).

(** [linked s l]: [l] is the recency sequence of [s], from [head] to
    [tail], and [cache] indexes exactly its nodes. *)
Definition linked (s : t) (l : list ref) : Prop :=
  NoDup l
  ∧ head s = l !! O
  ∧ tail s = last l
  ∧ seg (nodes s) None l None
  ∧ (∀ k r, cache s !! k = Some r ↔ r ∈ l ∧ key_of (nodes s) r = Some k)
  ∧ size (cache s) = length l
  ∧ (∀ r, r ∈ l → (r < fresh s)%nat).

(** [recency s ks]: the keys of the recency sequence of [s], most
    recently used first, are [ks]. *)
Definition recency (s : t) (ks : list K) : Prop :=
  ∃ l, linked s l ∧ Forall2 (λ r k, key_of (nodes s) r = Some k) l ks.

(** The cache as the sequence of its keys. *)
Definition touch (k : K) (ks : list K) : list K :=
  k :: filter (λ k', k' ≠ k) ks.

Definition recency_put (capacity : Z) (k : K) (ks : list K) : list K :=
  if decide (k ∈ ks) then touch k ks
  else if capacity <=? Z.of_nat (length ks)
       then k :: removelast ks
       else k :: ks.

Definition recency_get (k : K) (ks : list K) : list K :=
  if decide (k ∈ ks) then touch k ks else ks.

Definition recency_put_all (capacity : Z) (ins : list K) (ks : list K) : list K :=
  foldl (λ ks k, recency_put capacity k ks) ks ins.

End Cache.

Arguments CacheNode K V : clear implicits.
Arguments t K {_ _} V.

End LRUCache.

(** ** JavaScript numbers and [toFixed]

    The ratios of the statistics are computed in IEEE 754 binary64 and
    printed by [Number.prototype.toFixed]. A number is a [spec_float] of
    the Standard Library, whose operations round to nearest, ties to
    even, as the ones of JavaScript do. *)

Module JSNumber.

Definition number : Type := spec_float.

Definition prec : Z := 53.
Definition emax : Z := 1024.

(** The number a counter holds: exact up to 2^53 in absolute value. *)
Definition of_Z (z : Z) : number := binary_normalize prec emax z 0 false.

Definition div (x y : number) : number := SFdiv prec emax x y.
Definition mul (x y : number) : number := SFmul prec emax x y.

(** [x / y * 100] on two counters. *)
Definition percent (x y : Z) : number := mul (div (of_Z x) (of_Z y)) (of_Z 100).

(** [x / y] on two counters. *)
Definition ratio (x y : Z) : number := div (of_Z x) (of_Z y).

(** [|x| ≥ 10^21], for a finite [x = m * 2^e]. *)
Definition at_least_1e21 (m : positive) (e : Z) : bool :=
  if 0 <=? e then 10 ^ 21 <=? Z.pos m * 2 ^ e
  else 10 ^ 21 * 2 ^ (- e) <=? Z.pos m.

(** The integer [n] for which [n / 100] is nearest to [m * 2^e], the
    larger one when two are as near. *)
Definition hundredths (m : positive) (e : Z) : Z :=
  if 0 <=? e then Z.pos m * 2 ^ e * 100
  else (2 * (Z.pos m * 100) + 2 ^ (- e)) / 2 ^ (- e + 1).

Definition digit (d : Z) : ascii := ascii_of_nat (48 + Z.to_nat d).

(** The decimal digits of a natural number, ["0"] for zero. *)
Definition digits (n : Z) : string :=
  NilZero.string_of_uint (N.to_uint (Z.to_N n)).

(** [n] hundredths with two decimals: ["12.50"] for 1250. *)
Definition two_places (n : Z) : string :=
  digits (n / 100) ++ String "." (String (digit (n / 10 mod 10))
                                    (String (digit (n mod 10)) "")).

Section ToFixed.
(** [Number::toString] on a finite number of absolute value [m * 2^e] at
    least 10^21, which [toFixed] falls back on; its digits are not
    modelled. *)
Variable exponential : positive → Z → string.

(** [x.toFixed(2)] *)
Definition toFixed2 (x : number) : string :=
  match x with
  | S754_nan => "NaN"
  | S754_infinity false => "Infinity"
  | S754_infinity true => "-Infinity"
  | S754_zero _ => "0.00"
  | S754_finite s m e =>
      (if s then "-" else "")
      ++ (if at_least_1e21 m e then exponential m e
          else two_places (hundredths m e))
  end.

End ToFixed.

(** *** Vocabulary of the statements *)

(** The numbers [toFixed(2)] prints in fixed notation. *)
Definition fixed_range (x : number) : bool :=
  match x with
  | S754_zero _ => true
  | S754_finite _ m e => negb (at_least_1e21 m e)
  | _ => false
  end.

Definition is_digit (c : ascii) : bool :=
  let n := nat_of_ascii c in (48 <=? n)%nat && (n <=? 57)%nat.

Fixpoint all_digits (s : string) : bool :=
  match s with
  | EmptyString => true
  | String c s' => is_digit c && all_digits s'
  end.

(** Exactly two digits and nothing else. *)
Definition two_digits (s : string) : bool :=
  match s with
  | String a (String b EmptyString) => is_digit a && is_digit b
  | _ => false
  end.

(** Digits, at least one when [seen] is false, then a point and exactly
    two digits. *)
Fixpoint digits_point_two (seen : bool) (s : string) : bool :=
  match s with
  | EmptyString => false
  | String c s' =>
      if is_digit c then digits_point_two true s'
      else if Ascii.eqb c "." then seen && two_digits s'
      else false
  end.

(** A decimal numeral with exactly two decimal places, with or without a
    minus sign: ["0.00"], ["33.33"], ["-1.50"]. *)
Definition two_decimals (s : string) : bool :=
  match s with
  | String "-" s' => digits_point_two false s'
  | _ => digits_point_two false s
  end.

(** Such a numeral followed by a percent sign. *)
Definition percentage (s : string) : Prop :=
  ∃ t, s = (t ++ "%")%string ∧ two_decimals t = true.

End JSNumber.

(** ** Statistics ([getStats] of each class and [getState])

    The records are the objects the methods return; a field that holds a
    ratio is the string [toFixed(2)] prints, or the literal the guard of
    the method puts in its place. *)

Module CacheStats.
Record t : Type := mk {
  size : Z; capacity : Z; hits : Z; misses : Z;
  hitRate : string; utilizationRate : string
}.
End CacheStats.

Module SemaphoreStats.
Record t : Type := mk {
  available : Z; capacity : Z; inUse : Z; queueLength : Z;
  utilizationRate : string
}.
End SemaphoreStats.

Module WorkerStats.
Record t : Type := mk {
  id : string; load : Z; maxLoad : Z; utilizationRate : string
}.
End WorkerStats.

(** A field that holds a string on one branch and a number on the other. *)
Inductive string_or_number : Type :=
  | JString (s : string)
  | JNumber (n : Z).

Module SchedulerStats.
Record t : Type := mk {
  totalWorkers : Z; activeWorkers : Z; totalLoad : Z; totalCapacity : Z;
  avgLoad : string_or_number; utilizationRate : string;
  workers : list WorkerStats.t
}.
End SchedulerStats.

Module DetectorState.
Record t : Type := mk {
  processes : list DeadlockDetector.Process;
  resources : list DeadlockDetector.Resource;
  deadlockDetected : bool
}.
End DetectorState.

Module Stats.

Section GetStats.
Variable exponential : positive → Z → string.

Definition toFixed2 : JSNumber.number → string := JSNumber.toFixed2 exponential.

(** [LRUCache.getStats()] *)
Definition cache_getStats {K : Type} `{Countable K} {V : Type}
    (s : LRUCache.t K V) : CacheStats.t :=
  let hits := LRUCache.hits s in
  let misses := LRUCache.misses s in
  let size := LRUCache.size_of s in
  {| CacheStats.size := size;
     CacheStats.capacity := LRUCache.capacity s;
     CacheStats.hits := hits;
     CacheStats.misses := misses;
     CacheStats.hitRate :=
       if 0 <? hits + misses
       then toFixed2 (JSNumber.percent hits (hits + misses)) ++ "%"
       else "0%";
     CacheStats.utilizationRate :=
       toFixed2 (JSNumber.percent size (LRUCache.capacity s)) ++ "%" |}.

(** [Semaphore.getStats()] *)
Definition semaphore_getStats (s : Semaphore.t) : SemaphoreStats.t :=
  let permits := Semaphore.permits s in
  let maxPermits := Semaphore.maxPermits s in
  {| SemaphoreStats.available := permits;
     SemaphoreStats.capacity := maxPermits;
     SemaphoreStats.inUse := maxPermits - permits;
     SemaphoreStats.queueLength := Z.of_nat (length (Semaphore.waitQueue s));
     SemaphoreStats.utilizationRate :=
       toFixed2 (JSNumber.percent (maxPermits - permits) maxPermits) ++ "%" |}.

Definition worker_stats (w : RoundRobinScheduler.Worker) : WorkerStats.t :=
  {| WorkerStats.id := RoundRobinScheduler.id w;
     WorkerStats.load := RoundRobinScheduler.load w;
     WorkerStats.maxLoad := RoundRobinScheduler.maxLoad w;
     WorkerStats.utilizationRate :=
       toFixed2 (JSNumber.percent (RoundRobinScheduler.load w)
                                  (RoundRobinScheduler.maxLoad w)) ++ "%" |}.

(** [RoundRobinScheduler.getStats()] *)
Definition scheduler_getStats (s : RoundRobinScheduler.t) : SchedulerStats.t :=
  let ws := RoundRobinScheduler.workers s in
  let totalLoad := foldl (λ sum w, sum + RoundRobinScheduler.load w) 0 ws in
  let totalCapacity := foldl (λ sum w, sum + RoundRobinScheduler.maxLoad w) 0 ws in
  let n := Z.of_nat (length ws) in
  {| SchedulerStats.totalWorkers := n;
     SchedulerStats.activeWorkers :=
       Z.of_nat (length (filter (λ w, RoundRobinScheduler.active w = true) ws));
     SchedulerStats.totalLoad := totalLoad;
     SchedulerStats.totalCapacity := totalCapacity;
     SchedulerStats.avgLoad :=
       if 0 <? n then JString (toFixed2 (JSNumber.ratio totalLoad n))
       else JNumber 0;
     SchedulerStats.utilizationRate :=
       if 0 <? totalCapacity
       then toFixed2 (JSNumber.percent totalLoad totalCapacity) ++ "%"
       else "0%";
     SchedulerStats.workers := worker_stats <$> ws |}.

End GetStats.

(** [DeadlockDetector.getState()] *)
Definition detector_getState (s : DeadlockDetector.t) : DetectorState.t :=
  {| DetectorState.processes := (DeadlockDetector.processes s).*2;
     DetectorState.resources := (DeadlockDetector.resources s).*2;
     DetectorState.deadlockDetected := DeadlockDetector.detectDeadlock s |}.

End Stats.

(** ** The socket handlers (utils/messageQueue.ts, second document) *)

Module Coordinator.

Record Message : Type := mkMessage {
  id : string;
  senderId : string;
  content : string;
  timestamp : string
}.

Record Thread : Type := mkThread {
  thread_id : string;            (* [id] *)
  participants : list string;
  messages : list Message
}.

Record User : Type := mkUser {
  user_id : string;              (* [id] *)
  name : string;
  online : bool;
  socketId : option string
}.

Record Group : Type := mkGroup {
  group_id : string;             (* [id] *)
  group_name : string;           (* [name] *)
  members : list string;
  creatorId : option string
}.

(** What a handler sends: [socket.emit("error", ...)] to the socket of the
    event, [io.to(socketId).emit("receive-message", ...)] and
    [socket.emit("thread-history", ...)]. *)
Inductive emit : Type :=
  | EmitError (socket : string) (message : string)
  | EmitReceiveMessage (socket : string) (message : Message) (threadId : string)
  | EmitThreadHistory (socket : string) (threadId : string) (messages : list Message).

(** A [Thread] object is created once for a thread id and kept in
    [threads]; the cache holds the same object, so a value of the cache is
    the reference of a thread, that is its id. *)
Definition thread_ref : Type := string.

(** The module-level state and the log of what was sent. *)
Record t : Type := mk {
  threads : gmap string Thread;
  users : gmap string User;
  groups : gmap string Group;
  messageQueue : PriorityMessageQueue.t Message;
  threadCache : LRUCache.t string thread_ref;
  connectionSemaphore : Semaphore.t;
  messageScheduler : RoundRobinScheduler.t;
  deadlockDetector : DeadlockDetector.t;
  emitted : list emit
}.

Definition initial : t :=
  {| threads := ∅; users := ∅; groups := ∅;
     messageQueue := PriorityMessageQueue.new;
     threadCache := LRUCache.new 100;
     connectionSemaphore := Semaphore.new 100;
     messageScheduler := RoundRobinScheduler.messageScheduler;
     deadlockDetector := DeadlockDetector.new;
     emitted := [] |}.

(** *** String methods (on ASCII text) *)

Definition lower (c : ascii) : ascii :=
  let n := nat_of_ascii c in
  if (65 <=? n)%nat && (n <=? 90)%nat then ascii_of_nat (n + 32) else c.

Fixpoint toLowerCase (s : string) : string :=
  match s with
  | EmptyString => EmptyString
  | String c s' => String (lower c) (toLowerCase s')
  end.

Definition startsWith (p s : string) : bool := String.prefix p s.

Fixpoint includes (sub s : string) : bool :=
  String.prefix sub s
  || match s with
     | EmptyString => false
     | String _ s' => includes sub s'
     end.

(** [s.split(sep)] for a separator of one character; [cur] is the piece
    being read, reversed. *)
Fixpoint split_at (sep : ascii) (cur : string) (s : string) : list string :=
  match s with
  | EmptyString => [String.rev cur]
  | String c s' =>
      if Ascii.eqb c sep then String.rev cur :: split_at sep EmptyString s'
      else split_at sep (String c cur) s'
  end.

Definition split (sep : ascii) (s : string) : list string :=
  split_at sep EmptyString s.

(** [s.replace(pat, "")]: the first occurrence of [pat] is taken out. *)
Fixpoint remove_first (pat s : string) : string :=
  if String.prefix pat s
  then String.substring (String.length pat) (String.length s - String.length pat) s
  else match s with
       | EmptyString => EmptyString
       | String c s' => String c (remove_first pat s')
       end.

(** The priority of a message, from its content. *)
Definition classify (text : string) : PriorityMessageQueue.MessagePriority :=
  let content := toLowerCase text in
  if includes "urgent" content || includes "emergency" content
  then PriorityMessageQueue.URGENT
  else if includes "important" content || startsWith "@" content
  then PriorityMessageQueue.HIGH
  else PriorityMessageQueue.NORMAL.

(** The thread a first message creates. *)
Definition new_thread (threadId : string) (gs : gmap string Group) : Thread :=
  let participants :=
    if startsWith "group-" threadId
    then match gs !! remove_first "group-" threadId with
         | Some g => members g
         | None => split "-" threadId
         end
    else split "-" threadId in
  {| thread_id := threadId; participants := participants; messages := [] |}.

(** The [forEach] over the participants: one [receive-message] for each
    socket id not served yet. *)
Fixpoint fan_out (us : gmap string User) (message : Message) (threadId : string)
    (ps : list string) (served : gset string) : list emit :=
  match ps with
  | [] => []
  | userId :: ps' =>
      match us !! userId ≫= socketId with
      | Some sid =>
          if negb (String.eqb sid "") && bool_decide (sid ∉ served)
          then EmitReceiveMessage sid message threadId
               :: fan_out us message threadId ps' ({[sid]} ∪ served)
          else fan_out us message threadId ps' served
      | None => fan_out us message threadId ps' served
      end
  end.

(** The handler of [send-message] on the socket [socket]. [now_enqueue],
    [now_assign] and [now_put] are the values [Date.now()] returns in
    [enqueue], in [assignTask] and in [put]. *)
Definition send_message (socket : string) (threadId : string) (message : Message)
    (now_enqueue now_assign now_put : Z) (w : t) : t * outcome unit :=
  let (detector1, resourceAcquired) :=
    DeadlockDetector.requestResource (senderId message) threadId
      (deadlockDetector w) in
  if negb resourceAcquired then
    ({| threads := threads w; users := users w; groups := groups w;
        messageQueue := messageQueue w; threadCache := threadCache w;
        connectionSemaphore := connectionSemaphore w;
        messageScheduler := messageScheduler w;
        deadlockDetector := detector1;
        emitted := emitted w
                   ++ [EmitError socket "Resource temporarily unavailable"] |},
     Ok tt)
  else
    let priority := classify (content message) in
    let queue1 :=
      PriorityMessageQueue.enqueue
        {| PriorityMessageQueue.id := id message;
           PriorityMessageQueue.threadId := threadId;
           PriorityMessageQueue.message := message;
           PriorityMessageQueue.priority := priority;
           PriorityMessageQueue.timestamp := now_enqueue;
           PriorityMessageQueue.retries := 0 |}
        (messageQueue w) in
    let (scheduler1, assigned) :=
      RoundRobinScheduler.assignTask now_assign (messageScheduler w) in
    match assigned with
    | Throw err =>
        ({| threads := threads w; users := users w; groups := groups w;
            messageQueue := queue1; threadCache := threadCache w;
            connectionSemaphore := connectionSemaphore w;
            messageScheduler := scheduler1;
            deadlockDetector := detector1;
            emitted := emitted w |},
         Throw err)
    | Ok worker =>
        let thread :=
          match threads w !! threadId with
          | Some thread => thread
          | None => new_thread threadId (groups w)
          end in
        let thread' :=
          {| thread_id := thread_id thread; participants := participants thread;
             messages := messages thread ++ [message] |} in
        let cache1 := LRUCache.put threadId threadId now_put (threadCache w) in
        let sent := fan_out (users w) message threadId (participants thread') ∅ in
        let scheduler2 :=
          match worker with
          | Some worker =>
              RoundRobinScheduler.releaseTask (RoundRobinScheduler.id worker)
                scheduler1
          | None => scheduler1
          end in
        let detector2 :=
          DeadlockDetector.releaseResource (senderId message) threadId detector1 in
        ({| threads := <[threadId := thread']> (threads w);
            users := users w; groups := groups w;
            messageQueue := queue1; threadCache := cache1;
            connectionSemaphore := connectionSemaphore w;
            messageScheduler := scheduler2;
            deadlockDetector := detector2;
            emitted := emitted w ++ sent |},
         Ok tt)
    end.

(** The snapshot of [get-os-stats]. *)
Record OsStats : Type := mkOsStats {
  stats_messageQueue : PriorityMessageQueue.Stats;
  stats_threadCache : CacheStats.t;
  stats_connectionSemaphore : SemaphoreStats.t;
  stats_messageScheduler : SchedulerStats.t;
  stats_deadlockDetector : DetectorState.t
}.

Definition os_stats (exponential : positive → Z → string) (w : t) : OsStats :=
  {| stats_messageQueue := PriorityMessageQueue.getStats (messageQueue w);
     stats_threadCache := Stats.cache_getStats exponential (threadCache w);
     stats_connectionSemaphore :=
       Stats.semaphore_getStats exponential (connectionSemaphore w);
     stats_messageScheduler :=
       Stats.scheduler_getStats exponential (messageScheduler w);
     stats_deadlockDetector := Stats.detector_getState (deadlockDetector w) |}.

End Coordinator.

(** ** Mutex (store/threads.ts, second document)

    [Mutex] extends [Semaphore] with one permit and an [owner] field.
    [lock] is an [async] method: the call runs [this.acquire()] and is
    suspended at the [await]; its continuation, [this.owner = ownerId],
    runs in a later step, once the promise of [acquire()] is resolved. *)

Module Mutex.

(** [sem] is the inherited semaphore. [suspended] lists the calls of
    [lock] whose continuation has not run yet, each with the token of its
    [acquire()] and its [ownerId]; [next] is the token the next call
    gets. *)
Record t : Type := mk {
  sem : Semaphore.t;
  owner : option string;
  suspended : list (Semaphore.waiter * string);
  next : Semaphore.waiter
}.

(** [new Mutex()]: [super(1)], [owner = null]. *)
Definition new : t :=
  {| sem := Semaphore.new 1; owner := None; suspended := []; next := O |}.

(** The call [lock(ownerId)], up to its [await]. *)
Definition lock (ownerId : string) (s : t) : t :=
  {| sem := fst (Semaphore.acquire (next s) (sem s));
     owner := owner s;
     suspended := suspended s ++ [(next s, ownerId)];
     next := S (next s) |}.

(** The promise of the [acquire()] of token [w] is resolved: its
    [resolve] is not in the wait queue. *)
Definition resolved (w : Semaphore.waiter) (s : t) : bool :=
  bool_decide (w ∉ Semaphore.waitQueue (sem s)).

(** The [ownerId] of the suspended call of token [w]. *)
Definition ownerId_of (w : Semaphore.waiter) (s : t) : option string :=
  (λ ie, ie.2.2) <$> list_find (λ e, e.1 = w) (suspended s).

(** The continuation of the call of [lock] with token [w]:
    [this.owner = ownerId]. It runs only for a suspended call whose
    promise is resolved; otherwise nothing happens. *)
Definition resume (w : Semaphore.waiter) (s : t) : t :=
  match ownerId_of w s with
  | Some ownerId =>
      if resolved w s
      then {| sem := sem s; owner := Some ownerId;
              suspended := filter (λ e, e.1 ≠ w) (suspended s);
              next := next s |}
      else s
  | None => s
  end.

(** The message of the [Error] that [unlock] throws, as UTF-8 bytes. *)
Definition not_owned (ownerId : string) : string :=
  "❌ Cannot unlock mutex: not owned by " ++ ownerId.

Definition unlock (ownerId : string) (s : t) : t * outcome unit :=
  if bool_decide (owner s = Some ownerId)
  then ({| sem := fst (Semaphore.release (sem s)); owner := None;
           suspended := suspended s; next := next s |}, Ok tt)
  else (s, Throw (not_owned ownerId)).

Definition getOwner (s : t) : option string := owner s.

(** *** Sequences of steps *)

Inductive event : Type :=
  | Lock (ownerId : string)
  | Resume (w : Semaphore.waiter)
  | Unlock (ownerId : string).

Definition step (e : event) (s : t) : t :=
  match e with
  | Lock ownerId => lock ownerId s
  | Resume w => resume w s
  | Unlock ownerId => fst (unlock ownerId s)
  end.

Definition run (es : list event) (s : t) : t := foldl (λ s e, step e s) s es.

(** *** Vocabulary of the statements *)

(** The calls of [lock] that went through [acquire()] and have not set
    [owner] yet. *)
Definition passed (s : t) : list (Semaphore.waiter * string) :=
  filter (λ e, e.1 ∉ Semaphore.waitQueue (sem s)) (suspended s).

(** The calls of [lock] that wait in the queue of the semaphore. *)
Definition queued (s : t) : list (Semaphore.waiter * string) :=
  filter (λ e, e.1 ∈ Semaphore.waitQueue (sem s)) (suspended s).

(** How many callers have the lock: the owner, and the calls that took
    the permit and are about to become the owner. *)
Definition holders (s : t) : Z :=
  match owner s with Some _ => 1 | None => 0 end + Z.of_nat (length (passed s)).

(** What every state of the mutex satisfies: the permit is available or
    held by exactly one caller; the wait queue holds the tokens of the
    suspended calls that wait, in the order of the calls; tokens are not
    used twice. *)
Definition mutex_inv (s : t) : Prop :=
  Semaphore.permits (sem s) + holders s = 1
  ∧ 0 <= Semaphore.permits (sem s)
  ∧ Semaphore.waitQueue (sem s) = (queued s).*1
  ∧ NoDup (suspended s).*1
  ∧ (∀ e, e ∈ suspended s → (e.1 < next s)%nat).

End Mutex.

(** ** Sequences of calls on the scheduler *)

Module SchedulerCalls.
Import RoundRobinScheduler.

Inductive call : Type :=
  | AddWorker (wid : string) (maxLoad : Z)
  | RemoveWorker (wid : string)
  | AssignTask (now : Z)
  | ReleaseTask (wid : string).

(** The instance after the call; a call of [assignTask] that throws
    leaves it as it was when the exception was raised. *)
Definition step (c : call) (s : t) : t :=
  match c with
  | AddWorker wid maxLoad => addWorker wid maxLoad s
  | RemoveWorker wid => removeWorker wid s
  | AssignTask now => fst (assignTask now s)
  | ReleaseTask wid => releaseTask wid s
  end.

Definition run (cs : list call) (s : t) : t := foldl (λ s c, step c s) s cs.

Definition is_removal (c : call) : bool :=
  match c with RemoveWorker _ => true | _ => false end.

(** The test of [assignTask] on a worker:
    [worker.active && worker.load < worker.maxLoad]. *)
Definition can_take (w : Worker) : bool := active w && (load w <? maxLoad w).

(** The worker once a task is assigned to it at time [now]. *)
Definition assigned (now : Z) (w : Worker) : Worker :=
  {| id := id w; load := load w + 1; maxLoad := maxLoad w; active := active w;
     lastAssigned := now |}.

(** The cursor is a position of the worker list, or the list is empty and
    the cursor is 0. *)
Definition cursor_valid (s : t) : Prop :=
  (currentIndex s < length (workers s))%nat
  ∨ (workers s = [] ∧ currentIndex s = O).

(** A worker without the time of its last assignment. *)
Definition booking (w : Worker) : string * Z * Z * bool :=
  (id w, load w, maxLoad w, active w).

(** The load of a worker is between 0 and its maximal load. *)
Definition load_ok (w : Worker) : Prop :=
  0 <= load w <= Z.max 0 (maxLoad w).

End SchedulerCalls.

(** ** Sequences of steps of the message queue *)

Module QueueEvents.
Import PriorityMessageQueue.

Section Events.
Context {A : Type}.

(** What happens to the queue: a caller submits a message, or the promise
    of the delivery the drain loop waits for settles. *)
Inductive event : Type :=
  | Enqueue (m : QueuedMessage A)
  | Settle (resolved : bool).

Definition step (e : event) (s : t A) : t A :=
  match e with
  | Enqueue m => enqueue m s
  | Settle resolved => settle resolved s
  end.

Definition run (es : list event) (s : t A) : t A := foldl (λ s e, step e s) s es.

(** The messages submitted by [es], in order. *)
Definition submitted (es : list event) : list (QueuedMessage A) :=
  omap (λ e, match e with Enqueue m => Some m | Settle _ => None end) es.

(** The value of a priority in the [enum]. *)
Definition rank (p : MessagePriority) : Z :=
  match p with URGENT => 1 | HIGH => 2 | NORMAL => 3 | LOW => 4 end.

(** [a] is not younger than [b]. *)
Definition older (a b : QueuedMessage A) : Prop := timestamp a <= timestamp b.

(** Each bucket holds messages of its priority only, oldest first. *)
Definition buckets_sorted (s : t A) : Prop :=
  ∀ p, Forall (λ m, priority m = p) (get_queue p s)
       ∧ StronglySorted older (get_queue p s).

(** The ids the queue has taken charge of and not lost: delivered,
    reported as dropped, or still owned. *)
Definition accounted (s : t A) : list string :=
  (id <$> delivered s) ++ (console_error s).*1 ++ (id <$> pending s).

End Events.

Arguments event A : clear implicits.

End QueueEvents.

(** ** Sequences of calls on the deadlock detector *)

Module DetectorCalls.
Import AssocMap DeadlockDetector.

Inductive call : Type :=
  | Request (processId resourceId : string)
  | Release (processId resourceId : string)
  | Clear.

Definition step (c : call) (s : t) : t :=
  match c with
  | Request p r => fst (requestResource p r s)
  | Release p r => releaseResource p r s
  | Clear => clear s
  end.

Definition run (cs : list call) (s : t) : t := foldl (λ s c, step c s) s cs.

(** The process ids and the resource ids the calls name. *)
Definition process_ids (cs : list call) : list string :=
  omap (λ c, match c with Request p _ | Release p _ => Some p | Clear => None end) cs.

Definition resource_ids (cs : list call) : list string :=
  omap (λ c, match c with Request _ r | Release _ r => Some r | Clear => None end) cs.

(** No call names a process by the empty string. *)
Definition named (cs : list call) : bool :=
  forallb (λ p, negb (String.eqb p "")) (process_ids cs).

(** Moreover, no string names both a process and a resource. *)
Definition well_named (cs : list call) : bool :=
  named cs
  && forallb (λ p, forallb (λ r, negb (String.eqb p r)) (resource_ids cs))
             (process_ids cs).

(** [x] depends on [y]: [x] is a process that waits for the resource [y],
    or a resource that the process [y] holds. *)
Definition depends (s : t) (x y : string) : Prop :=
  (∃ k p, (k, p) ∈ processes s ∧ pid p = x ∧ y ∈ waiting p)
  ∨ (∃ k r, (k, r) ∈ resources s ∧ rid r = x ∧ holder r = Some y ∧ y ≠ "").

(** A call of [rec] that answers [true] has found a cycle, when the nodes
    of the recursion stack all lead to its node. *)
Definition finds_cycles (g : graph)
    (rec : string → marks → option (bool * marks)) : Prop :=
  ∀ node st st',
    rec node st = Some (true, st') → node ∉ st.1 → search_inv g st →
    (∀ y, y ∈ st.2 → path g y node) →
    ∃ x, path g x x.

(** The records of the detector agree with one another, [P] being the
    strings that name processes: every record sits under its id and ids
    are not repeated; a resource names a process as its holder exactly
    when that process lists it in [holding]; the processes in a wait queue
    are known; a process that lists a resource in [waiting] is in the wait
    queue of that resource; a resource without holder has no waiter. *)
Definition consistent (P : string → Prop) (s : t) : Prop :=
  keyed s
  ∧ NoDup (resources s).*1 ∧ NoDup (processes s).*1
  ∧ (∀ r p, holder_of s r = Some p ↔ r ∈ holding_of s p)
  ∧ (∀ r p, holder_of s r = Some p → P p)
  ∧ (∀ r q, q ∈ waitQueue_of s r → P q ∧ is_Some (aget q (processes s)))
  ∧ (∀ p r, r ∈ waiting_of s p → p ∈ waitQueue_of s r)
  ∧ (∀ r, holder_of s r = None → waitQueue_of s r = []).

End DetectorCalls.

(** ** Sequences of calls on the cache, and the cache as a list *)

Module CacheCalls.
Import LRUCache.

Section Calls.
Context {K : Type} `{Countable K} {V : Type}.

Inductive call : Type :=
  | Get (k : K) (now : Z)
  | Put (k : K) (v : V) (now : Z)
  | Clear.

Definition step (c : call) (s : t K V) : t K V :=
  match c with
  | Get k now => fst (get k now s)
  | Put k v now => put k v now s
  | Clear => clear s
  end.

Definition run (cs : list call) (s : t K V) : t K V :=
  foldl (λ s c, step c s) s cs.

(** What the calls of [get] among [cs] return, in order. *)
Fixpoint results (cs : list call) (s : t K V) : list (option V) :=
  match cs with
  | [] => []
  | c :: cs' =>
      match c with
      | Get k now => [snd (get k now s)]
      | _ => []
      end ++ results cs' (step c s)
  end.

(** The value the cache holds for [k]: the one in the node [cache] maps
    [k] to. *)
Definition stored (s : t K V) (k : K) : option V :=
  cache s !! k ≫= value_of (nodes s).

(** *** The cache as a list of pairs, most recently used first *)

Fixpoint assoc (k : K) (m : list (K * V)) : option V :=
  match m with
  | [] => None
  | (k', v) :: m' => if decide (k' = k) then Some v else assoc k m'
  end.

Definition without (k : K) (m : list (K * V)) : list (K * V) :=
  filter (λ kv, kv.1 ≠ k) m.

Definition model_step (capacity : Z) (c : call) (m : list (K * V)) : list (K * V) :=
  match c with
  | Get k _ =>
      match assoc k m with
      | Some v => (k, v) :: without k m
      | None => m
      end
  | Put k v _ =>
      if decide (k ∈ m.*1) then (k, v) :: without k m
      else if capacity <=? Z.of_nat (length m) then (k, v) :: removelast m
      else (k, v) :: m
  | Clear => []
  end.

Definition model_run (capacity : Z) (cs : list call) (m : list (K * V))
  : list (K * V) :=
  foldl (λ m c, model_step capacity c m) m cs.

Fixpoint model_results (capacity : Z) (cs : list call) (m : list (K * V))
  : list (option V) :=
  match cs with
  | [] => []
  | c :: cs' =>
      match c with
      | Get k _ => [assoc k m]
      | _ => []
      end ++ model_results capacity cs' (model_step capacity c m)
  end.

(** The instance [s] holds the pairs of [m], in the order of [m]. *)
Definition refines (s : t K V) (m : list (K * V)) : Prop :=
  recency s m.*1 ∧ ∀ k, stored s k = assoc k m.

(** The calls of [get] among [cs] that hit, and those that miss, when
    [cs] runs from [s]. *)
Definition count_hits (cs : list call) (s : t K V) : Z :=
  Z.of_nat (length (filter (λ r, is_Some r) (results cs s))).

Definition count_misses (cs : list call) (s : t K V) : Z :=
  Z.of_nat (length (filter (λ r, r = None) (results cs s))).

Definition is_clear (c : call) : bool :=
  match c with Clear => true | _ => false end.

End Calls.

Arguments call K V : clear implicits.

End CacheCalls.

(** ** The [join-thread] handler (utils/messageQueue.ts, second document) *)

Module Handlers.
Import Coordinator.

(** The messages of the [Thread] object a reference of the cache stands
    for. *)
Definition messages_of (ref : thread_ref) (w : t) : list Message :=
  default [] (messages <$> threads w !! ref).

(** The handler of [join-thread] on the socket [socket]. [now_get] and
    [now_put] are the values [Date.now()] returns in [get] and in [put].
    The thread is looked up in the cache, then, on a miss, in [threads]
    (and then put in the cache); when it is found its messages are sent
    back as [thread-history]. *)
Definition join_thread (socket threadId : string) (now_get now_put : Z) (w : t) : t :=
  let (cache1, cached) := LRUCache.get threadId now_get (threadCache w) in
  let (cache2, thread) :=
    match cached with
    | Some ref => (cache1, Some ref)
    | None =>
        match threads w !! threadId with
        | Some _ =>
            (LRUCache.put threadId threadId now_put cache1, Some threadId)
        | None => (cache1, None)
        end
    end in
  {| threads := threads w; users := users w; groups := groups w;
     messageQueue := messageQueue w; threadCache := cache2;
     connectionSemaphore := connectionSemaphore w;
     messageScheduler := messageScheduler w;
     deadlockDetector := deadlockDetector w;
     emitted := emitted w
                ++ match thread with
                   | Some ref => [EmitThreadHistory socket threadId (messages_of ref w)]
                   | None => []
                   end |}.

(** *** Vocabulary of the statements *)

(** The socket an emission goes to. *)
Definition socket_of (e : emit) : string :=
  match e with
  | EmitError socket _ => socket
  | EmitReceiveMessage socket _ _ => socket
  | EmitThreadHistory socket _ _ => socket
  end.

(** Between two events no resource of the detector is held or waited
    for, and the cursor of the scheduler is a position of its worker
    list. *)
Definition quiet (w : t) : Prop :=
  (∀ r res, AssocMap.aget r (DeadlockDetector.resources (deadlockDetector w))
            = Some res →
     DeadlockDetector.holder res = None ∧ DeadlockDetector.waitQueue res = [])
  ∧ (RoundRobinScheduler.currentIndex (messageScheduler w)
     < length (RoundRobinScheduler.workers (messageScheduler w)))%nat.

(** The cache holds, under the id of a thread, the object [threads] holds
    under that id. *)
Definition faithful (w : t) : Prop :=
  ∃ m, CacheCalls.refines (threadCache w) m
       ∧ ∀ k ref, (k, ref) ∈ m → ref = k ∧ is_Some (threads w !! k).

(** The user [u] is connected on the socket [sid]. *)
Definition connected (us : gmap string User) (u sid : string) : Prop :=
  us !! u ≫= socketId = Some sid ∧ sid ≠ "".

End Handlers.

(** * Properties of the semaphore *)

Section SemaphoreFacts.
Import Semaphore.

Lemma run_app ops1 ops2 s : run (ops1 ++ ops2) s = run ops2 (run ops1 s).
  Proof. unfold run. apply foldl_app. Qed.

Lemma acquire_all_permits ws s :
    waitQueue s = [] → Z.of_nat (length ws) <= permits s →
    acquire_all ws s =
      {| permits := permits s - Z.of_nat (length ws);
         maxPermits := maxPermits s; waitQueue := [] |}.
  Proof.
    revert s. induction ws as [|w ws IH]; intros [p m q] Hq Hle; simpl in *.
    - subst q. unfold acquire_all, run. simpl. f_equal. lia.
    - subst q. unfold acquire_all, run in *. simpl. unfold acquire. simpl.
      destruct (Z.ltb_spec 0 p) as [Hp|Hp]; [|lia]. simpl.
      rewrite IH; simpl; [|done|lia]. f_equal. lia.
  Qed.

Lemma acquire_all_resolved ws1 w s :
    waitQueue s = [] → Z.of_nat (length ws1) < permits s →
    snd (acquire w (acquire_all ws1 s)) = Resolved.
  Proof.
    intros Hq Hlt. rewrite acquire_all_permits by (done || lia).
    unfold acquire. simpl.
    destruct (Z.ltb_spec 0 (permits s - Z.of_nat (length ws1))); [done|lia].
  Qed.

Lemma queue_all_full ws s :
    permits s <= 0 →
    acquire_all ws s =
      {| permits := permits s; maxPermits := maxPermits s;
         waitQueue := waitQueue s ++ ws |}.
  Proof.
    revert s. induction ws as [|w ws IH]; intros [p m q] Hp; simpl in *.
    - unfold acquire_all, run. simpl. by rewrite app_nil_r.
    - unfold acquire_all, run in *. simpl. unfold acquire. simpl.
      destruct (Z.ltb_spec 0 p) as [Hp'|Hp']; [lia|]. simpl.
      rewrite IH by done. simpl. by rewrite <- app_assoc.
  Qed.


  (** C4. A semaphore of capacity [C > 0]: the first [C] calls of
      [acquire()] all resolve and leave no permit; the next call stays
      pending and is put at the end of the wait queue, behind it any
      further caller; one [release()] then resolves the oldest waiter and
      only that one, and leaves the permit count as it is. For every state,
      [release()] adds one to the count exactly when no one waits. *)
Theorem semaphore_capacity_then_fifo
      (C : Z) (ws : list waiter) (w : waiter) (later : list waiter) :
    0 < C → Z.of_nat (length ws) = C →
    let full := acquire_all ws (new C) in
    let queued := acquire_all later (fst (acquire w full)) in
    (∀ i w', ws !! i = Some w' →
       snd (acquire w' (acquire_all (take i ws) (new C))) = Resolved)
    ∧ availablePermits full = 0
    ∧ getQueueLength full = 0
    ∧ acquire w full =
        ({| permits := 0; maxPermits := C; waitQueue := [w] |}, Pending)
    ∧ waitQueue queued = w :: later
    ∧ release queued =
        ({| permits := 0; maxPermits := C; waitQueue := later |}, Some w)
    ∧ availablePermits (fst (release queued)) = availablePermits queued
    ∧ (∀ s : t,
         availablePermits (fst (release s)) =
         if bool_decide (waitQueue s = [])
         then availablePermits s + 1 else availablePermits s).
  Proof.
    intros HC Hlen full queued.
    assert (Hfull : full = {| permits := 0; maxPermits := C; waitQueue := [] |}).
    { unfold full. rewrite acquire_all_permits; simpl; [|done|lia].
      f_equal. lia. }
    assert (Hacq : acquire w full =
        ({| permits := 0; maxPermits := C; waitQueue := [w] |}, Pending)).
    { rewrite Hfull. reflexivity. }
    assert (Hqueued : queued =
        {| permits := 0; maxPermits := C; waitQueue := w :: later |}).
    { unfold queued. rewrite Hacq. simpl. by rewrite queue_all_full. }
    split; [|split; [|split; [|split; [|split; [|split; [|split]]]]]].
    - intros i w' Hi. apply acquire_all_resolved; [done|]. simpl.
      apply lookup_lt_Some in Hi. rewrite length_take. lia.
    - by rewrite Hfull.
    - by rewrite Hfull.
    - exact Hacq.
    - by rewrite Hqueued.
    - by rewrite Hqueued.
    - by rewrite Hqueued.
    - intros [p m [|w0 q]]; reflexivity.
  Qed.

Lemma semaphore_capacity_then_fifo_witness :
    let full := acquire_all [1; 2]%nat (new 2) in
    let queued := acquire_all [4; 5]%nat (fst (acquire 3%nat full)) in
    availablePermits full = 0
    ∧ release queued =
        ({| permits := 0; maxPermits := 2; waitQueue := [4; 5]%nat |}, Some 3%nat).
  Proof.
    pose proof (semaphore_capacity_then_fifo 2 [1; 2]%nat 3%nat [4; 5]%nat
                  ltac:(lia) ltac:(reflexivity)) as H.
    simpl in H. destruct H as (_ & H1 & _ & _ & _ & H2 & _).
    split; [exact H1 | exact H2].
  Defined.

  (** The invariant of a disciplined client, carried along a run. *)
Definition permit_inv (C : Z) (s : t) (held : Z) : Prop :=
    0 <= permits s ∧ permits s + held = C ∧ (waitQueue s ≠ [] → permits s = 0).

Lemma step_permit_inv C o s held :
    permit_inv C s held →
    (o = Release → 0 < held) →
    permit_inv C (step o s) (held + granted_delta o s).
  Proof.
    intros (H0 & Hsum & Hq) Hrel. destruct s as [p m q]. simpl in *.
    destruct o as [w| |]; unfold permit_inv, step, granted_delta; simpl.
    - unfold acquire; simpl. destruct (Z.ltb_spec 0 p); simpl.
      + split; [lia|]. split; [lia|]. intros Hne. apply Hq in Hne. lia.
      + split; [lia|]. split; [lia|]. intros _. lia.
    - unfold tryAcquire; simpl. destruct (Z.ltb_spec 0 p); simpl.
      + split; [lia|]. split; [lia|]. intros Hne. apply Hq in Hne. lia.
      + split; [lia|]. split; [lia|]. done.
    - specialize (Hrel eq_refl). destruct q as [|w q]; simpl.
      + split; [lia|]. split; [lia|]. done.
      + split; [lia|]. split; [lia|]. intros _. by apply Hq.
  Qed.

Lemma run_permit_inv C ops : ∀ s held,
    permit_inv C s held →
    releases_held ops s held = true →
    permit_inv C (run ops s) (outstanding ops s held).
  Proof.
    induction ops as [|o ops IH]; intros s held Hinv Hops; [done|].
    simpl in Hops. apply andb_true_iff in Hops as [Ho Hops].
    change (run (o :: ops) s) with (run ops (step o s)). simpl.
    apply IH; [|done]. apply step_permit_inv; [done|].
    intros ->. by apply Z.ltb_lt.
  Qed.

  (** C5, as the code has it. From a fresh semaphore of capacity [C >= 0],
      along every sequence of [acquire()], [tryAcquire()] and [release()]
      in which each [release()] gives back a permit that is held, the
      count of available permits stays in [[0, C]] and, added to the
      permits granted and not yet released, makes [C]. *)
Theorem semaphore_permits_conserved (C : Z) (ops : list op) :
    0 <= C →
    releases_held ops (new C) 0 = true →
    0 <= availablePermits (run ops (new C)) <= C
    ∧ availablePermits (run ops (new C)) + outstanding ops (new C) 0 = C
    ∧ 0 <= outstanding ops (new C) 0.
  Proof.
    intros HC Hops.
    destruct (run_permit_inv C ops (new C) 0) as (H0 & Hsum & _); [|done|].
    { split; simpl; [lia|]. split; [lia|done]. }
    assert (0 <= outstanding ops (new C) 0); [|unfold availablePermits; lia].
    clear H0 Hsum.
    assert (Hgen : ∀ s held, 0 <= held → releases_held ops s held = true →
                    0 <= outstanding ops s held); [|by apply Hgen].
    clear Hops. induction ops as [|o ops IH]; intros s held Hh Hops; [done|].
    simpl in *. apply andb_true_iff in Hops as [Ho Hops].
    apply IH; [|done].
    destruct o as [w| |]; unfold granted_delta.
    - destruct (snd (acquire w s)); lia.
    - destruct (snd (tryAcquire s)); lia.
    - apply Z.ltb_lt in Ho. destruct (snd (release s)); lia.
  Qed.

Lemma semaphore_permits_conserved_witness :
    let ops := [Acquire 1%nat; TryAcquire; Acquire 2%nat; Release; Release; TryAcquire] in
    0 <= availablePermits (run ops (new 2)) <= 2
    ∧ availablePermits (run ops (new 2)) + outstanding ops (new 2) 0 = 2
    ∧ 0 <= outstanding ops (new 2) 0.
  Proof.
    apply (semaphore_permits_conserved 2
             [Acquire 1%nat; TryAcquire; Acquire 2%nat; Release; Release; TryAcquire]).
    - lia.
    - reflexivity.
  Defined.

  (** C5, as it is worded, fails: a [release()] on a fresh semaphore that
      granted nothing takes the count above the capacity. *)
Lemma semaphore_release_exceeds_capacity :
    ¬ (∀ (C : Z) (ops : list op),
         0 <= availablePermits (run ops (new C)) <= C
         ∧ availablePermits (run ops (new C)) + outstanding ops (new C) 0 = C)
    ∧ availablePermits (run [Release] (new 1)) = 2.
  Proof.
    split; [|reflexivity].
    intros H. specialize (H 1 [Release]). simpl in H.
    unfold availablePermits in H. simpl in H. lia.
  Qed.

End SemaphoreFacts.
(** * Properties of the round-robin scheduler *)

Section SchedulerFacts.
Import RoundRobinScheduler.
#[local] Open Scope nat_scope.

(** While the cursor is a position of the worker list, a scan reads
    defined workers only and leaves the cursor a position of the list. *)
Lemma assign_loop_in_range now remaining : ∀ s,
  currentIndex s < length (workers s) →
  let r := assign_loop now remaining s in
  (∀ err, snd r ≠ Throw err)
  ∧ currentIndex (fst r) < length (workers (fst r))
  ∧ length (workers (fst r)) = length (workers s).
Proof.
  induction remaining as [|remaining IH]; intros s Hin; simpl.
  - by split_and!.
  - destruct (lookup_lt_is_Some_2 _ _ Hin) as [worker Hw]. rewrite Hw.
    assert (Hmod : (currentIndex s + 1) `mod` length (workers s) < length (workers s)).
    { apply Nat.mod_upper_bound. lia. }
    destruct (active worker && (load worker <? maxLoad worker)%Z).
    + simpl. rewrite length_insert. by split_and!.
    + apply (IH (set_cursor _ s)). exact Hmod.
Qed.

Lemma assignTask_in_range now s :
  currentIndex s < length (workers s) →
  (∀ err, snd (assignTask now s) ≠ Throw err)
  ∧ currentIndex (fst (assignTask now s)) < length (workers (fst (assignTask now s))).
Proof.
  intros Hin. unfold assignTask. destruct (workers s) as [|w ws] eqn:Hws.
  - simpl in Hin. lia.
  - rewrite <- Hws in *.
    destruct (assign_loop_in_range now (length (workers s)) s Hin) as (H1 & H2 & _).
    by split.
Qed.

(** C3 at its failing input. [removeWorker] filters the worker list and
    leaves the cursor as it is. With the three workers of the module, two
    assignments leave the cursor on the third worker; removing that worker
    leaves the cursor at 2 with two workers left, and the next
    [assignTask()] reads [workers[2]], which is [undefined], and throws. *)
Theorem removeWorker_leaves_cursor_past_end :
  (∀ wid s, currentIndex (removeWorker wid s) = currentIndex s)
  ∧ let s2 := fst (assignTask 2 (fst (assignTask 1 messageScheduler))) in
    let s3 := removeWorker "worker-3" s2 in
    currentIndex s3 = 2
    ∧ length (workers s3) = 2
    ∧ getNextWorker s3 = None
    ∧ snd (assignTask 3 s3) = Throw undefined_worker.
Proof. split; [done|]. vm_compute. by split_and!. Qed.

End SchedulerFacts.

(** * Properties of the priority message queue *)

Section QueueFacts.
Import PriorityMessageQueue.
Context {A : Type}.
Implicit Types (m : QueuedMessage A) (s : t A) (q : list (QueuedMessage A)).

(** C6, as the code has it. Four messages are enqueued in the order
    LOW@t1, URGENT@t2, NORMAL@t3, URGENT@t4 with t1 < t2 < t3 < t4, and
    every delivery succeeds. When a drain is under way (the loop waits for
    the delivery of an earlier message [m0]) they are delivered after [m0]
    in the order URGENT@t2, URGENT@t4, NORMAL@t3, LOW@t1. On an idle
    queue the first [enqueue] starts the drain, which takes LOW@t1 at once,
    and the order is LOW@t1, URGENT@t2, URGENT@t4, NORMAL@t3. *)
Theorem dequeue_order_priority_then_fifo (l u1 n u2 : QueuedMessage A) :
  priority l = LOW → priority u1 = URGENT →
  priority n = NORMAL → priority u2 = URGENT →
  timestamp l < timestamp u1 < timestamp n ∧ timestamp n < timestamp u2 →
  (∀ s m0,
     processing s = true → awaiting s = Some m0 → buckets_empty s →
     let s' := enqueue u2 (enqueue n (enqueue u1 (enqueue l s))) in
     delivered (run_drain 5 always_resolves s') = delivered s ++ [m0; u1; u2; n; l]
     ∧ processing (run_drain 5 always_resolves s') = false)
  ∧ awaiting (enqueue l new) = Some l
  ∧ delivered (run_drain 4 always_resolves
                 (enqueue u2 (enqueue n (enqueue u1 (enqueue l new)))))
    = [l; u1; u2; n].
Proof.
  intros Hl Hu1 Hn Hu2 Ht.
  destruct l as [li lt lm lp lts lr], u1 as [ai at_ am ap ats ar],
           n as [ni nt nm np nts nr], u2 as [bi bt bm bp bts br].
  cbn [priority timestamp] in Hl, Hu1, Hn, Hu2, Ht. subst lp ap np bp.
  assert (Hle : (ats <=? bts) = true) by (apply Z.leb_le; lia).
  set (l := mkQueued li lt lm LOW lts lr).
  set (u1 := mkQueued ai at_ am URGENT ats ar).
  set (n := mkQueued ni nt nm NORMAL nts nr).
  set (u2 := mkQueued bi bt bm URGENT bts br).
  split; [|split].
  - intros [su sh sn sl sp smax sa sd se] m0 Hp Ha (Hqu & Hqh & Hqn & Hql).
    simpl in Hp, Ha, Hqu, Hqh, Hqn, Hql. subst. intros s'.
    assert (Hs' : s' = {| urgent := [u1; u2]; high := []; normal := [n];
                          low := [l]; processing := true; maxRetries := smax;
                          awaiting := Some m0; delivered := sd;
                          console_error := se |}).
    { unfold s'. cbv -[Z.leb].
      by rewrite Hle. }
    clearbody s'. subst s'. cbv -[app]. rewrite <- !app_assoc. done.
  - reflexivity.
  - match goal with |- context [run_drain 4 _ ?x] =>
      assert (Hs' : x = {| urgent := [u1; u2]; high := []; normal := [n];
                           low := []; processing := true; maxRetries := 3;
                           awaiting := Some l; delivered := [];
                           console_error := [] |}) end.
    { cbv -[Z.leb].
      by rewrite Hle. }
    rewrite Hs'. reflexivity.
Qed.


(** The stable sort only reorders. *)
Lemma insert_by_timestamp_perm m q : insert_by_timestamp m q ≡ₚ m :: q.
Proof.
  induction q as [|m' q IH]; simpl; [done|].
  destruct (timestamp m <=? timestamp m'); [done|].
  rewrite IH. apply Permutation_swap.
Qed.

Lemma sort_by_timestamp_perm q : sort_by_timestamp q ≡ₚ q.
Proof.
  induction q as [|m q IH]; simpl; [done|].
  by rewrite insert_by_timestamp_perm, IH.
Qed.

Lemma push_all_buckets m s : all_buckets (push m s) ≡ₚ m :: all_buckets s.
Proof.
  unfold push, all_buckets, get_queue.
  destruct (priority m); simpl; rewrite sort_by_timestamp_perm;
    rewrite <- ?Permutation_middle; simpl; rewrite ?app_nil_r.
  - done.
  - by rewrite <- Permutation_middle.
  - by rewrite (app_assoc (urgent s)), <- Permutation_middle, <- app_assoc.
  - done.
Qed.

Lemma push_fields m s :
  processing (push m s) = processing s ∧ maxRetries (push m s) = maxRetries s
  ∧ awaiting (push m s) = awaiting s ∧ delivered (push m s) = delivered s
  ∧ console_error (push m s) = console_error s.
Proof. done. Qed.

(** [dequeue] takes the first message of the concatenated buckets. *)
Lemma dequeue_all_buckets s :
  match dequeue s with
  | (None, s') => s' = s ∧ all_buckets s = []
  | (Some m, s') =>
      all_buckets s = m :: all_buckets s'
      ∧ processing s' = processing s ∧ maxRetries s' = maxRetries s
      ∧ awaiting s' = awaiting s ∧ delivered s' = delivered s
      ∧ console_error s' = console_error s
  end.
Proof.
  destruct s as [su sh sn sl sp smax sa sd se]. unfold dequeue, all_buckets.
  simpl. destruct su as [|m su]; [|done]. destruct sh as [|m sh]; [|done].
  destruct sn as [|m sn]; [|done]. destruct sl as [|m sl]; done.
Qed.

(** A turn of the loop started with nothing in delivery: it stops on empty
    buckets, or suspends on the first message of the buckets. *)
Lemma drain_pending s :
  awaiting s = None → processing s = true →
  pending (drain s) = all_buckets s
  ∧ (all_buckets s = [] → processing (drain s) = false ∧ awaiting (drain s) = None)
  ∧ (all_buckets s ≠ [] → processing (drain s) = true ∧ is_Some (awaiting (drain s)))
  ∧ maxRetries (drain s) = maxRetries s ∧ delivered (drain s) = delivered s
  ∧ console_error (drain s) = console_error s
  ∧ (awaiting (drain s) = None → all_buckets (drain s) = []).
Proof.
  intros Ha Hp. unfold drain. pose proof (dequeue_all_buckets s) as Hd.
  destruct (dequeue s) as [[m|] s'].
  - destruct Hd as (Hb & Hp' & Hm & Ha' & Hdl & He).
    unfold pending. simpl. rewrite Hb.
    split_and!; try done.
    intros _. split; [congruence|eauto].
  - destruct Hd as [-> Hb]. unfold pending. simpl. rewrite Ha, Hb.
    split_and!; try done.
Qed.

Lemma coherent_idle_pending s : coherent s → awaiting s = None → pending s = [].
Proof. intros (_ & _ & Hb) Ha. unfold pending. rewrite Ha, Hb; done. Qed.

(** Submitting a message keeps the state coherent and adds the message to
    the ones the queue owns, whether a drain is under way or not. *)
Lemma enqueue_coherent m s :
  coherent s →
  coherent (enqueue m s)
  ∧ pending (enqueue m s) ≡ₚ m :: pending s
  ∧ delivered (enqueue m s) = delivered s
  ∧ console_error (enqueue m s) = console_error s
  ∧ is_Some (awaiting (enqueue m s)).
Proof.
  intros (Hmax & Hproc & Hidle). unfold enqueue, processQueue.
  destruct (push_fields m s) as (Hp & Hm & Ha & Hd & He). rewrite Hp.
  destruct (processing s) eqn:Hps.
  - assert (Hsome : is_Some (awaiting s)) by by apply Hproc.
    split_and!; [|by unfold pending;
                     rewrite Ha, push_all_buckets, <- Permutation_middle
                 |done|done|by rewrite Ha].
    split_and!; [congruence|by rewrite Hp, Ha|].
    rewrite Ha. intros Hn. rewrite Hn in Hsome. by destruct Hsome.
  - assert (Hnone : awaiting s = None).
    { destruct (awaiting s) eqn:E; [|done].
      destruct Hproc as [_ Hproc]. discriminate Hproc. eauto. }
    pose proof (push_all_buckets m s) as Hperm.
    destruct (drain_pending (set_processing true (push m s)))
      as (Hpend & _ & Hne & Hm' & Hd' & He' & Hidle'); [by rewrite <- Hnone| done|].
    change (all_buckets (set_processing true (push m s)))
      with (all_buckets (push m s)) in *.
    assert (Hnil : all_buckets (push m s) ≠ []).
    { intros E. rewrite E in Hperm. by apply Permutation_nil_cons in Hperm. }
    destruct (Hne Hnil) as [Hp1 Ha1].
    split_and!; [|by rewrite Hpend, Hperm; unfold pending; rewrite Hnone
                 |by rewrite Hd'|by rewrite He'|done].
    split_and!; [by rewrite Hm'|done|done].
Qed.

(** One failed delivery: the message goes back to its bucket with one
    more retry, or is reported and dropped when it has none left. *)
Lemma settle_reject m s :
  coherent s → awaiting s = Some m →
  let s' := settle false s in
  coherent s'
  ∧ delivered s' = delivered s
  ∧ ((retries m < 3 ∧ pending s' ≡ₚ retried m :: all_buckets s
      ∧ console_error s' = console_error s)
     ∨ (3 <= retries m ∧ pending s' = all_buckets s
        ∧ console_error s' = console_error s ++ [drop_report m])).
Proof.
  intros (Hmax & Hproc & Hidle) Ha. unfold settle. rewrite Ha. simpl.
  assert (Hp : processing s = true) by (apply Hproc; by rewrite Ha).
  destruct (Z.ltb_spec (retries m) (maxRetries s)) as [Hlt|Hge].
  - unfold enqueue, processQueue. simpl. rewrite Hp.
    set (s1 := push (retried m) (set_awaiting None s)).
    pose proof (push_all_buckets (retried m) (set_awaiting None s)) as Hperm.
    fold s1 in Hperm.
    change (all_buckets (set_awaiting None s)) with (all_buckets s) in Hperm.
    destruct (drain_pending s1) as (Hpend & Hnil & Hne & Hm' & Hd' & He' & Hidle');
      [done|done|].
    assert (Hn : all_buckets s1 ≠ []).
    { intros E. rewrite E in Hperm. by apply Permutation_nil_cons in Hperm. }
    destruct (Hne Hn) as [Hp1 Ha1].
    split; [|split].
    + split; [by rewrite Hm'|]. split; [done|done].
    + by rewrite Hd'.
    + left. split; [lia|]. split; [by rewrite Hpend|by rewrite He'].
  - set (s1 := log_error m (set_awaiting None s)).
    destruct (drain_pending s1) as (Hpend & Hnil & Hne & Hm' & Hd' & He' & Hidle');
      [done|done|].
    change (all_buckets s1) with (all_buckets s) in *.
    split; [|split].
    + split; [by rewrite Hm'|]. split; [|done].
      destruct (all_buckets s) eqn:E.
      * destruct (Hnil eq_refl) as [-> ->]. split; [done|]. by intros [? ?].
      * destruct Hne as [-> ?]; done.
    + by rewrite Hd'.
    + right. split; [lia|]. split; [done|]. rewrite He'. simpl.
      unfold drop_report. by rewrite Hmax.
Qed.

Lemma attempts_left_retried m :
  retries m < 3 → attempts_left m = S (attempts_left (retried m)).
Proof. intros H. unfold attempts_left, retried. simpl. f_equal. lia. Qed.

(** When no delivery ever succeeds, the drain ends, with every message the
    queue owned reported and dropped. *)
Lemma run_drain_never_resolves fuel : ∀ s,
  coherent s →
  (sum_list_with attempts_left (pending s) ≤ fuel)%nat →
  let s' := run_drain fuel never_resolves s in
  awaiting s' = None ∧ processing s' = false ∧ all_buckets s' = []
  ∧ delivered s' = delivered s
  ∧ console_error s' ≡ₚ console_error s ++ (drop_report <$> pending s).
Proof.
  induction fuel as [|fuel IH]; intros s Hc Hsum.
  - assert (Hnil : pending s = []).
    { destruct (pending s) as [|m l]; [done|]. cbn [sum_list_with] in Hsum.
      unfold attempts_left in Hsum at 1. lia. }
    assert (Ha : awaiting s = None).
    { unfold pending in Hnil. by destruct (awaiting s). }
    destruct Hc as (_ & Hproc & Hidle). simpl.
    split_and!; [done| |by apply Hidle|done|by rewrite Hnil, app_nil_r].
    destruct (processing s) eqn:E; [|done].
    destruct Hproc as [Hproc _]. rewrite Ha in Hproc.
    by destruct (Hproc eq_refl).
  - cbn [run_drain]. cbv zeta. destruct (awaiting s) as [m|] eqn:Ha.
    + destruct (settle_reject m s Hc Ha) as (Hc' & Hd' & Hcase).
      change (never_resolves m) with false.
      assert (Hpend : pending s = m :: all_buckets s).
      { unfold pending. by rewrite Ha. }
      rewrite Hpend in Hsum |- *. cbn [sum_list_with] in Hsum.
      destruct Hcase as [(Hlt & Hp' & He')|(Hge & Hp' & He')].
      * destruct (IH (settle false s) Hc') as (H1 & H2 & H3 & H4 & H5).
        { rewrite Hp'. cbn [sum_list_with].
          rewrite (attempts_left_retried m Hlt) in Hsum. lia. }
        split_and!; [done|done|done|by rewrite H4|].
        rewrite H5, He', Hp'. done.
      * destruct (IH (settle false s) Hc') as (H1 & H2 & H3 & H4 & H5).
        { rewrite Hp'. unfold attempts_left in Hsum at 1. lia. }
        split_and!; [done|done|done|by rewrite H4|].
        rewrite H5, He', Hp'. rewrite fmap_cons, <- app_assoc. done.
    + destruct Hc as (_ & Hproc & Hidle).
      split_and!; [done| |by apply Hidle|done|].
      * destruct (processing s) eqn:E; [|done].
        destruct Hproc as [Hproc _]. rewrite Ha in Hproc.
        by destruct (Hproc eq_refl).
      * unfold pending. rewrite Ha, (Hidle Ha). simpl.
        by rewrite app_nil_r.
Qed.

(** The deliveries of that run: each message the queue owned is tried
    as many times as it had attempts left, and fails each time. *)
Lemma trace_drain_never_resolves fuel : ∀ s,
  coherent s →
  (sum_list_with attempts_left (pending s) ≤ fuel)%nat →
  trace_drain fuel never_resolves s
  ≡ₚ pending s ≫= (λ m, replicate (attempts_left m) (id m, false)).
Proof.
  induction fuel as [|fuel IH]; intros s Hc Hsum.
  - destruct (pending s) as [|m l]; [done|]. cbn [sum_list_with] in Hsum.
    unfold attempts_left in Hsum at 1. lia.
  - cbn [trace_drain]. destruct (awaiting s) as [m|] eqn:Ha.
    + destruct (settle_reject m s Hc Ha) as (Hc' & Hd' & Hcase).
      change (never_resolves m) with false.
      assert (Hpend : pending s = m :: all_buckets s).
      { unfold pending. by rewrite Ha. }
      rewrite Hpend in Hsum |- *. cbn [sum_list_with] in Hsum.
      destruct Hcase as [(Hlt & Hp' & He')|(Hge & Hp' & He')].
      * rewrite IH; [|done|].
        2:{ rewrite Hp'. cbn [sum_list_with].
            rewrite (attempts_left_retried m Hlt) in Hsum. lia. }
        rewrite Hp'. rewrite !bind_cons.
        rewrite (attempts_left_retried m Hlt). done.
      * rewrite IH; [|done|].
        2:{ rewrite Hp'. unfold attempts_left in Hsum at 1. lia. }
        rewrite Hp'. rewrite bind_cons.
        assert (attempts_left m = 1%nat) as ->; [|done].
        unfold attempts_left. f_equal. lia.
    + rewrite coherent_idle_pending; done.
Qed.

Lemma new_coherent : coherent (@new A).
Proof. split; [done|]. split; [|done]. split; [done|]. by intros [? ?]. Qed.

Lemma stat_total_all_buckets s :
  stat_total (getStats s) = Z.of_nat (length (all_buckets s)).
Proof. unfold getStats, all_buckets. simpl. rewrite !length_app. lia. Qed.


(** C2, as the code has it. Three messages are submitted to a new queue
    and every delivery fails: each message is delivered four times, the
    first time and three retries, and is then dropped. The drain ends; no
    message is delivered; [console.error] reports each of the three, once;
    [enqueue] gives the submitter nothing but the new state; the four
    buckets are empty and [getStats().total] is 0. *)
Theorem three_messages_dropped_after_retries
    (m1 m2 m3 : QueuedMessage A) (fuel : nat) :
  retries m1 = 0 → retries m2 = 0 → retries m3 = 0 →
  (12 ≤ fuel)%nat →
  let s := enqueue m3 (enqueue m2 (enqueue m1 new)) in
  let s' := run_drain fuel never_resolves s in
  delivered s' = []
  ∧ console_error s' ≡ₚ [drop_report m1; drop_report m2; drop_report m3]
  ∧ buckets_empty s'
  ∧ stat_total (getStats s') = 0
  ∧ processing s' = false ∧ awaiting s' = None
  ∧ trace_drain fuel never_resolves s
    ≡ₚ replicate 4 (id m1, false) ++ replicate 4 (id m2, false)
       ++ replicate 4 (id m3, false).
Proof.
  intros Hr1 Hr2 Hr3 Hfuel s s'.
  destruct (enqueue_coherent m1 new new_coherent) as (Hc1 & Hp1 & Hd1 & He1 & _).
  destruct (enqueue_coherent m2 _ Hc1) as (Hc2 & Hp2 & Hd2 & He2 & _).
  destruct (enqueue_coherent m3 _ Hc2) as (Hc3 & Hp3 & Hd3 & He3 & _).
  fold s in Hc3, Hp3, Hd3, He3.
  assert (Hpend : pending s ≡ₚ [m1; m2; m3]).
  { rewrite Hp3, Hp2, Hp1.
    change (m3 :: m2 :: m1 :: pending new) with (reverse [m1; m2; m3]).
    apply reverse_Permutation. }
  assert (Hsum : sum_list_with attempts_left (pending s) = 12%nat).
  { rewrite Hpend. simpl. unfold attempts_left. rewrite Hr1, Hr2, Hr3. done. }
  destruct (run_drain_never_resolves fuel s Hc3) as (Ha & Hp & Hb & Hd & He);
    [lia|].
  fold s' in Ha, Hp, Hb, Hd, He.
  pose proof (trace_drain_never_resolves fuel s Hc3 ltac:(lia)) as Htrace.
  rewrite Hd3, Hd2, Hd1 in Hd. rewrite He3, He2, He1 in He.
  change (delivered new) with (@nil (QueuedMessage A)) in Hd.
  change (console_error new) with (@nil (string * Z)) in He.
  clearbody s'. clearbody s.
  split; [done|].
  split; [by rewrite He, Hpend|].
  assert (Hbe : buckets_empty s').
  { unfold all_buckets in Hb.
    apply app_eq_nil in Hb as [? Hb]. apply app_eq_nil in Hb as [? Hb].
    apply app_eq_nil in Hb as [? ?]. done. }
  split; [done|].
  split; [by rewrite stat_total_all_buckets, Hb|].
  split; [done|]. split; [done|].
  rewrite Htrace, Hpend. simpl. unfold attempts_left. rewrite Hr1, Hr2, Hr3. done.
Qed.

End QueueFacts.

Lemma three_messages_dropped_after_retries_witness :
  let m (i : string) p ts :=
    PriorityMessageQueue.mkQueued i "thread" tt p ts 0 in
  let s := PriorityMessageQueue.enqueue (m "c" PriorityMessageQueue.URGENT 3)
             (PriorityMessageQueue.enqueue (m "b" PriorityMessageQueue.LOW 2)
                (PriorityMessageQueue.enqueue (m "a" PriorityMessageQueue.NORMAL 1)
                   PriorityMessageQueue.new)) in
  let s' := PriorityMessageQueue.run_drain 12 PriorityMessageQueue.never_resolves s in
  PriorityMessageQueue.delivered s' = []
  ∧ PriorityMessageQueue.console_error s' ≡ₚ [("a", 3); ("b", 3); ("c", 3)]
  ∧ PriorityMessageQueue.stat_total (PriorityMessageQueue.getStats s') = 0.
Proof.
  intros m s s'.
  destruct (three_messages_dropped_after_retries
              (m "a" PriorityMessageQueue.NORMAL 1)
              (m "b" PriorityMessageQueue.LOW 2)
              (m "c" PriorityMessageQueue.URGENT 3) 12
              eq_refl eq_refl eq_refl ltac:(lia))
    as (H1 & H2 & _ & H4 & _).
  split; [exact H1|]. split; [exact H2|exact H4].
Defined.

Lemma dequeue_order_priority_then_fifo_witness :
  let m (i : string) p ts :=
    PriorityMessageQueue.mkQueued i "thread" tt p ts 0 in
  let m0 := m "m0" PriorityMessageQueue.HIGH 0 in
  let l := m "l1" PriorityMessageQueue.LOW 1 in
  let u1 := m "u2" PriorityMessageQueue.URGENT 2 in
  let n := m "n3" PriorityMessageQueue.NORMAL 3 in
  let u2 := m "u4" PriorityMessageQueue.URGENT 4 in
  let s := PriorityMessageQueue.enqueue m0 PriorityMessageQueue.new in
  let s' := PriorityMessageQueue.enqueue u2
              (PriorityMessageQueue.enqueue n
                 (PriorityMessageQueue.enqueue u1
                    (PriorityMessageQueue.enqueue l s))) in
  PriorityMessageQueue.delivered
    (PriorityMessageQueue.run_drain 5 PriorityMessageQueue.always_resolves s')
  = [m0; u1; u2; n; l].
Proof.
  intros m m0 l u1 n u2 s s'.
  destruct (dequeue_order_priority_then_fifo l u1 n u2
              eq_refl eq_refl eq_refl eq_refl ltac:(simpl; lia)) as [Hbusy _].
  destruct (Hbusy s m0 eq_refl eq_refl ltac:(by repeat split)) as [Hd _].
  exact Hd.
Defined.

(** C2, as it is worded, fails. Three messages are submitted and the
    delivery of each fails exactly three times (the trace shows three
    rejections and then a success for every id): no message is dropped,
    all three are delivered by their third retry, and [console.error]
    reports nothing. *)
Lemma three_failures_still_delivered :
  let m (i : string) p ts :=
    PriorityMessageQueue.mkQueued i "thread" tt p ts 0 in
  let s := PriorityMessageQueue.enqueue (m "c" PriorityMessageQueue.NORMAL 3)
             (PriorityMessageQueue.enqueue (m "b" PriorityMessageQueue.NORMAL 2)
                (PriorityMessageQueue.enqueue (m "a" PriorityMessageQueue.NORMAL 1)
                   PriorityMessageQueue.new)) in
  let send := PriorityMessageQueue.fails_three_times in
  let s' := PriorityMessageQueue.run_drain 12 send s in
  PriorityMessageQueue.trace_drain 12 send s =
    [("a", false); ("a", false); ("a", false); ("a", true);
     ("b", false); ("b", false); ("b", false); ("b", true);
     ("c", false); ("c", false); ("c", false); ("c", true)]
  ∧ PriorityMessageQueue.id <$> PriorityMessageQueue.delivered s' = ["a"; "b"; "c"]
  ∧ PriorityMessageQueue.console_error s' = []
  ∧ PriorityMessageQueue.awaiting s' = None
  ∧ PriorityMessageQueue.stat_total (PriorityMessageQueue.getStats s') = 0.
Proof. vm_compute. repeat split; reflexivity. Qed.

(** C6, as it is worded, fails on a queue at rest: the first [enqueue]
    starts the drain, which takes LOW@1 before URGENT@2 is submitted, so
    LOW@1 is delivered first and not last. *)
Lemma first_enqueued_is_taken_at_once :
  let m (i : string) p ts :=
    PriorityMessageQueue.mkQueued i "thread" tt p ts 0 in
  let l := m "l1" PriorityMessageQueue.LOW 1 in
  let u1 := m "u2" PriorityMessageQueue.URGENT 2 in
  let n := m "n3" PriorityMessageQueue.NORMAL 3 in
  let u2 := m "u4" PriorityMessageQueue.URGENT 4 in
  let s := PriorityMessageQueue.enqueue u2
             (PriorityMessageQueue.enqueue n
                (PriorityMessageQueue.enqueue u1
                   (PriorityMessageQueue.enqueue l PriorityMessageQueue.new))) in
  let s' := PriorityMessageQueue.run_drain 4 PriorityMessageQueue.always_resolves s in
  PriorityMessageQueue.awaiting
    (PriorityMessageQueue.enqueue l PriorityMessageQueue.new) = Some l
  ∧ PriorityMessageQueue.delivered s' = [l; u1; u2; n]
  ∧ PriorityMessageQueue.delivered s' ≠ [u1; u2; n; l].
Proof. vm_compute. split; [reflexivity|]. split; [reflexivity|]. discriminate. Qed.
(** * Properties of the deadlock detector *)

Section DetectorFacts.
Import AssocMap DeadlockDetector.
Implicit Types (g : graph) (st : marks) (s : t).
#[local] Open Scope nat_scope.

(** ** Association lists *)

Lemma aget_elem_of {V} k (v : V) m : aget k m = Some v → (k, v) ∈ m.
Proof.
  induction m as [|[k' v'] m IH]; simpl; [done|].
  case_decide as E.
  - intros [= ->]. subst. left.
  - intros H. right. by apply IH.
Qed.

Lemma elem_of_aget {V} k (v : V) m : (k, v) ∈ m → is_Some (aget k m).
Proof.
  induction m as [|[k' v'] m IH]; simpl; [by intros ?%elem_of_nil|].
  intros [E|H]%elem_of_cons.
  - injection E as -> ->. rewrite decide_True by done. eauto.
  - case_decide; eauto.
Qed.

Lemma aget_aset_eq {V} k (v : V) m : aget k (aset k v m) = Some v.
Proof.
  induction m as [|[k' v'] m IH]; simpl.
  - by rewrite decide_True.
  - case_decide; simpl; [by rewrite decide_True|]. by rewrite decide_False.
Qed.

Lemma aget_aset_ne {V} k k' (v : V) m : k ≠ k' → aget k' (aset k v m) = aget k' m.
Proof.
  intros Hne. induction m as [|[k0 v0] m IH]; simpl.
  - by rewrite decide_False.
  - case_decide as E; simpl.
    + subst k0. by rewrite !decide_False.
    + case_decide; [done|]. exact IH.
Qed.

Lemma elem_of_aset {V} k (v : V) m e :
  e ∈ aset k v m → e = (k, v) ∨ e ∈ m.
Proof.
  induction m as [|[k0 v0] m IH]; simpl.
  - intros ->%list_elem_of_singleton. by left.
  - case_decide as E.
    + intros [->|H']%elem_of_cons; [by left|]. right. by right.
    + intros [->|H']%elem_of_cons; [right; left|].
      destruct (IH H') as [->|H'']; [by left|]. right. by right.
Qed.

(** ** The search ends within its fuel *)

Section Total.
Variable g : graph.
Variable U : gset string.
Hypothesis neighbours_in_U : ∀ x l y, aget x g = Some l → y ∈ l → y ∈ U.

Lemma dfs_neighbors_total f rec (ns : list string) : ∀ st,
  ends_within U f rec →
  (∀ y, y ∈ ns → y ∈ U) → st.1 ⊆ U → size (U ∖ st.1) ≤ f →
  ∃ b st', dfs_neighbors rec ns st = Some (b, st') ∧ st.1 ⊆ st'.1 ∧ st'.1 ⊆ U.
Proof.
  induction ns as [|y ns IH]; intros st Hrec Hns HU Hsz; simpl.
  - eauto.
  - assert (Hns' : ∀ y, y ∈ ns → y ∈ U) by (intros; apply Hns; by right).
    case_decide as Hv.
    + case_decide as Hr; [eauto|]. by apply IH.
    + destruct (Hrec y st) as (b & st' & -> & Hmono & HU'); try done.
      { apply Hns. left. }
      destruct b; [eauto|].
      destruct (IH st' Hrec Hns' HU') as (b & st'' & -> & Hmono' & HU'').
      { etrans; [|exact Hsz]. apply subseteq_size. set_solver. }
      exists b, st''. split; [done|]. split; [set_solver|done].
Qed.

Lemma dfs_total fuel : ends_within U fuel (dfs fuel g).
Proof.
  induction fuel as [|f IH]; intros node st Hnode Hfresh HU Hsz.
  - exfalso. assert (size (U ∖ st.1) ≠ 0); [|lia].
    apply size_non_empty_iff. set_solver.
  - simpl.
    destruct (dfs_neighbors_total f (dfs f g) (default [] (aget node g))
                ({[node]} ∪ st.1, {[node]} ∪ st.2) IH)
      as (b & st' & -> & Hmono & HU').
    + intros y Hy. destruct (aget node g) as [l|] eqn:E; simpl in Hy.
      * by eapply neighbours_in_U.
      * by apply elem_of_nil in Hy.
    + simpl. set_solver.
    + simpl. assert (size (U ∖ ({[node]} ∪ st.1)) < size (U ∖ st.1)); [|lia].
      apply subset_size. set_solver.
    + simpl in *. destruct b; eexists _, _; (split; [done|]); simpl; set_solver.
Qed.

Lemma hasCycle_loop_total (keys : list string) : ∀ st,
  (∀ y, y ∈ keys → y ∈ U) → st.1 ⊆ U →
  is_Some (hasCycle_loop (S (size U)) g keys st).
Proof.
  induction keys as [|k keys IH]; intros st Hk HU; simpl; [eauto|].
  assert (Hk' : ∀ y, y ∈ keys → y ∈ U) by (intros; apply Hk; by right).
  case_decide as Hv; [by apply IH|].
  destruct (dfs_total (S (size U)) k st) as (b & st' & Hd & Hmono & HU'); try done.
  { apply Hk. left. }
  { etrans; [apply subseteq_size|]; [|apply Nat.le_succ_diag_r]. set_solver. }
  simpl in Hd. rewrite Hd. destruct b; [eauto|]. by apply IH.
Qed.

End Total.

Lemma hasCycle_within_fuel g : is_Some (hasCycle_search g).
Proof.
  unfold hasCycle_search, hasCycle_fuel.
  apply hasCycle_loop_total.
  - intros x l y Hx Hy. unfold nodes. apply elem_of_union_r.
    apply elem_of_list_to_set, list_elem_of_join.
    exists l. split; [done|].
    apply aget_elem_of in Hx.
    apply list_elem_of_fmap. by exists (x, l).
  - intros y Hy. unfold nodes. apply elem_of_union_l.
    by apply elem_of_list_to_set.
  - simpl. set_solver.
Qed.


(** ** The search finds every cycle *)

Lemma finished_edge g l x y : finished g l → x ∈ l → edge g x y → y ∈ l.
Proof.
  induction l as [|x0 l IH]; simpl; [by intros _ ?%elem_of_nil|].
  intros [Hx0 Hl] [->|Hx]%elem_of_cons He; right; [by apply Hx0|by apply IH].
Qed.

Lemma finished_path g l x y : finished g l → x ∈ l → path g x y → y ∈ l.
Proof.
  intros Hl Hx Hp. induction Hp as [x y He|x y z He Hp IH].
  - by eapply finished_edge.
  - apply IH. by eapply finished_edge.
Qed.

Lemma path_inv g x z : path g x z → ∃ y, edge g x y ∧ (y = z ∨ path g y z).
Proof. intros [x' y He|x' y z' He Hp]; eauto. Qed.

Lemma finished_acyclic g l x : finished g l → x ∈ l → ¬ path g x x.
Proof.
  induction l as [|x0 l IH]; simpl; [by intros _ ?%elem_of_nil|].
  intros [Hx0 Hl] [->|Hx]%elem_of_cons Hp; [|by apply IH].
  destruct (path_inv _ _ _ Hp) as (y & He & [->|Hp']).
  - apply IH; [done| |done]. by apply Hx0.
  - apply IH; [done| |done]. eapply finished_path; [done| |done]. by apply Hx0.
Qed.

Lemma dfs_neighbors_false g rec (ns : list string) :
  keeps_search_inv g rec →
  ∀ st st', dfs_neighbors rec ns st = Some (false, st') → search_inv g st →
    search_inv g st' ∧ st'.2 = st.2 ∧ st.1 ⊆ st'.1
    ∧ ∀ y, y ∈ ns → y ∈ st'.1 ∧ y ∉ st'.2.
Proof.
  intros Hrec. induction ns as [|y ns IH]; intros st st' Hrun Hinv; simpl in Hrun.
  - injection Hrun as <-. split_and!; try done. by intros ??%elem_of_nil.
  - case_decide as Hv.
    + case_decide as Hr; [done|].
      destruct (IH _ _ Hrun Hinv) as (Hinv' & Hst & Hmono & Hns).
      split_and!; try done.
      intros y' [->|H]%elem_of_cons; [|by apply Hns].
      rewrite Hst. set_solver.
    + destruct (rec y st) as [[[] st1]|] eqn:Hy; try done.
      destruct (Hrec _ _ _ Hy Hv Hinv) as (Hinv1 & Hst1 & Hmono1 & Hy1).
      destruct (IH _ _ Hrun Hinv1) as (Hinv' & Hst & Hmono & Hns).
      assert (Hsub : st.2 ⊆ st.1) by apply Hinv.
      split_and!; [done|congruence|set_solver|].
      intros y' [->|H]%elem_of_cons; [|by apply Hns].
      rewrite Hst, Hst1. set_solver.
Qed.

Lemma dfs_false g fuel : keeps_search_inv g (dfs fuel g).
Proof.
  induction fuel as [|f IH]; intros node st st' Hrun Hfresh Hinv; [done|].
  simpl in Hrun.
  destruct (dfs_neighbors _ _ _) as [[[] st1]|] eqn:Hns; try done.
  injection Hrun as <-.
  destruct Hinv as (Hsub & l & Hl & Hfin).
  apply (dfs_neighbors_false g _ _ IH) in Hns as (Hinv1 & Hst1 & Hmono1 & Hnb).
  2:{ split; simpl; [set_solver|]. exists l. split; [|done].
      intros x. rewrite Hl. set_solver. }
  simpl in *. destruct Hinv1 as (Hsub1 & l1 & Hl1 & Hfin1).
  assert (Hstack : st1.2 ∖ {[node]} = st.2) by (rewrite Hst1; set_solver).
  rewrite Hstack.
  split; [|split; [done|split; set_solver]].
  split; simpl; [set_solver|].
  exists (node :: l1). split.
  - intros x. rewrite elem_of_cons, Hl1, Hst1.
    destruct (decide (x = node)) as [->|Hne]; set_solver.
  - simpl. split; [|done].
    intros y (nb & Hget & Hy). rewrite Hget in Hnb. simpl in Hnb.
    apply Hl1. by apply Hnb.
Qed.

Lemma hasCycle_loop_false g fuel (keys : list string) : ∀ st,
  hasCycle_loop fuel g keys st = Some false →
  st.2 = ∅ → search_inv g st →
  ∃ st', search_inv g st' ∧ st'.2 = ∅ ∧ st.1 ⊆ st'.1 ∧ ∀ k, k ∈ keys → k ∈ st'.1.
Proof.
  induction keys as [|k keys IH]; intros st Hrun Hempty Hinv; simpl in Hrun.
  - exists st. split_and!; try done. by intros ??%elem_of_nil.
  - case_decide as Hv.
    + destruct (IH _ Hrun Hempty Hinv) as (st' & Hinv' & He' & Hmono & Hk).
      exists st'. split_and!; try done.
      intros k' [->|H]%elem_of_cons; [set_solver|by apply Hk].
    + destruct (dfs fuel g k st) as [[[] st1]|] eqn:Hd; try done.
      destruct (dfs_false g fuel _ _ _ Hd Hv Hinv) as (Hinv1 & Hst1 & Hmono1 & Hk1).
      destruct (IH _ Hrun) as (st' & Hinv' & He' & Hmono & Hk); [congruence|done|].
      exists st'. split_and!; try done; [set_solver|].
      intros k' [->|H]%elem_of_cons; [set_solver|by apply Hk].
Qed.

(** When the search answers [false], the graph has no cycle through any
    of its keys. *)
Lemma hasCycle_search_false g x :
  hasCycle_search g = Some false → ¬ path g x x.
Proof.
  intros Hrun Hp. unfold hasCycle_search in Hrun.
  apply hasCycle_loop_false in Hrun as (st' & (Hsub & l & Hl & Hfin) & He & _ & Hk).
  - apply (finished_acyclic g l x); [done| |done].
    apply Hl. rewrite He. split; [|set_solver].
    apply Hk. destruct (path_inv _ _ _ Hp) as (y & (nb & Hget & _) & _).
    apply aget_elem_of in Hget. apply list_elem_of_fmap. by exists (x, nb).
  - done.
  - split; simpl; [done|]. exists []. split; [set_solver|done].
Qed.

(** Every cycle of the graph is found. *)
Lemma hasCycle_complete g x : path g x x → hasCycle g = true.
Proof.
  intros Hp. unfold hasCycle.
  destruct (hasCycle_within_fuel g) as [[] Hb]; rewrite Hb; [done|].
  by destruct (hasCycle_search_false g x Hb).
Qed.


(** ** The edges of the allocation graph *)

Lemma foldl_keeps {A B} (f : B → A → B) (P : B → Prop) (l : list A) b :
  (∀ b a, P b → P (f b a)) → P b → P (foldl f b l).
Proof. intros Hf. revert b. induction l; simpl; auto. Qed.

Lemma foldl_reaches {A B} (f : B → A → B) (P : B → Prop) (l : list A) e b :
  (∀ b a, P b → P (f b a)) → (∀ b, P (f b e)) → e ∈ l → P (foldl f b l).
Proof.
  intros Hf He. revert b. induction l as [|a l IH]; intros b Hin; simpl.
  - by apply elem_of_nil in Hin.
  - apply elem_of_cons in Hin as [->|Hin]; [|by apply IH].
    apply foldl_keeps; [done|apply He].
Qed.

Lemma edge_add_node g k x y : edge g x y → edge (add_node k g) x y.
Proof.
  intros (l & Hget & Hy). unfold add_node, ahas. case_bool_decide as Hk.
  - by exists l.
  - exists l. split; [|done]. rewrite aget_aset_ne; [done|].
    intros ->. apply Hk. by rewrite Hget.
Qed.

Lemma key_add_node g k : is_Some (aget k (add_node k g)).
Proof.
  unfold add_node, ahas. case_bool_decide as Hk; [done|].
  rewrite aget_aset_eq. eauto.
Qed.

Lemma key_add_edge g k v x : is_Some (aget x g) → is_Some (aget x (add_edge k v g)).
Proof.
  intros Hx. unfold add_edge. destruct (aget k g) as [l|] eqn:Hk; [|done].
  destruct (decide (k = x)) as [->|Hne].
  - rewrite aget_aset_eq. eauto.
  - by rewrite aget_aset_ne.
Qed.

Lemma edge_add_edge_keeps g k v x y : edge g x y → edge (add_edge k v g) x y.
Proof.
  intros (l & Hget & Hy). unfold add_edge.
  destruct (aget k g) as [l'|] eqn:Hk; [|by exists l].
  destruct (decide (k = x)) as [->|Hne].
  - exists (l' ++ [v]). rewrite aget_aset_eq. split; [done|].
    assert (l' = l) as -> by congruence. set_solver.
  - exists l. by rewrite aget_aset_ne.
Qed.

Lemma edge_add_edge g k v : is_Some (aget k g) → edge (add_edge k v g) k v.
Proof.
  intros [l Hk]. unfold add_edge. rewrite Hk. exists (l ++ [v]).
  rewrite aget_aset_eq. split; [done|]. set_solver.
Qed.

Lemma edge_add_process_keeps g e x y : edge g x y → edge (add_process g e) x y.
Proof.
  intros He. unfold add_process.
  apply (foldl_keeps _ (λ g, edge g x y)).
  - intros ???. by apply edge_add_edge_keeps.
  - by apply edge_add_node.
Qed.

Lemma edge_add_process g e r : r ∈ waiting e.2 → edge (add_process g e) (pid e.2) r.
Proof.
  intros Hr. unfold add_process.
  assert (Hgen : ∀ (l : list string) g0, is_Some (aget (pid e.2) g0) → r ∈ l →
            edge (foldl (λ g r, add_edge (pid e.2) r g) g0 l) (pid e.2) r).
  { induction l as [|r' l IH]; intros g0 Hk Hin; simpl.
    - by apply elem_of_nil in Hin.
    - apply elem_of_cons in Hin as [->|Hin].
      + apply (foldl_keeps _ (λ g, edge g (pid e.2) r')).
        * intros ???. by apply edge_add_edge_keeps.
        * by apply edge_add_edge.
      + apply IH; [|done]. by apply key_add_edge. }
  apply Hgen; [apply key_add_node|done].
Qed.

Lemma edge_add_resource_keeps g e x y : edge g x y → edge (add_resource g e) x y.
Proof.
  intros He. unfold add_resource. destruct (truthy (holder e.2)).
  - by apply edge_add_edge_keeps, edge_add_node.
  - by apply edge_add_node.
Qed.

Lemma edge_add_resource g e p :
  holder e.2 = Some p → truthy (holder e.2) = true →
  edge (add_resource g e) (rid e.2) p.
Proof.
  intros Hh Ht. unfold add_resource. rewrite Ht, Hh. simpl.
  apply edge_add_edge, key_add_node.
Qed.

(** A process waiting for a resource is an edge of the graph, and so is a
    resource with its holder. *)
Lemma edge_waits s k p r :
  (k, p) ∈ processes s → r ∈ waiting p →
  edge (buildResourceAllocationGraph s) (pid p) r.
Proof.
  intros Hin Hr. unfold buildResourceAllocationGraph.
  apply (foldl_keeps _ (λ g, edge g (pid p) r)).
  - intros ???. by apply edge_add_resource_keeps.
  - apply (foldl_reaches _ (λ g, edge g (pid p) r) _ (k, p)); [| |done].
    + intros ???. by apply edge_add_process_keeps.
    + intros g. by apply (edge_add_process g (k, p)).
Qed.

Lemma edge_held s k r p :
  (k, r) ∈ resources s → holder r = Some p → truthy (holder r) = true →
  edge (buildResourceAllocationGraph s) (rid r) p.
Proof.
  intros Hin Hh Ht. unfold buildResourceAllocationGraph.
  apply (foldl_reaches _ (λ g, edge g (rid r) p) _ (k, r)); [| |done].
  - intros ???. by apply edge_add_resource_keeps.
  - intros g. by apply (edge_add_resource g (k, r)).
Qed.

(** ** Records stay under their ids *)

Lemma keyed_new : keyed new.
Proof. split; intros ?? H; by apply elem_of_nil in H. Qed.

Lemma rid_resource_or_new s r : keyed s → rid (resource_or_new r s) = r.
Proof.
  intros [Hr _]. unfold resource_or_new.
  destruct (aget r (resources s)) as [res|] eqn:E; simpl; [|done].
  apply Hr. by apply aget_elem_of.
Qed.

Lemma pid_process_or_new s p : keyed s → pid (process_or_new p s) = p.
Proof.
  intros [_ Hp]. unfold process_or_new.
  destruct (aget p (processes s)) as [proc|] eqn:E; simpl; [|done].
  apply Hp. by apply aget_elem_of.
Qed.

Lemma keyed_update s kr r kp p :
  keyed s → rid r = kr → pid p = kp →
  keyed {| resources := aset kr r (resources s);
           processes := aset kp p (processes s) |}.
Proof.
  intros [Hr Hp] Hrid Hpid. split; simpl.
  - intros k r' [E|Hin]%elem_of_aset; [by injection E as -> ->|by apply Hr].
  - intros k p' [E|Hin]%elem_of_aset; [by injection E as -> ->|by apply Hp].
Qed.

Lemma keyed_grant s p r : keyed s → keyed (grant p r s).
Proof.
  intros Hk. apply keyed_update; try done; simpl.
  - by apply rid_resource_or_new.
  - by apply pid_process_or_new.
Qed.

Lemma keyed_enter_wait s p r : keyed s → keyed (enter_wait p r s).
Proof.
  intros Hk. apply keyed_update; try done; simpl.
  - by apply rid_resource_or_new.
  - by apply pid_process_or_new.
Qed.

Lemma keyed_retract_wait s p r : keyed s → keyed (retract_wait p r s).
Proof.
  intros Hk. apply keyed_update; try done; simpl.
  - by apply rid_resource_or_new.
  - by apply pid_process_or_new.
Qed.


Lemma keyed_releaseResource s p r : keyed s → keyed (releaseResource p r s).
Proof.
  intros Hk. unfold releaseResource.
  destruct (aget r (resources s)) as [res|] eqn:Hres; [|done].
  destruct (aget p (processes s)) as [proc|] eqn:Hproc; [|done].
  case_bool_decide; [|done].
  pose proof Hk as [Hr Hp].
  assert (Hrid : rid res = r) by by apply Hr, aget_elem_of.
  assert (Hpid : pid proc = p) by by apply Hp, aget_elem_of.
  assert (Hk1 : ∀ k q, (k, q) ∈ aset p
      {| pid := pid proc; holding := filter (λ r0, r0 ≠ r) (holding proc);
         waiting := waiting proc |} (processes s) → pid q = k).
  { intros k q [E|Hin]%elem_of_aset; [by injection E as -> ->|by apply Hp]. }
  destruct (waitQueue res) as [|next rest].
  - split; simpl; [|done].
    intros k r' [E|Hin]%elem_of_aset; [by injection E as -> ->|by apply Hr].
  - destruct (aget next _) as [nobj|] eqn:Hnext.
    + split; simpl.
      * intros k r' [E|Hin]%elem_of_aset; [by injection E as -> ->|by apply Hr].
      * intros k q [E|Hin]%elem_of_aset; [|by apply Hk1].
        injection E as -> ->. simpl. by apply Hk1, aget_elem_of.
    + split; simpl; [|done].
      intros k r' [E|Hin]%elem_of_aset; [by injection E as -> ->|by apply Hr].
Qed.



(** ** Reading the state after a wait is entered or taken back *)

Lemma holder_of_Some s r p :
  holder_of s r = Some p →
  ∃ res, aget r (resources s) = Some res ∧ holder res = Some p
         ∧ truthy (holder res) = true.
Proof.
  unfold holder_of. destruct (aget r (resources s)) as [res|]; [|done].
  destruct (truthy (holder res)) eqn:Ht; [|done]. eauto.
Qed.

Lemma holder_of_None s r :
  holder_of s r = None ↔ truthy (holder (resource_or_new r s)) = false.
Proof.
  unfold holder_of, resource_or_new.
  destruct (aget r (resources s)) as [res|]; simpl; [|done].
  destruct (holder res) as [p|]; simpl; [|done].
  destruct (negb _); done.
Qed.





Lemma holder_of_same_holder s r r' res' rs :
  rs = aset r res' (resources s) →
  holder res' = holder (resource_or_new r s) →
  match aget r' rs with
  | Some x => if truthy (holder x) then holder x else None
  | None => None
  end = holder_of s r'.
Proof.
  intros -> Hh. unfold holder_of. destruct (decide (r = r')) as [->|Hne].
  - rewrite aget_aset_eq, Hh. unfold resource_or_new.
    by destruct (aget r' (resources s)).
  - by rewrite aget_aset_ne.
Qed.

Lemma holder_of_enter_wait s p r r' :
  holder_of (enter_wait p r s) r' = holder_of s r'.
Proof. by apply (holder_of_same_holder s r r' _ _ eq_refl). Qed.

Lemma holder_of_retract_wait s p r r' :
  holder_of (retract_wait p r s) r' = holder_of s r'.
Proof. by apply (holder_of_same_holder s r r' _ _ eq_refl). Qed.

Lemma holding_of_enter_wait s p r p' :
  holding_of (enter_wait p r s) p' = holding_of s p'.
Proof.
  unfold holding_of, enter_wait. simpl. destruct (decide (p = p')) as [->|Hne].
  - rewrite aget_aset_eq. simpl. unfold process_or_new.
    by destruct (aget p' (processes s)).
  - by rewrite aget_aset_ne.
Qed.

Lemma holding_of_retract_wait s p r p' :
  holding_of (retract_wait p r s) p' = holding_of s p'.
Proof.
  unfold holding_of, retract_wait. simpl. destruct (decide (p = p')) as [->|Hne].
  - rewrite aget_aset_eq. simpl. unfold process_or_new.
    by destruct (aget p' (processes s)).
  - by rewrite aget_aset_ne.
Qed.

Lemma waiting_of_enter_wait s p r :
  waiting_of (enter_wait p r s) p = waiting_of s p ++ [r].
Proof.
  unfold waiting_of, enter_wait. simpl. rewrite aget_aset_eq. simpl.
  unfold process_or_new. by destruct (aget p (processes s)).
Qed.

Lemma waiting_of_enter_wait_ne s p r p' :
  p ≠ p' → waiting_of (enter_wait p r s) p' = waiting_of s p'.
Proof. intros Hne. unfold waiting_of, enter_wait. simpl. by rewrite aget_aset_ne. Qed.

Lemma waiting_of_retract_wait s p r :
  waiting_of (retract_wait p r s) p = filter (λ r', r' ≠ r) (waiting_of s p).
Proof.
  unfold waiting_of, retract_wait. simpl. rewrite aget_aset_eq. simpl.
  unfold process_or_new. by destruct (aget p (processes s)).
Qed.
















End DetectorFacts.
(** * Properties of the LRU cache *)

Section CacheFacts.
Import LRUCache.
Context {K : Type} `{Countable K} {V : Type}.
Implicit Types (h : gmap ref (CacheNode K V)) (s : t K V) (l : list ref)
  (p q : option ref) (r : ref) (ks : list K).
#[local] Open Scope nat_scope.

(** ** Linked segments *)

Lemma seg_frame h h' p l q :
  (∀ r, r ∈ l → h' !! r = h !! r) → seg h p l q → seg h' p l q.
Proof.
  revert p. induction l as [|r l IH]; intros p Hsame; simpl; [done|].
  intros (n & Hn & Hp & Hq & Hrest). exists n. split_and!; try done.
  - rewrite Hsame; [done|left].
  - apply IH; [|done]. intros r' Hr'. apply Hsame. by right.
Qed.

Lemma seg_app h p l1 l2 q :
  seg h p (l1 ++ l2) q ↔ seg h p l1 (first_or l2 q) ∧ seg h (last_or l1 p) l2 q.
Proof.
  revert p. induction l1 as [|r l1 IH]; intros p; simpl.
  - unfold last_or. simpl. naive_solver.
  - assert (Hfirst : match l1 ++ l2 with [] => q | r' :: _ => Some r' end
                     = match l1 with [] => first_or l2 q | r' :: _ => Some r' end).
    { by destruct l1. }
    assert (Hlast : last_or (r :: l1) p = last_or l1 (Some r)).
    { unfold last_or. rewrite last_cons. by destruct (last l1). }
    rewrite Hfirst, Hlast. split.
    + intros (n & Hn & Hp & Hq & Hrest). apply IH in Hrest as [H1 H2].
      split; [|done]. by exists n.
    + intros [(n & Hn & Hp & Hq & H1) H2]. exists n. split_and!; try done.
      apply IH. by split.
Qed.

Lemma lookup_set_next h r q r' :
  set_next r q h !! r' =
  if decide (r = r')
  then (λ n, {| key := key n; value := value n; prev := prev n; next := q;
                accessCount := accessCount n; lastAccessed := lastAccessed n |})
         <$> h !! r
  else h !! r'.
Proof.
  unfold set_next. case_decide as E.
  - subst. by rewrite lookup_alter_eq.
  - by rewrite lookup_alter_ne.
Qed.

Lemma lookup_set_prev h r p r' :
  set_prev r p h !! r' =
  if decide (r = r')
  then (λ n, {| key := key n; value := value n; prev := p; next := next n;
                accessCount := accessCount n; lastAccessed := lastAccessed n |})
         <$> h !! r
  else h !! r'.
Proof.
  unfold set_prev. case_decide as E.
  - subst. by rewrite lookup_alter_eq.
  - by rewrite lookup_alter_ne.
Qed.

Lemma seg_set_next_last h p l r q q' :
  r ∉ l → seg h p (l ++ [r]) q → seg (set_next r q' h) p (l ++ [r]) q'.
Proof.
  intros Hr. rewrite !seg_app. simpl. intros [Hl (n & Hn & Hp & Hq & _)].
  split.
  - eapply seg_frame; [|done]. intros r' Hr'. rewrite lookup_set_next.
    rewrite decide_False; [done|]. by intros ->.
  - eexists. rewrite lookup_set_next, decide_True, Hn by done. simpl. done.
Qed.

Lemma seg_set_prev_head h p l r q p' :
  r ∉ l → seg h p (r :: l) q → seg (set_prev r p' h) p' (r :: l) q.
Proof.
  intros Hr. simpl. intros (n & Hn & Hp & Hq & Hl).
  eexists. rewrite lookup_set_prev, decide_True, Hn by done. simpl.
  split_and!; try done.
  eapply seg_frame; [|done]. intros r' Hr'. rewrite lookup_set_prev.
  rewrite decide_False; [done|]. by intros ->.
Qed.

Lemma key_of_set_next h r q r' : key_of (set_next r q h) r' = key_of h r'.
Proof.
  unfold key_of. rewrite lookup_set_next. case_decide; [subst|done].
  by destruct (h !! r').
Qed.

Lemma key_of_set_prev h r p r' : key_of (set_prev r p h) r' = key_of h r'.
Proof.
  unfold key_of. rewrite lookup_set_prev. case_decide; [subst|done].
  by destruct (h !! r').
Qed.

Lemma seg_lookup h p l q r : seg h p l q → r ∈ l → is_Some (h !! r).
Proof.
  revert p. induction l as [|r0 l IH]; intros p; simpl;
    [by intros _ ?%elem_of_nil|].
  intros (n & Hn & _ & _ & Hl) [->|Hr]%elem_of_cons; [eauto|by eapply IH].
Qed.


Lemma value_of_set_next h r q r' : value_of (set_next r q h) r' = value_of h r'.
Proof.
  unfold value_of. rewrite lookup_set_next. case_decide; [subst|done].
  by destruct (h !! r').
Qed.

Lemma value_of_set_prev h r p r' : value_of (set_prev r p h) r' = value_of h r'.
Proof.
  unfold value_of. rewrite lookup_set_prev. case_decide; [subst|done].
  by destruct (h !! r').
Qed.

Lemma last_app_cons {A} (l1 l2 : list A) x :
  last (l1 ++ x :: l2) = Some (default x (last l2)).
Proof. rewrite last_app, last_cons. by destruct (last l2). Qed.

(** ** [moveToFront] *)

Lemma moveToFront_linked s l1 r l2 :
  linked s (l1 ++ r :: l2) →
  linked (moveToFront r s) (r :: l1 ++ l2) ∧ same_entries s (moveToFront r s).
Proof.
  intros (Hnd & Hhead & Htail & Hseg & Hcache & Hsize & Hfresh).
  destruct l1 as [|a l1t].
  { simpl in *. unfold moveToFront. rewrite decide_True by done.
    split; [|done]. by split_and!. }
  assert (Hhead' : head s = Some a) by done. clear Hhead.
  assert (Ha1 : a ∉ l1t).
  { apply NoDup_app in Hnd as (Hnd1 & _ & _). by apply NoDup_cons in Hnd1 as [? _]. }
  assert (Hfirst1 : ∀ l', (a :: l1t) ++ l' = a :: (l1t ++ l')) by done.
  assert (Hlast : is_Some (last (a :: l1t))).
  { rewrite last_cons. destruct (last l1t); eauto. }
  assert (Hal : a ∈ a :: l1t) by left.
  remember (a :: l1t) as l1 eqn:El1. clear El1.
  apply NoDup_app in Hnd as (Hnd1 & Hdisj & Hnd2).
  apply NoDup_cons in Hnd2 as [Hr2 Hnd2].
  assert (Hr1 : r ∉ l1) by (intros Hin; apply (Hdisj _ Hin); left).
  assert (Hdisj' : ∀ x, x ∈ l1 → x ∉ l2).
  { intros x Hx Hx2. apply (Hdisj _ Hx). by right. }
  assert (Har : a ≠ r) by (by intros ->).
  destruct Hlast as [pr Hlast].
  pose proof Hlast as Hsnoc. apply last_Some in Hsnoc as [l1' Hsnoc].
  assert (Hpr1 : pr ∈ l1) by (rewrite Hsnoc; set_solver).
  assert (Hpr' : pr ∉ l1').
  { rewrite Hsnoc in Hnd1. apply NoDup_app in Hnd1 as (_ & Hd & _).
    intros Hin. apply (Hd _ Hin). left. }
  assert (Hprr : pr ≠ r) by (by intros ->).
  apply seg_app in Hseg as [Hseg1 Hseg2]. unfold last_or in Hseg2.
  rewrite Hlast in Hseg2. simpl in Hseg1.
  change (seg (nodes s) None l1 (Some r)) in Hseg1.
  destruct Hseg2 as (n & Hn & Hnprev & Hnnext & Hseg2).
  change (match l2 with [] => None | r' :: _ => Some r' end)
    with (first_or l2 None) in Hnnext.
  unfold moveToFront. rewrite decide_False by congruence.
  set (h0 := nodes s) in *.
  assert (Hprev0 : prev_of r h0 = Some pr) by (unfold prev_of; by rewrite Hn).
  assert (Hnext0 : next_of r h0 = first_or l2 None) by (unfold next_of; by rewrite Hn).
  rewrite Hprev0, Hnext0.
  set (h1 := set_next pr (first_or l2 None) h0).
  assert (Hn1 : h1 !! r = Some n).
  { unfold h1. by rewrite lookup_set_next, decide_False. }
  assert (Hseg1_1 : seg h1 None l1 (first_or l2 None)).
  { rewrite Hsnoc in Hseg1 |- *. by eapply seg_set_next_last. }
  assert (Hseg2_1 : seg h1 (Some r) l2 None).
  { eapply seg_frame; [|done]. intros x Hx. unfold h1.
    rewrite lookup_set_next, decide_False; [done|].
    intros E. apply (Hdisj' pr); [done|]. by rewrite E. }
  assert (Hprev1 : prev_of r h1 = Some pr) by (unfold prev_of; by rewrite Hn1).
  assert (Hnext1 : next_of r h1 = first_or l2 None) by (unfold next_of; by rewrite Hn1).
  rewrite Hnext1, Hprev1.
  set (h2 := match first_or l2 None with
             | Some n0 => set_prev n0 (Some pr) h1
             | None => h1
             end).
  assert (H2 : h2 !! r = Some n ∧ seg h2 None (l1 ++ l2) None).
  { unfold h2. destruct l2 as [|b l2t]; simpl.
    - rewrite app_nil_r. done.
    - assert (Hbr : b ≠ r) by (intros ->; apply Hr2; left).
      split; [by rewrite lookup_set_prev, decide_False|].
      apply seg_app. unfold last_or. rewrite Hlast. split.
      + eapply seg_frame; [|exact Hseg1_1]. intros x Hx.
        rewrite lookup_set_prev, decide_False; [done|].
        intros E. apply (Hdisj' _ Hx). rewrite <- E. left.
      + eapply seg_set_prev_head; [|done]. by apply NoDup_cons in Hnd2 as [? _]. }
  destruct H2 as [Hn2 Hseg_2].
  assert (Hprev2 : prev_of r h2 = Some pr) by (unfold prev_of; by rewrite Hn2).
  rewrite Hprev2.
  assert (Htail1 : (if decide (tail s = Some r) then Some pr else tail s)
                   = last (l1 ++ l2) ∧ is_Some (last (l1 ++ l2))).
  { rewrite Htail, last_app_cons, last_app.
    destruct (last l2) as [y|] eqn:Hl2; simpl.
    - rewrite decide_False; [eauto|]. intros [= ->]. apply Hr2.
      apply last_Some in Hl2 as [? ->]. set_solver.
    - rewrite decide_True by done. rewrite Hlast. eauto. }
  destruct Htail1 as [-> [tl Htl]]. rewrite Htl.
  rewrite Hhead'.
  set (h3 := set_next r (Some a) (set_prev r None h2)).
  set (h4 := set_prev a (Some r) h3).
  assert (Hn3 : h3 !! r =
    Some {| key := key n; value := value n; prev := None; next := Some a;
            accessCount := accessCount n; lastAccessed := lastAccessed n |}).
  { unfold h3. rewrite lookup_set_next, decide_True by done.
    rewrite lookup_set_prev, decide_True by done. by rewrite Hn2. }
  assert (Hr12 : r ∉ l1 ++ l2) by set_solver.
  assert (Hseg3 : seg h3 None (l1 ++ l2) None).
  { eapply seg_frame; [|exact Hseg_2]. intros x Hx. unfold h3.
    rewrite lookup_set_next, decide_False by (by intros ->).
    rewrite lookup_set_prev, decide_False by (by intros ->). done. }
  assert (Hseg4 : seg h4 (Some r) (l1 ++ l2) None).
  { unfold h4. rewrite Hfirst1 in Hseg3 |- *. eapply seg_set_prev_head; [|done].
    intros [Hin|Hin]%elem_of_app; [done|]. by apply (Hdisj' a). }
  assert (Hkeys : ∀ x, key_of h4 x = key_of h0 x).
  { intros x. unfold h4, h3, h2, h1.
    rewrite key_of_set_prev, key_of_set_next, key_of_set_prev.
    destruct (first_or l2 None); by rewrite ?key_of_set_prev, key_of_set_next. }
  assert (Hvals : ∀ x, value_of h4 x = value_of h0 x).
  { intros x. unfold h4, h3, h2, h1.
    rewrite value_of_set_prev, value_of_set_next, value_of_set_prev.
    destruct (first_or l2 None); by rewrite ?value_of_set_prev, value_of_set_next. }
  split; [|by split_and!].
  split_and!; simpl.
  - apply NoDup_cons. split; [done|]. apply NoDup_app. by split_and!.
  - done.
  - change (r :: l1 ++ l2) with ([r] ++ (l1 ++ l2)). by rewrite last_app, Htl.
  - eexists. split; [unfold h4; rewrite lookup_set_prev, decide_False by done;
                     exact Hn3|].
    simpl. split_and!; [done|by rewrite Hfirst1|done].
  - intros k x. rewrite Hcache, Hkeys. set_solver.
  - rewrite Hsize, !length_app. simpl. lia.
  - intros x Hx. apply Hfresh. set_solver.
Qed.


(** ** [evictLRU] *)

Lemma linked_cache_lookup s l r :
  linked s l → r ∈ l → ∃ n, nodes s !! r = Some n ∧ cache s !! key n = Some r.
Proof.
  intros (_ & _ & _ & Hseg & Hcache & _) Hr.
  destruct (seg_lookup _ _ _ _ _ Hseg Hr) as [n Hn]. exists n. split; [done|].
  apply Hcache. split; [done|]. unfold key_of. by rewrite Hn.
Qed.

Lemma evictLRU_linked s l tl :
  linked s (l ++ [tl]) →
  ∃ n, nodes s !! tl = Some n
    ∧ linked (evictLRU s) l
    ∧ cache (evictLRU s) = delete (key n) (cache s)
    ∧ capacity (evictLRU s) = capacity s ∧ fresh (evictLRU s) = fresh s
    ∧ (∀ r, key_of (nodes (evictLRU s)) r = key_of (nodes s) r).
Proof.
  intros Hl. pose proof Hl as (Hnd & Hhead & Htail & Hseg & Hcache & Hsize & Hfresh).
  destruct (linked_cache_lookup s _ tl Hl) as (n & Hn & Hkn); [set_solver|].
  exists n. split; [done|].
  rewrite last_snoc in Htail.
  apply NoDup_app in Hnd as (Hndl & Hdisj & _).
  assert (Htl : tl ∉ l) by (intros Hin; apply (Hdisj _ Hin); left).
  apply seg_app in Hseg as [Hseg1 (n' & Hn' & Hprev & _ & _)].
  assert (n' = n) as -> by congruence. simpl in Hseg1.
  assert (Hcache' : ∀ k r, delete (key n) (cache s) !! k = Some r
                           ↔ r ∈ l ∧ key_of (nodes s) r = Some k).
  { intros k r. rewrite lookup_delete_Some, Hcache. split.
    - intros (Hne & [Hin|Hin]%elem_of_app & Hk); [done|].
      apply list_elem_of_singleton in Hin as ->.
      unfold key_of in Hk. rewrite Hn in Hk. naive_solver.
    - intros [Hin Hk]. split_and!; [|set_solver|done].
      intros <-. assert (Some tl = Some r) as [= <-]; [|done].
      rewrite <- Hkn. apply Hcache. split; [set_solver|done]. }
  assert (Hsize' : size (delete (key n) (cache s)) = length l).
  { rewrite map_size_delete_Some by eauto. rewrite Hsize, length_app. simpl. lia. }
  unfold evictLRU. rewrite Htail, Hn.
  destruct (last l) as [pr|] eqn:Hlast.
  - unfold last_or in Hprev. rewrite Hlast in Hprev. rewrite Hprev. simpl.
    split_and!; try done; [|intros r; apply key_of_set_next].
    pose proof Hlast as [l' ->]%last_Some.
    assert (Hpr : pr ∉ l').
    { apply NoDup_app in Hndl as (_ & Hd & _). intros Hin. apply (Hd _ Hin). left. }
    split_and!; simpl; try done.
    + rewrite Hhead. destruct l'; done.
    + by eapply seg_set_next_last.
    + intros k r. rewrite Hcache', key_of_set_next. done.
    + intros r Hr. apply Hfresh. set_solver.
  - unfold last_or in Hprev. rewrite Hlast in Hprev. rewrite Hprev. simpl.
    assert (l = []) as ->.
    { destruct l as [|x l] using rev_ind; [done|]. by rewrite last_snoc in Hlast. }
    split_and!; try done.
    split_and!; simpl; try done. by intros ??%elem_of_nil.
Qed.

(** ** The new node of [put] *)

Lemma new_node_linked s l k v now :
  linked s l → cache s !! k = None →
  let newNode := fresh s in
  let h1 :=
    <[newNode := {| key := k; value := v; prev := None; next := head s;
                    accessCount := 1; lastAccessed := now |}]> (nodes s) in
  let h2 := match head s with
            | Some hd => set_prev hd (Some newNode) h1
            | None => h1
            end in
  let s' :=
    {| capacity := capacity s; cache := <[k := newNode]> (cache s);
       head := Some newNode;
       tail := match tail s with None => Some newNode | Some tl => Some tl end;
       hits := hits s; misses := misses s; nodes := h2;
       fresh := S newNode |} in
  linked s' (newNode :: l)
  ∧ key_of (nodes s') newNode = Some k
  ∧ (∀ r, r ∈ l → key_of (nodes s') r = key_of (nodes s) r).
Proof.
  intros (Hnd & Hhead & Htail & Hseg & Hcache & Hsize & Hfresh) Hnone.
  intros newNode h1 h2 s'.
  assert (Hnew : newNode ∉ l).
  { intros Hin. apply Hfresh in Hin. unfold newNode in Hin. lia. }
  assert (Hold : ∀ r, r ∈ l → h1 !! r = nodes s !! r).
  { intros r Hr. unfold h1. rewrite lookup_insert_ne; [done|]. by intros <-. }
  assert (Hh2new : h2 !! newNode = h1 !! newNode).
  { unfold h2. destruct (head s) as [hd|] eqn:Hhd; [|done].
    rewrite lookup_set_prev, decide_False; [done|]. intros ->.
    apply Hnew. destruct l; [done|]. simpl in Hhead. injection Hhead as <-. left. }
  assert (Hseg2 : seg h2 (Some newNode) l None).
  { unfold h2. destruct l as [|a l'].
    - done.
    - simpl in Hhead. rewrite Hhead.
      eapply seg_set_prev_head; [by apply NoDup_cons in Hnd as [? _]|].
      eapply seg_frame; [|exact Hseg]. done. }
  assert (Hkeys : ∀ r, r ∈ l → key_of h2 r = key_of (nodes s) r).
  { intros r Hr. unfold h2.
    destruct (head s); rewrite ?key_of_set_prev; unfold key_of; by rewrite Hold. }
  assert (Hknew : key_of h2 newNode = Some k).
  { unfold key_of. rewrite Hh2new. unfold h1. by rewrite lookup_insert_eq. }
  split; [|done].
  split_and!; simpl.
  - by apply NoDup_cons.
  - done.
  - rewrite Htail, last_cons. by destruct (last l).
  - eexists. split; [rewrite Hh2new; unfold h1; by rewrite lookup_insert_eq|].
    simpl. split_and!; [done| |done]. rewrite Hhead. by destruct l.
  - intros k' r. rewrite lookup_insert_Some, elem_of_cons. split.
    + intros [[<- <-]|[Hne Hc]]; [by split; [left|]|].
      apply Hcache in Hc as [Hin Hk]. split; [by right|]. by rewrite Hkeys.
    + intros [[->|Hin] Hk].
      * left. split; [|done]. congruence.
      * right. rewrite Hkeys in Hk by done.
        assert (Hc : cache s !! k' = Some r) by (by apply Hcache).
        split; [|done]. intros <-. congruence.
  - rewrite map_size_insert_None by done. by rewrite Hsize.
  - intros r [->|Hin]%elem_of_cons; [lia|]. apply Hfresh in Hin. lia.
Qed.


(** ** The cache as the sequence of its keys *)

Lemma recency_NoDup s l ks :
  linked s l → Forall2 (λ r k, key_of (nodes s) r = Some k) l ks → NoDup ks.
Proof.
  intros (Hnd & _ & _ & _ & Hcache & _) Hks. apply NoDup_alt. intros i j k Hi Hj.
  destruct (Forall2_lookup_r _ _ _ _ _ Hks Hi) as (ri & Hri & Hki).
  destruct (Forall2_lookup_r _ _ _ _ _ Hks Hj) as (rj & Hrj & Hkj).
  assert (Hci : cache s !! k = Some ri).
  { apply Hcache. split; [|done]. by eapply list_elem_of_lookup_2. }
  assert (Hcj : cache s !! k = Some rj).
  { apply Hcache. split; [|done]. by eapply list_elem_of_lookup_2. }
  assert (ri = rj) as -> by congruence.
  by eapply NoDup_lookup.
Qed.

Lemma recency_cache s l ks k :
  linked s l → Forall2 (λ r k, key_of (nodes s) r = Some k) l ks →
  is_Some (cache s !! k) ↔ k ∈ ks.
Proof.
  intros (Hnd & _ & _ & _ & Hcache & _) Hks. split.
  - intros [r Hr]. apply Hcache in Hr as [Hin Hk].
    apply list_elem_of_lookup in Hin as [i Hi].
    destruct (Forall2_lookup_l _ _ _ _ _ Hks Hi) as (k' & Hk' & Hkk).
    assert (k' = k) as -> by congruence. by eapply list_elem_of_lookup_2.
  - intros [i Hi]%list_elem_of_lookup.
    destruct (Forall2_lookup_r _ _ _ _ _ Hks Hi) as (r & Hr & Hk).
    exists r. apply Hcache. split; [|done]. by eapply list_elem_of_lookup_2.
Qed.

Lemma recency_has s ks k : recency s ks → has k s = true ↔ k ∈ ks.
Proof.
  intros (l & Hl & Hks). unfold has. rewrite bool_decide_eq_true.
  by eapply recency_cache.
Qed.

Lemma recency_size s ks : recency s ks → size_of s = Z.of_nat (length ks).
Proof.
  intros (l & Hl & Hks). unfold size_of.
  destruct Hl as (_ & _ & _ & _ & _ & -> & _).
  by rewrite (Forall2_length _ _ _ Hks).
Qed.

Lemma filter_ne_absent (ks : list K) k : k ∉ ks → filter (λ k', k' ≠ k) ks = ks.
Proof.
  induction ks as [|x ks IH]; intros Hk; [done|].
  rewrite filter_cons_True by set_solver. f_equal. apply IH. set_solver.
Qed.

Lemma filter_ne_middle (ks1 ks2 : list K) k :
  NoDup (ks1 ++ k :: ks2) → filter (λ k', k' ≠ k) (ks1 ++ k :: ks2) = ks1 ++ ks2.
Proof.
  intros (Hnd1 & Hdisj & [Hk2 Hnd2]%NoDup_cons)%NoDup_app.
  rewrite filter_app, filter_cons_False by naive_solver.
  f_equal; apply filter_ne_absent; [|done].
  intros Hin. apply (Hdisj _ Hin). left.
Qed.

(** A write to fields other than the links keeps the list. *)
Lemma seg_alter_payload h p l q r (f : CacheNode K V → CacheNode K V) :
  (∀ n, prev (f n) = prev n ∧ next (f n) = next n) →
  seg h p l q → seg (alter f r h) p l q.
Proof.
  intros Hf. revert p. induction l as [|x l IH]; intros p; simpl; [done|].
  intros (n & Hn & Hp & Hq & Hrest).
  destruct (decide (r = x)) as [->|Hne].
  - exists (f n). rewrite lookup_alter_eq, Hn. simpl.
    destruct (Hf n) as [-> ->]. split_and!; try done. by apply IH.
  - exists n. rewrite lookup_alter_ne by done. split_and!; try done. by apply IH.
Qed.

Lemma key_of_alter_payload h r (f : CacheNode K V → CacheNode K V) r' :
  (∀ n, key (f n) = key n) → key_of (alter f r h) r' = key_of h r'.
Proof.
  intros Hf. unfold key_of. destruct (decide (r = r')) as [->|Hne].
  - rewrite lookup_alter_eq. destruct (h !! r'); simpl; [|done]. by rewrite Hf.
  - by rewrite lookup_alter_ne.
Qed.

Lemma linked_alter_payload s s' l r (f : CacheNode K V → CacheNode K V) :
  (∀ n, prev (f n) = prev n ∧ next (f n) = next n ∧ key (f n) = key n) →
  head s' = head s → tail s' = tail s → cache s' = cache s → fresh s' = fresh s →
  nodes s' = alter f r (nodes s) →
  linked s l → linked s' l.
Proof.
  intros Hf Hh Ht Hc Hfr Hn (Hnd & Hhead & Htail & Hseg & Hcache & Hsize & Hfresh).
  split_and!; try congruence.
  - rewrite Hn. apply seg_alter_payload; [|done]. intros n. by destruct (Hf n) as (?&?&?).
  - intros k x. rewrite Hc, Hn, key_of_alter_payload; [done|].
    intros n. by destruct (Hf n) as (?&?&?).
  - intros x Hx. rewrite Hfr. by apply Hfresh.
Qed.

(** A hit, in [get] or in [put]: the node of the key goes to the front. *)
Lemma touch_recency s s0 ks k r (f : CacheNode K V → CacheNode K V) :
  (∀ n, prev (f n) = prev n ∧ next (f n) = next n ∧ key (f n) = key n) →
  head s0 = head s → tail s0 = tail s → cache s0 = cache s → fresh s0 = fresh s →
  nodes s0 = alter f r (nodes s) → capacity s0 = capacity s →
  recency s ks → cache s !! k = Some r →
  recency (moveToFront r s0) (touch k ks)
  ∧ capacity (moveToFront r s0) = capacity s
  ∧ k ∈ ks.
Proof.
  intros Hf Hh Ht Hc Hfr Hn Hcap (l & Hl & Hks) Hk.
  assert (Hkin : k ∈ ks).
  { eapply recency_cache; [done|done|]. rewrite Hk. eauto. }
  assert (Hl0 : linked s0 l) by (by eapply linked_alter_payload).
  assert (Hks0 : Forall2 (λ r k, key_of (nodes s0) r = Some k) l ks).
  { eapply Forall2_impl; [done|]. intros x y Hxy. simpl.
    rewrite Hn, key_of_alter_payload; [done|]. intros n. by destruct (Hf n) as (?&?&?). }
  pose proof Hl as (_ & _ & _ & _ & Hcache & _).
  apply Hcache in Hk as [Hin Hkr].
  apply list_elem_of_split in Hin as (l1 & l2 & ->).
  destruct (moveToFront_linked s0 l1 r l2 Hl0) as [Hl' Hsame].
  destruct Hsame as (Hcap' & _ & _ & _ & _ & Hkeys & _).
  pose proof (recency_NoDup _ _ _ Hl0 Hks0) as Hndks.
  apply Forall2_app_inv_l in Hks0 as (ks1 & ks' & Hks1 & Hks2 & ->).
  apply Forall2_cons_inv_l in Hks2 as (k' & ks2 & Hk' & Hks2 & ->).
  assert (k' = k) as ->.
  { rewrite Hn, key_of_alter_payload in Hk'; [congruence|].
    intros n. by destruct (Hf n) as (?&?&?). }
  split_and!; [|congruence|done].
  exists (r :: l1 ++ l2). split; [done|].
  unfold touch. rewrite filter_ne_middle by done.
  apply Forall2_cons. split; [by rewrite Hkeys|].
  apply Forall2_app; (eapply Forall2_impl; [done|]); intros x y; simpl;
    by rewrite Hkeys.
Qed.

Lemma new_recency (N : Z) : recency (K:=K) (V:=V) (new N) [].
Proof.
  exists []. split; [|by apply Forall2_nil].
  split_and!; simpl; try done.
  - apply NoDup_nil_2.
  - intros k r. rewrite lookup_empty. split; [done|]. by intros [?%elem_of_nil _].
  - by intros ??%elem_of_nil.
Qed.


(** [put] on the sequence of keys. *)
Lemma put_recency s ks k v now :
  recency s ks →
  recency (put k v now s) (recency_put (capacity s) k ks)
  ∧ capacity (put k v now s) = capacity s.
Proof.
  intros Hrec. unfold put, recency_put.
  destruct (cache s !! k) as [r|] eqn:Hc.
  - destruct (touch_recency s (with_links (head s) (tail s)
        (alter (λ n, {| key := key n; value := v; prev := prev n; next := next n;
                        accessCount := accessCount n; lastAccessed := now |})
               r (nodes s)) s) ks k r
        (λ n, {| key := key n; value := v; prev := prev n; next := next n;
                 accessCount := accessCount n; lastAccessed := now |}))
      as (Hrec' & Hcap & Hin); try done.
    by rewrite decide_True.
  - destruct Hrec as (l & Hl & Hks).
    assert (Hnin : k ∉ ks).
    { intros Hin. eapply recency_cache in Hin; [|done|done].
      rewrite Hc in Hin. by destruct Hin. }
    rewrite decide_False by done.
    pose proof Hl as (_ & _ & Htail & _ & _ & Hsize & _).
    rewrite Hsize, (Forall2_length _ _ _ Hks).
    destruct (capacity s <=? Z.of_nat (length ks))%Z eqn:Hfull.
    + destruct l as [|tl l _] using rev_ind.
      * apply Forall2_nil_inv_l in Hks as ->. simpl in Htail.
        unfold evictLRU. rewrite Htail.
        destruct (new_node_linked s [] k v now Hl Hc) as (Hl' & Hk' & _).
        split; [|done]. eexists. split; [exact Hl'|].
        apply Forall2_cons. split; [done|apply Forall2_nil_2].
      * apply Forall2_app_inv_l in Hks as (ks' & kt & Hks' & Hkt & ->).
        apply Forall2_cons_inv_l in Hkt as (kt' & ? & _ & ->%Forall2_nil_inv_l & ->).
        rewrite removelast_last.
        destruct (evictLRU_linked s l tl Hl) as (n & Hn & Hl1 & Hc1 & Hcap1 & Hfr1 & Hkeys1).
        assert (Hnone1 : cache (evictLRU s) !! k = None).
        { rewrite Hc1. apply lookup_delete_None. by right. }
        destruct (new_node_linked (evictLRU s) l k v now Hl1 Hnone1)
          as (Hl' & Hk' & Hkeys').
        split; [|done]. eexists. split; [exact Hl'|].
        apply Forall2_cons. split; [done|].
        eapply Forall2_same_length_lookup_2; [by eapply Forall2_length|].
        intros i r k0 Hr Hk0.
        rewrite Hkeys' by (by eapply list_elem_of_lookup_2). rewrite Hkeys1.
        destruct (Forall2_lookup_l _ _ _ _ _ Hks' Hr) as (k1 & Hk1 & Hrk).
        congruence.
    + destruct (new_node_linked s l k v now Hl Hc) as (Hl' & Hk' & Hkeys').
      split; [|done]. eexists. split; [exact Hl'|].
      apply Forall2_cons. split; [done|].
      eapply Forall2_same_length_lookup_2; [by eapply Forall2_length|].
      intros i r k0 Hr Hk0.
      rewrite Hkeys' by (by eapply list_elem_of_lookup_2).
      destruct (Forall2_lookup_l _ _ _ _ _ Hks Hr) as (k1 & Hk1 & Hrk).
      congruence.
Qed.

(** [get] on the sequence of keys: a hit returns a value and moves the
    key to the front, a miss returns [null] and changes nothing. *)
Lemma get_recency s ks k now :
  recency s ks →
  recency (get k now s).1 (recency_get k ks)
  ∧ capacity (get k now s).1 = capacity s
  ∧ (k ∈ ks → is_Some (get k now s).2)
  ∧ (k ∉ ks → (get k now s).2 = None).
Proof.
  intros Hrec. unfold get, recency_get.
  destruct (cache s !! k) as [r|] eqn:Hc.
  - set (f := λ n : CacheNode K V,
               {| key := key n; value := value n; prev := prev n; next := next n;
                  accessCount := (accessCount n + 1)%Z; lastAccessed := now |}).
    set (s0 := {| capacity := capacity s; cache := cache s; head := head s;
                  tail := tail s; hits := (hits s + 1)%Z; misses := misses s;
                  nodes := alter f r (nodes s); fresh := fresh s |}).
    destruct (touch_recency s s0 ks k r f) as (Hrec' & Hcap & Hin); try done.
    rewrite decide_True by done. simpl.
    split_and!; [done|done| |done].
    intros _. destruct Hrec as (l & Hl & Hks).
    pose proof Hl as (_ & _ & _ & Hseg & Hcache & _).
    apply Hcache in Hc as [Hrl _].
    destruct (seg_lookup _ _ _ _ _ Hseg Hrl) as [n Hn].
    apply list_elem_of_split in Hrl as (l1 & l2 & ->).
    assert (Hl0 : linked s0 (l1 ++ r :: l2)).
    { eapply (linked_alter_payload s s0 _ r f); try done. }
    destruct (moveToFront_linked s0 l1 r l2 Hl0) as [_ Hsame].
    destruct Hsame as (_ & _ & _ & _ & _ & _ & Hvals).
    specialize (Hvals r). unfold value_of in Hvals. rewrite Hvals. simpl.
    rewrite lookup_alter_eq, Hn. simpl. eauto.
  - assert (Hnin : k ∉ ks).
    { destruct Hrec as (l & Hl & Hks). intros Hin.
      eapply recency_cache in Hin; [|done|done]. rewrite Hc in Hin. by destruct Hin. }
    rewrite decide_False by done. simpl. split_and!; done.
Qed.

(** [put_all] on the sequence of keys. *)
Lemma put_all_recency (kvs : list (K * V)) now : ∀ s ks,
  recency s ks →
  recency (put_all kvs now s) (recency_put_all (capacity s) kvs.*1 ks)
  ∧ capacity (put_all kvs now s) = capacity s.
Proof.
  induction kvs as [|[k v] kvs IH]; intros s ks Hrec; simpl; [done|].
  destruct (put_recency s ks k v now Hrec) as [Hrec1 Hcap1].
  destruct (IH _ _ Hrec1) as [Hrec2 Hcap2].
  rewrite Hcap1 in Hrec2. split; [done|congruence].
Qed.


(** ** Sequences of fresh keys *)

Lemma take_app_take {A} (n : nat) (a b : list A) :
  take n (a ++ take n b) = take n (a ++ b).
Proof. rewrite !take_app, take_take. do 2 f_equal. lia. Qed.

Lemma recency_put_fresh (N : Z) k ks :
  (0 < N)%Z → k ∉ ks → length ks ≤ Z.to_nat N →
  recency_put N k ks = take (Z.to_nat N) (k :: ks).
Proof.
  intros HN Hk Hlen. unfold recency_put. rewrite decide_False by done.
  destruct (Z.to_nat N) as [|n] eqn:HNn; [lia|]. simpl.
  destruct (Z.leb_spec N (Z.of_nat (length ks))) as [Hfull|Hroom].
  - f_equal. rewrite removelast_firstn_len. f_equal. lia.
  - f_equal. rewrite take_ge; [done|lia].
Qed.

Lemma recency_put_all_fresh (N : Z) (ins : list K) : ∀ ks,
  (0 < N)%Z → NoDup ins → (∀ k, k ∈ ins → k ∉ ks) → length ks ≤ Z.to_nat N →
  recency_put_all N ins ks = take (Z.to_nat N) (reverse ins ++ ks).
Proof.
  induction ins as [|k ins IH]; intros ks HN Hnd Hfresh Hlen; simpl.
  - rewrite take_ge; done.
  - apply NoDup_cons in Hnd as [Hk Hnd].
    unfold recency_put_all in *. simpl.
    rewrite recency_put_fresh; [|done|apply Hfresh; left|done].
    rewrite IH; [|done|done| |].
    + rewrite take_app_take, reverse_cons, <- app_assoc. done.
    + intros k' Hk' [i [Hi _]]%elem_of_take.
      apply list_elem_of_lookup_2 in Hi. apply elem_of_cons in Hi as [->|Hi]; [done|].
      apply (Hfresh k'); [by right|done].
    + rewrite length_take. lia.
Qed.

(** C1 (a). A new cache of capacity [N > 0] is given [N + 1] distinct
    keys by [put], with no [get] in between: the key put first is gone and
    the [N] others are there, and nothing else. *)
Lemma first_key_evicted (N : Z) (first : K * V) (rest : list (K * V)) now :
  (0 < N)%Z → Z.of_nat (length rest) = N → NoDup (first :: rest).*1 →
  let s := put_all (first :: rest) now (new N) in
  has first.1 s = false
  ∧ (∀ k, has k s = true ↔ k ∈ rest.*1)
  ∧ size_of s = N.
Proof.
  intros HN Hlen Hnd s.
  destruct (put_all_recency (first :: rest) now (new N) [] (new_recency N))
    as [Hrec _].
  fold s in Hrec. change (capacity (new N)) with N in Hrec.
  rewrite recency_put_all_fresh in Hrec; [|done|done|by intros ?? ?%elem_of_nil|simpl; lia].
  rewrite app_nil_r in Hrec.
  rewrite fmap_cons, reverse_cons, take_app_length' in Hrec.
  2:{ rewrite length_reverse, length_fmap. lia. }
  rewrite fmap_cons in Hnd. apply NoDup_cons in Hnd as [Hfirst Hnd].
  assert (Hhas : ∀ k, has k s = true ↔ k ∈ rest.*1).
  { intros k. rewrite (recency_has _ _ k Hrec). by rewrite elem_of_reverse. }
  split_and!; [|done|].
  - destruct (has first.1 s) eqn:E; [|done]. by apply Hhas in E.
  - rewrite (recency_size _ _ Hrec), length_reverse, length_fmap. done.
Qed.

(** C1 (b), as the code has it. The cache holds [N] distinct keys; [K0],
    one of them, is read by [get]; [N - 1] further new keys are put: [K0]
    is still there. It is then the least recently used entry, and the
    [put] of one more new key evicts it. *)
Lemma refreshed_key_survives (N : Z) (kvs : list (K * V)) (K0 : K)
    (more : list (K * V)) (extra : K * V) now :
  (0 < N)%Z → Z.of_nat (length kvs) = N → NoDup kvs.*1 → K0 ∈ kvs.*1 →
  Z.of_nat (length more) = (N - 1)%Z → NoDup (more ++ [extra]).*1 →
  (∀ k, k ∈ (more ++ [extra]).*1 → k ∉ kvs.*1) →
  let s1 := put_all kvs now (new N) in
  let s2 := put_all more now (get K0 now s1).1 in
  is_Some (get K0 now s1).2
  ∧ has K0 s2 = true
  ∧ has K0 (put extra.1 extra.2 now s2) = false.
Proof.
  intros HN Hlen Hnd HK0 Hlen' Hnd' Hnew s1 s2.
  destruct (put_all_recency kvs now (new N) [] (new_recency N)) as [Hrec1 Hcap1].
  fold s1 in Hrec1, Hcap1. change (capacity (new N)) with N in Hrec1, Hcap1.
  rewrite recency_put_all_fresh in Hrec1;
    [|done|done|by intros ?? ?%elem_of_nil|simpl; lia].
  rewrite app_nil_r, take_ge in Hrec1 by (rewrite length_reverse, length_fmap; lia).
  destruct (get_recency s1 _ K0 now Hrec1) as (Hrec1' & Hcap1' & Hhit & _).
  assert (HK0r : K0 ∈ reverse kvs.*1) by (by rewrite elem_of_reverse).
  unfold recency_get in Hrec1'. rewrite decide_True in Hrec1' by done.
  pose proof HK0r as (a & b & Hab)%list_elem_of_split.
  assert (Hndr : NoDup (reverse kvs.*1)) by (by rewrite reverse_Permutation).
  unfold touch in Hrec1'. rewrite Hab in Hrec1', Hndr.
  rewrite filter_ne_middle in Hrec1' by done.
  assert (Hlenab : length (a ++ b) = Z.to_nat N - 1).
  { apply (f_equal length) in Hab.
    rewrite length_reverse, length_fmap, !length_app in Hab. simpl in Hab.
    rewrite length_app. lia. }
  assert (Hsub : ∀ k, k ∈ K0 :: a ++ b → k ∈ kvs.*1).
  { intros k Hk. rewrite <- elem_of_reverse, Hab. set_solver. }
  rewrite fmap_app in Hnd', Hnew. simpl in Hnd', Hnew.
  apply NoDup_app in Hnd' as (Hndm & Hdisj & _).
  destruct (put_all_recency more now _ _ Hrec1') as [Hrec2 Hcap2].
  fold s2 in Hrec2, Hcap2. rewrite Hcap1', Hcap1 in Hrec2, Hcap2.
  rewrite recency_put_all_fresh in Hrec2; [|done|done| |simpl; lia].
  2:{ intros k Hk Hin. apply (Hnew k); [set_solver|by apply Hsub]. }
  assert (Hlenm : length (reverse more.*1 ++ [K0]) = Z.to_nat N).
  { rewrite length_app, length_reverse, length_fmap. simpl. lia. }
  change (K0 :: a ++ b) with ([K0] ++ (a ++ b)) in Hrec2.
  rewrite app_assoc, take_app_length' in Hrec2 by done.
  split_and!.
  - by apply Hhit.
  - apply (recency_has _ _ K0 Hrec2). set_solver.
  - destruct (put_recency s2 _ extra.1 extra.2 now Hrec2) as [Hrec3 _].
    rewrite Hcap2 in Hrec3. unfold recency_put in Hrec3.
    assert (Hex : extra.1 ∉ reverse more.*1 ++ [K0]).
    { intros [Hin|Heq%list_elem_of_singleton]%elem_of_app.
      - rewrite elem_of_reverse in Hin. apply (Hdisj _ Hin). left.
      - apply (Hnew K0); [rewrite <- Heq; set_solver|done]. }
    rewrite decide_False in Hrec3 by done.
    destruct (Z.leb_spec N (Z.of_nat (length (reverse more.*1 ++ [K0]))));
      [|lia].
    rewrite removelast_last in Hrec3.
    destruct (has K0 _) eqn:E; [|done].
    apply (recency_has _ _ K0 Hrec3) in E.
    apply elem_of_cons in E as [Heq|E].
    + exfalso. apply Hex. rewrite <- Heq. set_solver.
    + rewrite elem_of_reverse in E. exfalso. apply (Hnew K0); [set_solver|done].
Qed.


(** C1, as the code has it. For a new cache of capacity [N > 0]:
    (a) after [put] of [N + 1] distinct keys with no [get] in between, the
    key put first has been evicted and the [N] others, and only they, are
    present;
    (b) after [put] of [N] distinct keys, [get] of one of them, [K0], and
    [put] of [N - 1] further new keys, [K0] is still present; it is then
    the least recently used entry, and one more new key evicts it. *)
Theorem lru_eviction_follows_recency (N : Z) now
    (first : K * V) (rest : list (K * V))
    (kvs : list (K * V)) (K0 : K) (more : list (K * V)) (extra : K * V) :
  (0 < N)%Z →
  (Z.of_nat (length rest) = N → NoDup (first :: rest).*1 →
   let s := put_all (first :: rest) now (new N) in
   has first.1 s = false
   ∧ (∀ k, has k s = true ↔ k ∈ rest.*1)
   ∧ size_of s = N)
  ∧
  (Z.of_nat (length kvs) = N → NoDup kvs.*1 → K0 ∈ kvs.*1 →
   Z.of_nat (length more) = (N - 1)%Z → NoDup (more ++ [extra]).*1 →
   (∀ k, k ∈ (more ++ [extra]).*1 → k ∉ kvs.*1) →
   let s1 := put_all kvs now (new N) in
   let s2 := put_all more now (get K0 now s1).1 in
   is_Some (get K0 now s1).2
   ∧ has K0 s2 = true
   ∧ has K0 (put extra.1 extra.2 now s2) = false).
Proof.
  intros HN. split.
  - intros Hlen Hnd. by apply first_key_evicted.
  - intros Hlen Hnd HK0 Hlen' Hnd' Hnew. by apply refreshed_key_survives.
Qed.

End CacheFacts.

Lemma lru_eviction_follows_recency_witness :
  (let s := LRUCache.put_all [("a", 1); ("b", 2); ("c", 3)] 0 (LRUCache.new 2) in
   LRUCache.has "a" s = false
   ∧ (∀ k, LRUCache.has k s = true ↔ k ∈ ["b"; "c"])
   ∧ LRUCache.size_of s = 2)
  ∧
  (let s1 := LRUCache.put_all [("a", 1); ("b", 2)] 0 (LRUCache.new 2) in
   let s2 := LRUCache.put_all [("c", 3)] 0 (LRUCache.get "a" 0 s1).1 in
   is_Some (LRUCache.get "a" 0 s1).2
   ∧ LRUCache.has "a" s2 = true
   ∧ LRUCache.has "a" (LRUCache.put "d" 4 0 s2) = false).
Proof.
  destruct (lru_eviction_follows_recency (K:=string) (V:=Z) 2 0
              ("a", 1) [("b", 2); ("c", 3)]
              [("a", 1); ("b", 2)] "a" [("c", 3)] ("d", 4) ltac:(lia))
    as [Ha Hb].
  split.
  - refine (Ha eq_refl _). apply (bool_decide_unpack _). by vm_compute.
  - refine (Hb eq_refl _ _ eq_refl _ _).
    + apply (bool_decide_unpack _). by vm_compute.
    + clear. set_solver.
    + apply (bool_decide_unpack _). by vm_compute.
    + clear. intros k Hk Hk'. simpl in Hk, Hk'. set_solver.
Defined.

(** C1 (b), as it is worded, fails. Capacity 2: [put a], [put b],
    [get a], then two further new keys [c] and [d]: [c] evicts [b], [d]
    evicts [a]. *)
Lemma refreshed_key_evicted_by_Nth_put :
  let s1 := LRUCache.put_all [("a", 1); ("b", 2)] 0 (LRUCache.new 2) in
  let s2 := LRUCache.put_all [("c", 3); ("d", 4)] 0 (LRUCache.get "a" 0 s1).1 in
  (LRUCache.get "a" 0 s1).2 = Some 1
  ∧ LRUCache.has "a" s2 = false
  ∧ LRUCache.has "c" s2 = true ∧ LRUCache.has "d" s2 = true
  ∧ LRUCache.size_of s2 = 2.
Proof. vm_compute. repeat split; reflexivity. Qed.
(** * Properties of the [send-message] handler *)

Section HandlerFacts.
Import Coordinator.

(** C10. When [requestResource(senderId, threadId)] returns [false], the
    handler of [send-message] sends one [error] to the socket of the
    sender and returns: the queue, the cache, the threads with their
    message logs, the scheduler with the load of every worker, the
    semaphore, the users and the groups are what they were; only the
    detector has gone through the call. *)
Theorem send_message_refused_changes_nothing
    (socket threadId : string) (message : Message)
    (now_enqueue now_assign now_put : Z) (w : t) :
  snd (DeadlockDetector.requestResource (senderId message) threadId
         (deadlockDetector w)) = false →
  let r := send_message socket threadId message now_enqueue now_assign now_put w in
  snd r = Ok tt
  ∧ emitted (fst r)
    = emitted w ++ [EmitError socket "Resource temporarily unavailable"]
  ∧ messageQueue (fst r) = messageQueue w
  ∧ threadCache (fst r) = threadCache w
  ∧ threads (fst r) = threads w
  ∧ messageScheduler (fst r) = messageScheduler w
  ∧ connectionSemaphore (fst r) = connectionSemaphore w
  ∧ users (fst r) = users w ∧ groups (fst r) = groups w
  ∧ deadlockDetector (fst r)
    = fst (DeadlockDetector.requestResource (senderId message) threadId
             (deadlockDetector w)).
Proof.
  intros Hrefused r. unfold r, send_message.
  destruct (DeadlockDetector.requestResource _ _ _) as [detector1 acquired].
  simpl in Hrefused. subst acquired. simpl. by split_and!.
Qed.

(** A message that is admitted goes through every later step: here the
    first message of a thread, with both participants connected. *)
Example send_message_admitted :
  let users :=
    <["alice" := mkUser "alice" "Alice" true (Some "socket-1")]>
      (<["bob" := mkUser "bob" "Bob" true (Some "socket-2")]> (∅ : gmap string User)) in
  let w :=
    {| threads := ∅; users := users; groups := ∅;
       messageQueue := PriorityMessageQueue.new;
       threadCache := LRUCache.new 100;
       connectionSemaphore := Semaphore.new 100;
       messageScheduler := RoundRobinScheduler.messageScheduler;
       deadlockDetector := DeadlockDetector.new;
       emitted := [] |} in
  let m := mkMessage "m1" "alice" "an urgent thing" "2025-01-01" in
  let r := send_message "socket-1" "alice-bob" m 1 2 3 w in
  snd r = Ok tt
  ∧ emitted (fst r) =
      [EmitReceiveMessage "socket-1" m "alice-bob";
       EmitReceiveMessage "socket-2" m "alice-bob"]
  ∧ messages <$> threads (fst r) !! "alice-bob" = Some [m]
  ∧ LRUCache.has "alice-bob" (threadCache (fst r)) = true
  ∧ PriorityMessageQueue.priority
      <$> PriorityMessageQueue.awaiting (messageQueue (fst r))
    = Some PriorityMessageQueue.URGENT
  ∧ RoundRobinScheduler.currentIndex (messageScheduler (fst r)) = 1%nat
  ∧ DeadlockDetector.holder_of (deadlockDetector (fst r)) "alice-bob" = None.
Proof. vm_compute. by split_and!. Qed.

Lemma send_message_refused_changes_nothing_witness :
  let held :=
    fst (DeadlockDetector.requestResource "bob" "alice-bob" DeadlockDetector.new) in
  let w :=
    {| threads := ∅; users := ∅; groups := ∅;
       messageQueue := PriorityMessageQueue.new;
       threadCache := LRUCache.new 100;
       connectionSemaphore := Semaphore.new 100;
       messageScheduler := RoundRobinScheduler.messageScheduler;
       deadlockDetector := held;
       emitted := [] |} in
  let r := send_message "socket-1" "alice-bob"
             (mkMessage "m1" "alice" "hello" "2025-01-01") 1 2 3 w in
  snd r = Ok tt
  ∧ emitted (fst r) = [EmitError "socket-1" "Resource temporarily unavailable"]
  ∧ messageQueue (fst r) = PriorityMessageQueue.new
  ∧ messageScheduler (fst r) = RoundRobinScheduler.messageScheduler.
Proof.
  intros held w r.
  destruct (send_message_refused_changes_nothing "socket-1" "alice-bob"
              (mkMessage "m1" "alice" "hello" "2025-01-01") 1 2 3 w eq_refl)
    as (H1 & H2 & H3 & _ & _ & H6 & _).
  split_and!; [exact H1|exact H2|exact H3|exact H6].
Defined.

End HandlerFacts.
(** * Properties of the statistics *)

Section NumberFacts.
Import JSNumber.

Lemma is_digit_digit (d : Z) : 0 <= d < 10 → is_digit (digit d) = true.
Proof.
  intros Hd. unfold digit.
  assert (Hn : (Z.to_nat d < 10)%nat) by lia.
  destruct (Z.to_nat d) as [|n]; [done|].
  do 9 (destruct n as [|n]; [done|]). lia.
Qed.

Lemma all_digits_string_of_uint (u : Decimal.uint) :
  all_digits (NilEmpty.string_of_uint u) = true.
Proof. induction u; simpl; done. Qed.

Lemma digits_spec (n : Z) :
  ∃ c s, digits n = String c s ∧ is_digit c = true ∧ all_digits s = true.
Proof.
  unfold digits. destruct (N.to_uint (Z.to_N n)) as [|u|u|u|u|u|u|u|u|u|u];
    simpl; eexists _, _; (split; [reflexivity|]); split; try done;
    apply all_digits_string_of_uint.
Qed.

Lemma digits_point_two_app (ds ab : string) : ∀ seen,
  all_digits ds = true → two_digits ab = true →
  (seen = true ∨ ds ≠ EmptyString) →
  digits_point_two seen (ds ++ String "." ab) = true.
Proof.
  induction ds as [|c ds IH]; intros seen Hds Hab Hseen; simpl in *.
  - destruct Hseen as [->|Hne]; [|done]. by rewrite Hab.
  - apply andb_true_iff in Hds as [Hc Hds]. rewrite Hc. apply IH; auto.
Qed.

Lemma two_decimals_digit_first (c : ascii) (s : string) :
  is_digit c = true →
  two_decimals (String c s) = digits_point_two false (String c s).
Proof.
  intros Hc. unfold two_decimals.
  destruct c as [[] [] [] [] [] [] [] []]; try discriminate Hc; reflexivity.
Qed.

Lemma two_places_format (n : Z) : 0 <= n → digits_point_two false (two_places n) = true
  ∧ two_decimals (two_places n) = true.
Proof.
  intros Hn. unfold two_places.
  destruct (digits_spec (n / 100)) as (c & s & Hd & Hc & Hs).
  assert (Hgoal : digits_point_two false
            (digits (n / 100)
             ++ String "." (String (digit (n / 10 mod 10))
                              (String (digit (n mod 10)) ""))) = true).
  { apply digits_point_two_app.
    - rewrite Hd. simpl. by rewrite Hc, Hs.
    - cbn [two_digits].
      rewrite (is_digit_digit (n / 10 mod 10)) by (apply Z.mod_pos_bound; lia).
      rewrite (is_digit_digit (n mod 10)) by (apply Z.mod_pos_bound; lia).
      done.
    - right. by rewrite Hd. }
  split; [done|].
  rewrite Hd in Hgoal |- *.
  set (tl := String "." _) in *.
  change (String c s +:+ tl) with (String c (s +:+ tl)) in *.
  by rewrite two_decimals_digit_first.
Qed.

Lemma hundredths_nonneg (m : positive) (e : Z) : 0 <= hundredths m e.
Proof.
  unfold hundredths. destruct (0 <=? e) eqn:He.
  - apply Z.leb_le in He. assert (0 < 2 ^ e) by (by apply Z.pow_pos_nonneg). nia.
  - apply Z.leb_gt in He. apply Z.div_pos.
    + assert (0 < 2 ^ (- e)) by (apply Z.pow_pos_nonneg; lia). lia.
    + apply Z.pow_pos_nonneg; lia.
Qed.

(** A number in the fixed range is printed with exactly two decimals. *)
Lemma toFixed2_format (exponential : positive → Z → string) (x : number) :
  fixed_range x = true → two_decimals (toFixed2 exponential x) = true.
Proof.
  destruct x as [s|s| |s m e]; simpl; try done.
  intros Hr. apply negb_true_iff in Hr. rewrite Hr.
  destruct (two_places_format (hundredths m e) (hundredths_nonneg m e)) as [H1 H2].
  by destruct s.
Qed.

Lemma toFixed2_percentage (exponential : positive → Z → string) (x : number) :
  fixed_range x = true → percentage (toFixed2 exponential x ++ "%").
Proof. intros Hx. eexists. split; [done|]. by apply toFixed2_format. Qed.

Lemma zero_percent_not_percentage : ¬ percentage "0%".
Proof.
  intros (t & Heq & Ht). destruct t as [|c t]; [done|].
  simpl in Heq. injection Heq as <- Heq.
  destruct t as [|c' t]; [done|].
  simpl in Heq. injection Heq as _ Heq. by destruct t.
Qed.

End NumberFacts.

Section SnapshotFacts.
Import JSNumber Coordinator.
Variable exponential : positive → Z → string.

(** C8, as the code has it. In the snapshot of [get-os-stats], for every
    state: a ratio field is what [toFixed(2)] prints for its quotient,
    followed by ["%"] for a percentage, and that is a numeral with exactly
    two decimals whenever the quotient is in the fixed range of [toFixed]
    (finite and below 10^21). The guards of the code make three
    exceptions: with no cache access [hitRate] is ["0%"], with no total
    capacity the [utilizationRate] of the scheduler is ["0%"], and with no
    worker [avgLoad] is the number 0. *)
Theorem snapshot_ratio_fields (w : Coordinator.t) :
  let st := os_stats exponential w in
  let cache := stats_threadCache st in
  let sem := stats_connectionSemaphore st in
  let sched := stats_messageScheduler st in
  let accesses := CacheStats.hits cache + CacheStats.misses cache in
  (accesses <= 0 → CacheStats.hitRate cache = "0%")
  ∧ (0 < accesses →
     fixed_range (percent (CacheStats.hits cache) accesses) = true →
     percentage (CacheStats.hitRate cache))
  ∧ (fixed_range (percent (CacheStats.size cache) (CacheStats.capacity cache)) = true →
     percentage (CacheStats.utilizationRate cache))
  ∧ (fixed_range (percent (SemaphoreStats.inUse sem) (SemaphoreStats.capacity sem)) = true →
     percentage (SemaphoreStats.utilizationRate sem))
  ∧ (SchedulerStats.totalWorkers sched <= 0 →
     SchedulerStats.avgLoad sched = JNumber 0)
  ∧ (0 < SchedulerStats.totalWorkers sched →
     fixed_range (ratio (SchedulerStats.totalLoad sched)
                        (SchedulerStats.totalWorkers sched)) = true →
     ∃ t, SchedulerStats.avgLoad sched = JString t ∧ two_decimals t = true)
  ∧ (SchedulerStats.totalCapacity sched <= 0 →
     SchedulerStats.utilizationRate sched = "0%")
  ∧ (0 < SchedulerStats.totalCapacity sched →
     fixed_range (percent (SchedulerStats.totalLoad sched)
                          (SchedulerStats.totalCapacity sched)) = true →
     percentage (SchedulerStats.utilizationRate sched))
  ∧ (∀ ws, ws ∈ SchedulerStats.workers sched →
     fixed_range (percent (WorkerStats.load ws) (WorkerStats.maxLoad ws)) = true →
     percentage (WorkerStats.utilizationRate ws)).
Proof.
  intros st cache sem sched accesses.
  unfold accesses, cache, sem, sched, st, os_stats. cbn [stats_threadCache
    stats_connectionSemaphore stats_messageScheduler].
  unfold Stats.cache_getStats, Stats.semaphore_getStats, Stats.scheduler_getStats.
  cbn [CacheStats.hits CacheStats.misses CacheStats.hitRate CacheStats.size
       CacheStats.capacity CacheStats.utilizationRate
       SemaphoreStats.inUse SemaphoreStats.capacity SemaphoreStats.utilizationRate
       SchedulerStats.totalWorkers SchedulerStats.avgLoad SchedulerStats.totalLoad
       SchedulerStats.totalCapacity SchedulerStats.utilizationRate
       SchedulerStats.workers].
  split_and!.
  - intros Hle. destruct (Z.ltb_spec 0 (LRUCache.hits (threadCache w)
                                        + LRUCache.misses (threadCache w))); [lia|done].
  - intros Hlt Hr. destruct (Z.ltb_spec 0 (LRUCache.hits (threadCache w)
                                           + LRUCache.misses (threadCache w))); [|lia].
    by apply toFixed2_percentage.
  - intros Hr. by apply toFixed2_percentage.
  - intros Hr. by apply toFixed2_percentage.
  - intros Hle. destruct (Z.ltb_spec 0 (Z.of_nat (length
        (RoundRobinScheduler.workers (messageScheduler w))))); [lia|done].
  - intros Hlt Hr. destruct (Z.ltb_spec 0 (Z.of_nat (length
        (RoundRobinScheduler.workers (messageScheduler w))))); [|lia].
    eexists. split; [done|]. by apply toFixed2_format.
  - intros Hle. by apply Z.ltb_ge in Hle as ->.
  - intros Hlt Hr. apply Z.ltb_lt in Hlt as Hlt'. rewrite Hlt'.
    by apply toFixed2_percentage.
  - intros ws (wk & -> & Hwk)%list_elem_of_fmap Hr.
    by apply toFixed2_percentage.
Qed.

End SnapshotFacts.

Lemma snapshot_ratio_fields_witness :
  let cache1 := LRUCache.put "t1" "t1" 0 (LRUCache.new 100) in
  let cache2 := fst (LRUCache.get "t2" 0 (fst (LRUCache.get "t1" 0 cache1))) in
  let w :=
    {| Coordinator.threads := ∅; Coordinator.users := ∅; Coordinator.groups := ∅;
       Coordinator.messageQueue := PriorityMessageQueue.new;
       Coordinator.threadCache := cache2;
       Coordinator.connectionSemaphore :=
         fst (Semaphore.acquire 1%nat (Semaphore.new 100));
       Coordinator.messageScheduler :=
         fst (RoundRobinScheduler.assignTask 0 RoundRobinScheduler.messageScheduler);
       Coordinator.deadlockDetector := DeadlockDetector.new;
       Coordinator.emitted := [] |} in
  let st := Coordinator.os_stats (λ _ _, "") w in
  CacheStats.hitRate (Coordinator.stats_threadCache st) = "50.00%"
  ∧ JSNumber.percentage (CacheStats.hitRate (Coordinator.stats_threadCache st))
  ∧ JSNumber.percentage
      (SemaphoreStats.utilizationRate (Coordinator.stats_connectionSemaphore st))
  ∧ JSNumber.percentage
      (SchedulerStats.utilizationRate (Coordinator.stats_messageScheduler st)).
Proof.
  intros cache1 cache2 w st.
  destruct (snapshot_ratio_fields (λ _ _, "") w)
    as (_ & Hhit & _ & Hsem & _ & _ & _ & Hsched & _).
  split_and!.
  - reflexivity.
  - apply Hhit; [reflexivity|reflexivity].
  - apply Hsem. reflexivity.
  - apply Hsched; [reflexivity|reflexivity].
Defined.

(** C8, as it is worded, fails in the state the server starts in: no
    cache access has been made and [hitRate] is ["0%"], which has no
    decimal place. So do the two other guarded fields of a scheduler
    without workers: [avgLoad] is the number 0, not a string, and
    [utilizationRate] is ["0%"]. *)
Lemma hit_rate_without_access_is_zero_percent :
  let st := Coordinator.os_stats (λ _ _, "") Coordinator.initial in
  let none := Stats.scheduler_getStats (λ _ _, "") (RoundRobinScheduler.new 1000) in
  CacheStats.hitRate (Coordinator.stats_threadCache st) = "0%"
  ∧ ¬ JSNumber.percentage (CacheStats.hitRate (Coordinator.stats_threadCache st))
  ∧ SchedulerStats.avgLoad none = JNumber 0
  ∧ SchedulerStats.utilizationRate none = "0%".
Proof.
  split_and!; try reflexivity. exact zero_percent_not_percentage.
Qed.

(** * Further properties of the semaphore and of the mutex *)

Section SemaphoreMore.
Import Semaphore.

Lemma run_snoc ops o s : run (ops ++ [o]) s = step o (run ops s).
Proof. unfold run. by rewrite foldl_app. Qed.

Lemma waiters_imply_no_permit (C : Z) (ops : list op) :
  waitQueue (run ops (new C)) ≠ [] → permits (run ops (new C)) <= 0.
Proof.
  induction ops as [|o ops IH] using rev_ind; [done|].
  rewrite run_snoc. destruct (run ops (new C)) as [p m q]. simpl in *.
  destruct o as [w| |]; simpl.
  - unfold acquire; simpl. destruct (Z.ltb_spec 0 p); simpl; [|lia].
    intros Hq. specialize (IH Hq). lia.
  - unfold tryAcquire; simpl. destruct (Z.ltb_spec 0 p); simpl; [|done].
    intros Hq. specialize (IH Hq). lia.
  - destruct q as [|w q]; simpl; [done|]. intros _. by apply IH.
Qed.

(** X1. Along every sequence of [acquire()], [tryAcquire()] and
    [release()] on a new semaphore, of any capacity, a caller waits in the
    queue only while no permit is available. So [tryAcquire()] never takes
    a permit ahead of a waiter: while the queue is not empty it returns
    [false] and changes nothing, and a [release()] then hands the permit
    to the oldest waiter and leaves the count as it is. [tryAcquire()]
    never touches the queue. *)
Theorem tryAcquire_never_overtakes (C : Z) (ops : list op) :
  let s := run ops (new C) in
  (waitQueue s ≠ [] →
     permits s <= 0
     ∧ tryAcquire s = (s, false)
     ∧ ∃ w rest, waitQueue s = w :: rest
         ∧ release s = ({| permits := permits s; maxPermits := maxPermits s;
                           waitQueue := rest |}, Some w))
  ∧ waitQueue (fst (tryAcquire s)) = waitQueue s
  ∧ maxPermits s = C.
Proof.
  intros s. split; [|split].
  - intros Hq. pose proof (waiters_imply_no_permit C ops Hq) as Hp.
    fold s in Hp. split; [done|]. split.
    + unfold tryAcquire. destruct (Z.ltb_spec 0 (permits s)); [lia|done].
    + destruct s as [p m [|w q]]; [done|]. by exists w, q.
  - unfold tryAcquire. by destruct (0 <? permits s).
  - subst s. induction ops as [|o ops IH] using rev_ind; [done|].
    rewrite run_snoc. destruct (run ops (new C)) as [p m q]. simpl in *.
    destruct o as [w| |]; simpl.
    + unfold acquire; simpl. by destruct (0 <? p).
    + unfold tryAcquire; simpl. by destruct (0 <? p).
    + by destruct q.
Qed.

End SemaphoreMore.

Section MutexFacts.
Import Mutex.

Ltac mutex_fields :=
  cbn [sem owner suspended next fst snd Semaphore.permits Semaphore.maxPermits
       Semaphore.waitQueue].

Lemma mutex_run_snoc es e s : run (es ++ [e]) s = step e (run es s).
Proof. unfold run. by rewrite foldl_app. Qed.

Lemma filter_ext_in {A} (P Q : A → Prop) `{∀ x, Decision (P x)}
    `{∀ x, Decision (Q x)} (l : list A) :
  (∀ x, x ∈ l → (P x ↔ Q x)) → filter P l = filter Q l.
Proof.
  induction l as [|x l IH]; intros Hl; [done|].
  rewrite !filter_cons. rewrite IH by (intros; apply Hl; by right).
  destruct (decide (P x)) as [HP|HP], (decide (Q x)) as [HQ|HQ]; try done;
    exfalso; (apply Hl in HP || apply Hl in HQ); try done; left.
Qed.

Lemma NoDup_fst_unique {A B} (l : list (A * B)) x y1 y2 :
  NoDup l.*1 → (x, y1) ∈ l → (x, y2) ∈ l → y1 = y2.
Proof.
  induction l as [|[a b] l IH]; simpl; [by intros _ ?%elem_of_nil|].
  intros [Ha Hnd]%NoDup_cons [E1|H1]%elem_of_cons [E2|H2]%elem_of_cons.
  - congruence.
  - injection E1 as -> ->. destruct Ha. apply list_elem_of_fmap. by exists (a, y2).
  - injection E2 as -> ->. destruct Ha. apply list_elem_of_fmap. by exists (a, y1).
  - by apply IH.
Qed.

Lemma length_passed_queued s :
  (length (passed s) + length (queued s))%nat = length (suspended s).
Proof.
  pose proof (filter_app_complement
                (λ e, e.1 ∈ Semaphore.waitQueue (sem s)) (suspended s)) as Hp.
  apply Permutation_length in Hp. rewrite length_app in Hp.
  unfold passed, queued. lia.
Qed.

(** The head of the wait queue leaves it. *)
Lemma queue_shift (l : list (Semaphore.waiter * string)) w rest :
  NoDup l.*1 →
  (filter (λ e, e.1 ∈ w :: rest) l).*1 = w :: rest →
  (w ∉ rest)
  ∧ (filter (λ e, e.1 ∈ rest) l).*1 = rest
  ∧ ∃ b, (w, b) ∈ l.
Proof.
  intros Hnd Hq.
  assert (Hnd' : NoDup (w :: rest)).
  { rewrite <- Hq. eapply sublist_NoDup; [exact Hnd|].
    apply fmap_sublist, sublist_filter. }
  apply NoDup_cons in Hnd' as [Hw Hrest]. split; [done|].
  assert (Hf : filter (λ e, e.1 ∈ rest) l
               = filter (λ e, e.1 ≠ w) (filter (λ e, e.1 ∈ w :: rest) l)).
  { rewrite list_filter_filter. apply list_filter_iff. intros e. set_solver. }
  destruct (filter (λ e, e.1 ∈ w :: rest) l) as [|[w' b] q'] eqn:E; [done|].
  simpl in Hq. injection Hq as -> Hq'.
  split.
  - rewrite Hf, filter_cons_False by (intros Hc; by apply Hc).
    rewrite (filter_ext_in _ (λ _, True)).
    + assert (filter (λ _ : Semaphore.waiter * string, True) q' = q') as ->; [|done].
      clear. induction q' as [|x q IH]; [done|].
      rewrite filter_cons_True by done. by rewrite IH.
    + intros e He. split; [done|]. intros _ Hew. apply Hw. rewrite <- Hq', <- Hew.
      apply list_elem_of_fmap. by exists e.
  - exists b. assert (Hin : (w, b) ∈ filter (λ e, e.1 ∈ w :: rest) l)
      by (rewrite E; left).
    by apply list_elem_of_filter in Hin as [_ ?].
Qed.

Lemma ownerId_of_Some w b s :
  ownerId_of w s = Some b → (w, b) ∈ suspended s.
Proof.
  unfold ownerId_of. destruct (list_find _ _) as [[i [w' b']]|] eqn:E; [|done].
  simpl. intros [= ->]. apply list_find_Some in E as (Hi & Hw & _).
  simpl in Hw. subst w'. by eapply list_elem_of_lookup_2.
Qed.

Lemma ownerId_of_elem w b s :
  NoDup (suspended s).*1 → (w, b) ∈ suspended s → ownerId_of w s = Some b.
Proof.
  intros Hnd Hin. unfold ownerId_of.
  destruct (list_find (λ e, e.1 = w) (suspended s)) as [[i [w' b']]|] eqn:E.
  - simpl. apply list_find_Some in E as (Hi & Hw & _). simpl in Hw. subst w'.
    apply list_elem_of_lookup_2 in Hi.
    f_equal. symmetry. by eapply NoDup_fst_unique.
  - apply list_find_None in E. rewrite Forall_forall in E.
    by destruct (E _ Hin).
Qed.

Lemma NoDup_tokens_snoc (l : list (Semaphore.waiter * string)) w a :
  NoDup l.*1 → (∀ e, e ∈ l → e.1 ≠ w) → NoDup (l ++ [(w, a)]).*1.
Proof.
  intros Hnd Hfresh. rewrite fmap_app. simpl. apply NoDup_app.
  split; [done|]. split; [|apply NoDup_singleton].
  intros x (e & Hx & He)%list_elem_of_fmap Hw%list_elem_of_singleton.
  subst. by apply (Hfresh e).
Qed.

Lemma filter_token_fresh (l : list (Semaphore.waiter * string))
    (q : list Semaphore.waiter) w :
  (∀ e, e ∈ l → e.1 ≠ w) →
  filter (λ e, e.1 ∈ q ++ [w]) l = filter (λ e, e.1 ∈ q) l
  ∧ filter (λ e, e.1 ∉ q ++ [w]) l = filter (λ e, e.1 ∉ q) l.
Proof.
  intros Hl. split; apply filter_ext_in; intros e He;
    specialize (Hl e He); set_solver.
Qed.

Lemma new_mutex_inv : mutex_inv new.
Proof.
  unfold mutex_inv, holders, passed, queued. simpl.
  split_and!; try done; [constructor|]. by intros e ?%elem_of_nil.
Qed.

Lemma lock_mutex_inv a s : mutex_inv s → mutex_inv (lock a s).
Proof.
  intros (Hsum & Hpos & Hq & Hnd & Hlt).
  assert (Hfresh : ∀ e, e ∈ suspended s → e.1 ≠ next s).
  { intros e He E. specialize (Hlt e He). unfold Semaphore.waiter in *. lia. }
  assert (Hnotq : next s ∉ Semaphore.waitQueue (sem s)).
  { rewrite Hq. intros (e & He1 & He2)%list_elem_of_fmap.
    apply list_elem_of_filter in He2 as [_ He2]. by apply (Hfresh e). }
  unfold mutex_inv, holders, passed, queued, lock in *. simpl.
  unfold Semaphore.acquire.
  destruct (Z.ltb_spec 0 (Semaphore.permits (sem s))) as [Hp|Hp]; simpl.
  - rewrite !filter_app, !filter_cons, !filter_nil. simpl.
    rewrite decide_True, decide_False by done.
    rewrite app_nil_r, length_app. simpl.
    split_and!; [lia|lia|done| |].
    + by apply NoDup_tokens_snoc.
    + intros e [He| ->%list_elem_of_singleton]%elem_of_app; simpl; [|lia].
      specialize (Hlt e He). lia.
  - rewrite !filter_app, !filter_cons, !filter_nil. simpl.
    rewrite decide_False, decide_True by set_solver.
    destruct (filter_token_fresh (suspended s) (Semaphore.waitQueue (sem s))
                (next s) Hfresh) as [-> ->].
    rewrite app_nil_r, fmap_app. simpl.
    split_and!; [lia|lia|by rewrite <- Hq| |].
    + by apply NoDup_tokens_snoc.
    + intros e [He| ->%list_elem_of_singleton]%elem_of_app; simpl; [|lia].
      specialize (Hlt e He). lia.
Qed.

(** While a call has the permit and has not set [owner] yet, there is no
    owner and no permit, and that call is the only one. *)
Lemma passed_alone s e :
  mutex_inv s → e ∈ passed s →
  owner s = None ∧ Semaphore.permits (sem s) = 0 ∧ passed s = [e].
Proof.
  intros (Hsum & Hpos & _) He. unfold holders in Hsum.
  destruct (passed s) as [|e0 [|e1 l]] eqn:E; simpl in Hsum.
  - by apply elem_of_nil in He.
  - apply list_elem_of_singleton in He as ->.
    destruct (owner s); [lia|]. split; [done|]. split; [lia|done].
  - destruct (owner s); lia.
Qed.

Lemma resume_mutex_inv w s : mutex_inv s → mutex_inv (resume w s).
Proof.
  intros Hinv. unfold resume.
  destruct (ownerId_of w s) as [b|] eqn:Hb; [|done].
  unfold resolved. case_bool_decide as Hw; [|done].
  apply ownerId_of_Some in Hb.
  assert (Hin : (w, b) ∈ passed s) by (by apply list_elem_of_filter).
  destruct (passed_alone s _ Hinv Hin) as (Ho & Hp & Hone).
  destruct Hinv as (Hsum & Hpos & Hq & Hnd & Hlt).
  assert (Hqueued : filter (λ e, e.1 ∈ Semaphore.waitQueue (sem s))
                      (filter (λ e, e.1 ≠ w) (suspended s)) = queued s).
  { rewrite list_filter_filter. apply filter_ext_in. intros e He.
    split; [tauto|]. intros Heq. split; [done|].
    intros E. apply Hw. by rewrite <- E. }
  assert (Hpassed : filter (λ e, e.1 ∉ Semaphore.waitQueue (sem s))
                      (filter (λ e, e.1 ≠ w) (suspended s)) = []).
  { rewrite list_filter_filter.
    rewrite (list_filter_iff _ (λ e, e.1 ≠ w ∧ e.1 ∉ Semaphore.waitQueue (sem s)))
      by (intros; tauto).
    rewrite <- list_filter_filter. fold (passed s). rewrite Hone.
    rewrite filter_cons_False by (intros Hc; by apply Hc). done. }
  unfold mutex_inv, holders, passed, queued. simpl.
  rewrite Hqueued, Hpassed. simpl.
  split_and!; [lia|lia|done| |].
  - eapply sublist_NoDup; [exact Hnd|]. apply fmap_sublist, sublist_filter.
  - intros e [_ He]%list_elem_of_filter. by apply Hlt.
Qed.

Lemma unlock_mutex_inv a s : mutex_inv s → mutex_inv (fst (unlock a s)).
Proof.
  intros Hinv. unfold unlock. case_bool_decide as Ho; [|done]. simpl.
  assert (Hnone : passed s = []).
  { destruct (passed s) as [|e l] eqn:E; [done|].
    destruct (passed_alone s e Hinv) as (Hc & _); [rewrite E; left|congruence]. }
  pose proof (length_passed_queued s) as Hlen. rewrite Hnone in Hlen. simpl in Hlen.
  destruct Hinv as (Hsum & Hpos & Hq & Hnd & Hlt).
  unfold holders in Hsum. rewrite Ho, Hnone in Hsum. simpl in Hsum.
  unfold Semaphore.release.
  destruct (Semaphore.waitQueue (sem s)) as [|w rest] eqn:Eq.
  - unfold mutex_inv, holders, passed, queued in *. mutex_fields. rewrite Eq in *.
    rewrite Hnone. simpl length. split_and!; try done; lia.
  - unfold queued in Hq. rewrite Eq in Hq. symmetry in Hq.
    destruct (queue_shift _ _ _ Hnd Hq) as (Hw & Hrest & b & Hb).
    pose proof (length_passed_queued
      {| sem := {| Semaphore.permits := Semaphore.permits (sem s);
                   Semaphore.maxPermits := Semaphore.maxPermits (sem s);
                   Semaphore.waitQueue := rest |};
         owner := None; suspended := suspended s; next := next s |}) as Hlen'.
    unfold mutex_inv, holders. unfold passed, queued in *.
    cbn [sem owner suspended next fst snd Semaphore.permits Semaphore.maxPermits
         Semaphore.waitQueue] in *.
    rewrite Eq in Hlen.
    assert (Hl1 : length (filter (λ e, e.1 ∈ w :: rest) (suspended s))
                  = S (length rest)).
    { rewrite <- (length_fmap fst), Hq. done. }
    assert (Hl2 : length (filter (λ e, e.1 ∈ rest) (suspended s)) = length rest).
    { rewrite <- (length_fmap fst), Hrest. done. }
    split_and!; [lia|lia|by rewrite Hrest|done|done].
Qed.

Lemma run_mutex_inv es : mutex_inv (run es new).
Proof.
  induction es as [|e es IH] using rev_ind; [apply new_mutex_inv|].
  rewrite mutex_run_snoc. destruct e as [a|w|a]; simpl.
  - by apply lock_mutex_inv.
  - by apply resume_mutex_inv.
  - by apply unlock_mutex_inv.
Qed.

(** X2. Mutual exclusion. Along every sequence of calls of [lock], of
    continuations of such calls and of calls of [unlock] on a new mutex,
    the permit of the semaphore is either available or held by exactly one
    caller: the count of permits is 0 or 1 and, added to the number of
    holders (the owner, or the call that took the permit and is about to
    set [owner]), makes 1. While [owner] is set no other call is past its
    [acquire()], and the wait queue lists the calls that wait, oldest
    first. *)
Theorem mutex_single_holder (es : list event) :
  let s := run es new in
  Semaphore.permits (sem s) + holders s = 1
  ∧ 0 <= Semaphore.permits (sem s) <= 1
  ∧ (length (passed s) ≤ 1)%nat
  ∧ (is_Some (owner s) → passed s = [] ∧ Semaphore.permits (sem s) = 0)
  ∧ Semaphore.waitQueue (sem s) = (queued s).*1.
Proof.
  intros s. pose proof (run_mutex_inv es) as Hinv. fold s in Hinv.
  pose proof Hinv as (Hsum & Hpos & Hq & _).
  assert (Hh : 0 <= holders s).
  { unfold holders. destruct (owner s); lia. }
  split; [done|]. split; [lia|]. split; [|split; [|done]].
  - unfold holders in Hsum. destruct (owner s); lia.
  - intros [a Ha]. unfold holders in Hsum. rewrite Ha in Hsum.
    destruct (passed s); simpl in *; [|lia]. split; [done|lia].
Qed.

(** X3. [unlock] checks the owner and hands the lock over in the order of
    the calls of [lock]. In every state the mutex goes through,
    [unlock(a)] throws and changes nothing unless [a] is the owner; this
    is the case of an [unlock(a)] that follows [lock(a)] before the
    continuation of that call has run. When [a] is the owner, [unlock(a)]
    clears [owner]; if calls wait, the oldest one [w] leaves the queue and
    its continuation makes its [ownerId] the owner, while the continuation
    of any other waiting call cannot run. *)
Theorem unlock_hands_over_in_order (es : list event) (a : string) :
  let s := run es new in
  (owner s ≠ Some a → unlock a s = (s, Throw (not_owned a)))
  ∧ owner (lock a s) = owner s
  ∧ (owner s = Some a →
     snd (unlock a s) = Ok tt
     ∧ owner (fst (unlock a s)) = None
     ∧ (Semaphore.waitQueue (sem s) = [] →
        Semaphore.permits (sem (fst (unlock a s))) = 1)
     ∧ ∀ w rest, Semaphore.waitQueue (sem s) = w :: rest →
         Semaphore.waitQueue (sem (fst (unlock a s))) = rest
         ∧ Semaphore.permits (sem (fst (unlock a s))) = 0
         ∧ (∃ b, ownerId_of w s = Some b
                 ∧ owner (resume w (fst (unlock a s))) = Some b)
         ∧ ∀ w', w' ∈ rest →
             resume w' (fst (unlock a s)) = fst (unlock a s)).
Proof.
  intros s. pose proof (run_mutex_inv es) as Hinv. fold s in Hinv.
  split; [|split; [done|]].
  - intros Ho. unfold unlock. by rewrite bool_decide_false.
  - intros Ho.
    pose proof (unlock_mutex_inv a s Hinv) as Hinv'.
    unfold unlock in *. rewrite bool_decide_true in * by done. simpl in *.
    split; [done|]. split; [done|].
    assert (Hnone : passed s = [] ∧ Semaphore.permits (sem s) = 0).
    { destruct Hinv as (Hsum & Hpos & _). unfold holders in Hsum.
      rewrite Ho in Hsum. destruct (passed s); simpl in *; [|lia].
      split; [done|lia]. }
    destruct Hnone as [Hnone Hp0].
    split.
    + intros Hq. unfold Semaphore.release. rewrite Hq. simpl. lia.
    + intros w rest Hq. unfold Semaphore.release in *. rewrite Hq in *.
      simpl in *.
      destruct Hinv as (_ & _ & Hqs & Hnd & _).
      unfold queued in Hqs. rewrite Hq in Hqs. symmetry in Hqs.
      destruct (queue_shift _ _ _ Hnd Hqs) as (Hw & Hrest & b & Hb).
      split; [done|]. split; [done|]. split.
      * exists b. split; [by apply ownerId_of_elem|].
        unfold resume.
        assert (Hid : ownerId_of w
                  {| sem := {| Semaphore.permits := Semaphore.permits (sem s);
                               Semaphore.maxPermits := Semaphore.maxPermits (sem s);
                               Semaphore.waitQueue := rest |};
                     owner := None; suspended := suspended s; next := next s |}
                  = Some b) by (by apply ownerId_of_elem).
        rewrite Hid. unfold resolved. simpl. by rewrite bool_decide_true.
      * intros w' Hw'. unfold resume.
        destruct (ownerId_of w' _); [|done].
        unfold resolved. simpl. rewrite bool_decide_false; [done|]. by intros Hc.
Qed.

End MutexFacts.

(** * Further properties of the round-robin scheduler *)

Section SchedulerMore.
Import RoundRobinScheduler SchedulerCalls.
#[local] Open Scope nat_scope.

Lemma scheduler_run_snoc cs c s : run (cs ++ [c]) s = step c (run cs s).
Proof. unfold run. by rewrite foldl_app. Qed.

Lemma releaseTask_length wid s :
  length (workers (releaseTask wid s)) = length (workers s)
  ∧ currentIndex (releaseTask wid s) = currentIndex s.
Proof.
  unfold releaseTask. destruct (find_index wid (workers s)) as [i|]; [|done].
  destruct (workers s !! i) as [w|]; [|done].
  destruct (0 <? load w)%Z; [|done]. simpl. by rewrite length_insert.
Qed.

Lemma step_cursor_valid c s :
  is_removal c = false → cursor_valid s → cursor_valid (step c s).
Proof.
  intros Hc Hv. destruct c as [wid m|wid|now|wid]; simpl in *; [|done| |].
  - left. unfold addWorker. simpl. rewrite length_app. simpl.
    destruct Hv as [Hv|[-> ->]]; simpl; lia.
  - destruct Hv as [Hv|[Hw Hi]].
    + left. by apply assignTask_in_range.
    + right. unfold assignTask. by rewrite Hw.
  - destruct (releaseTask_length wid s) as [Hl Hi].
    destruct Hv as [Hv|[Hw Hi']].
    + left. by rewrite Hl, Hi.
    + right. unfold releaseTask. by rewrite Hw.
Qed.

Lemma run_cursor_valid cs s :
  forallb (λ c, negb (is_removal c)) cs = true →
  cursor_valid s → cursor_valid (run cs s).
Proof.
  induction cs as [|c cs IH] using rev_ind; [done|].
  rewrite forallb_app, andb_true_iff. simpl. rewrite andb_true_r.
  intros [Hcs Hc] Hv. rewrite scheduler_run_snoc.
  apply step_cursor_valid; [by apply negb_true_iff|by apply IH].
Qed.

(** X4. As long as no worker is removed, [assignTask()] never throws.
    Along every sequence of [addWorker], [assignTask] and [releaseTask] on
    a new scheduler the cursor stays a position of the worker list (or the
    list is empty); so the next [assignTask()] returns a worker or [null],
    and returns [null] without touching anything when there is no
    worker. *)
Theorem assignTask_never_throws_without_removal
    (quantum : Z) (cs : list call) (now : Z) :
  forallb (λ c, negb (is_removal c)) cs = true →
  let s := run cs (new quantum) in
  cursor_valid s
  ∧ (∀ err, snd (assignTask now s) ≠ Throw err)
  ∧ (workers s = [] → assignTask now s = (s, Ok None)).
Proof.
  intros Hcs s.
  assert (Hv : cursor_valid s).
  { apply run_cursor_valid; [done|]. by right. }
  split; [done|]. split.
  - destruct Hv as [Hv|[Hw Hi]].
    + by apply assignTask_in_range.
    + unfold assignTask. rewrite Hw. done.
  - intros Hw. unfold assignTask. by rewrite Hw.
Qed.

Lemma assignTask_never_throws_without_removal_witness :
  let cs := [AssignTask 1; AddWorker "a" 1; AssignTask 2; AssignTask 3;
             ReleaseTask "a"; AddWorker "b" 2; AssignTask 4] in
  cursor_valid (run cs (new 1000))
  ∧ (∀ err, snd (assignTask 5 (run cs (new 1000))) ≠ Throw err)
  ∧ (workers (run cs (new 1000)) = [] →
     assignTask 5 (run cs (new 1000)) = (run cs (new 1000), Ok None)).
Proof.
  apply (assignTask_never_throws_without_removal 1000
           [AssignTask 1; AddWorker "a" 1; AssignTask 2; AssignTask 3;
            ReleaseTask "a"; AddWorker "b" 2; AssignTask 4] 5).
  reflexivity.
Defined.

(** What a scan does to the worker list: nothing, or one task more for
    one worker that can take it, which is then the worker returned. *)
Lemma assign_loop_workers now remaining : ∀ s,
  let r := assign_loop now remaining s in
  quantum (fst r) = quantum s
  ∧ ((workers (fst r) = workers s ∧ ∀ w, snd r ≠ Ok (Some w))
     ∨ ∃ j w, workers s !! j = Some w ∧ can_take w = true
         ∧ workers (fst r) = <[j := assigned now w]> (workers s)
         ∧ snd r = Ok (Some (assigned now w))).
Proof.
  induction remaining as [|remaining IH]; intros s; simpl.
  - split; [done|]. left. by split.
  - destruct (workers s !! currentIndex s) as [w|] eqn:Hw.
    + fold (can_take w). destruct (can_take w) eqn:Hc.
      * simpl. split; [done|]. right. by exists (currentIndex s), w.
      * apply (IH (set_cursor _ s)).
    + simpl. split; [done|]. left. by split.
Qed.

Lemma assignTask_workers now s :
  quantum (fst (assignTask now s)) = quantum s
  ∧ ((workers (fst (assignTask now s)) = workers s
      ∧ ∀ w, snd (assignTask now s) ≠ Ok (Some w))
     ∨ ∃ j w, workers s !! j = Some w ∧ can_take w = true
         ∧ workers (fst (assignTask now s)) = <[j := assigned now w]> (workers s)
         ∧ snd (assignTask now s) = Ok (Some (assigned now w))).
Proof.
  unfold assignTask. destruct (workers s) eqn:Hw.
  - simpl. split; [done|]. left. by split.
  - rewrite <- Hw. apply assign_loop_workers.
Qed.

Lemma step_load_ok c s :
  Forall load_ok (workers s) → Forall load_ok (workers (step c s)).
Proof.
  intros Hs. destruct c as [wid m|wid|now|wid]; simpl.
  - apply Forall_app. split; [done|]. apply Forall_singleton.
    unfold load_ok. simpl. lia.
  - rewrite Forall_forall in *. intros x [_ Hx]%list_elem_of_filter. by apply Hs.
  - destruct (assignTask_workers now s) as [_ [[-> _]|(j & w & Hj & Hc & -> & _)]];
      [done|].
    apply Forall_insert; [done|].
    pose proof (Forall_lookup_1 _ _ _ _ Hs Hj) as Hw.
    unfold can_take in Hc. apply andb_true_iff in Hc as [_ Hc%Z.ltb_lt].
    unfold load_ok in *. simpl. lia.
  - unfold releaseTask. destruct (find_index wid (workers s)) as [i|]; [|done].
    destruct (workers s !! i) as [w|] eqn:Hi; [|done].
    destruct (Z.ltb_spec 0 (load w)); [|done]. simpl.
    apply Forall_insert; [done|].
    pose proof (Forall_lookup_1 _ _ _ _ Hs Hi) as Hw.
    unfold load_ok in *. simpl. lia.
Qed.

(** X5. No worker is ever overloaded. Along every sequence of calls on a
    new scheduler ([addWorker], [removeWorker], [assignTask],
    [releaseTask], in any order, and going on after an [assignTask] that
    threw) the load of each worker stays between 0 and its maximal load
    (0 when that maximum is negative). *)
Theorem load_stays_within_bounds (quantum : Z) (cs : list call) :
  Forall (λ w, (0 ≤ load w ≤ Z.max 0 (maxLoad w))%Z)
         (workers (run cs (new quantum))).
Proof.
  change (Forall load_ok (workers (run cs (new quantum)))).
  induction cs as [|c cs IH] using rev_ind; [by constructor|].
  rewrite scheduler_run_snoc. by apply step_load_ok.
Qed.

(** ** The scan of [assignTask] *)

Lemma set_cursor_same s : set_cursor (currentIndex s) s = s.
Proof. by destruct s. Qed.

Lemma cursor_step (i k n : nat) :
  ((i + 1) `mod` n + k) `mod` n = (i + S k) `mod` n.
Proof.
  rewrite Nat.Div0.add_mod_idemp_l. f_equal. lia.
Qed.

(** A scan over workers that cannot take a task moves the cursor and
    does nothing else. *)
Lemma assign_loop_skip now remaining : ∀ s,
  currentIndex s < length (workers s) →
  (∀ k w, k < remaining →
     workers s !! ((currentIndex s + k) `mod` length (workers s)) = Some w →
     can_take w = false) →
  assign_loop now remaining s
  = (set_cursor ((currentIndex s + remaining) `mod` length (workers s)) s, Ok None).
Proof.
  induction remaining as [|remaining IH]; intros s Hi Hall; simpl.
  - rewrite Nat.add_0_r, Nat.mod_small by done. by rewrite set_cursor_same.
  - destruct (lookup_lt_is_Some_2 _ _ Hi) as [w Hw]. rewrite Hw.
    fold (can_take w). rewrite (Hall 0 w); [|lia|].
    2:{ by rewrite Nat.add_0_r, Nat.mod_small. }
    rewrite IH; simpl.
    + by rewrite cursor_step.
    + apply Nat.mod_upper_bound. lia.
    + intros k w' Hk. rewrite cursor_step. apply Hall. lia.
Qed.

(** A scan stops at the first worker that can take a task. *)
Lemma assign_loop_pick now remaining : ∀ s k w,
  currentIndex s < length (workers s) →
  k < remaining →
  workers s !! ((currentIndex s + k) `mod` length (workers s)) = Some w →
  can_take w = true →
  (∀ k' w', k' < k →
     workers s !! ((currentIndex s + k') `mod` length (workers s)) = Some w' →
     can_take w' = false) →
  let j := (currentIndex s + k) `mod` length (workers s) in
  assign_loop now remaining s
  = ({| workers := <[j := assigned now w]> (workers s);
        currentIndex := (j + 1) `mod` length (workers s);
        quantum := quantum s |}, Ok (Some (assigned now w))).
Proof.
  induction remaining as [|remaining IH]; intros s k w Hi Hk Hw Hc Hbefore j;
    [lia|].
  simpl. destruct (lookup_lt_is_Some_2 _ _ Hi) as [w0 Hw0]. rewrite Hw0.
  fold (can_take w0). destruct k as [|k].
  - subst j. rewrite Nat.add_0_r in *.
    rewrite (Nat.mod_small (currentIndex s)) in * by done.
    assert (w0 = w) as -> by congruence. rewrite Hc. done.
  - rewrite (Hbefore 0 w0); [|lia|by rewrite Nat.add_0_r, Nat.mod_small].
    rewrite (IH (set_cursor _ s) k w); simpl.
    + subst j. by rewrite !cursor_step.
    + apply Nat.mod_upper_bound. lia.
    + lia.
    + by rewrite cursor_step.
    + done.
    + intros k' w' Hk'. rewrite cursor_step. apply Hbefore. lia.
Qed.

Lemma assignTask_in_range_scan now s :
  currentIndex s < length (workers s) →
  assignTask now s = assign_loop now (length (workers s)) s.
Proof.
  intros Hi. unfold assignTask.
  destruct (workers s) as [|w0 ws] eqn:Hws; [simpl in Hi; lia|done].
Qed.

(** X6. When no worker can take a task (each one is inactive or at its
    maximal load) and the cursor is a position of the worker list,
    [assignTask()] returns [null] and leaves the scheduler exactly as it
    was: the scan goes once round the list and the cursor is back where
    it started. *)
Theorem assignTask_saturated_returns_null (now : Z) (s : t) :
  currentIndex s < length (workers s) →
  Forall (λ w, can_take w = false) (workers s) →
  assignTask now s = (s, Ok None).
Proof.
  intros Hi Hall. rewrite assignTask_in_range_scan by done.
  rewrite assign_loop_skip; [|done|].
  - rewrite <- (Nat.mul_1_l (length (workers s))) at 1.
    rewrite Nat.Div0.mod_add, Nat.mod_small by done.
    by rewrite set_cursor_same.
  - intros k w _ Hw. by apply (Forall_lookup_1 _ _ _ _ Hall Hw).
Qed.

Lemma assignTask_saturated_returns_null_witness :
  let s := fst (assignTask 2 (fst (assignTask 1
             (addWorker "b" 1 (addWorker "a" 1 (new 1000)))))) in
  assignTask 3 s = (s, Ok None).
Proof.
  apply (assignTask_saturated_returns_null 3
           (fst (assignTask 2 (fst (assignTask 1
              (addWorker "b" 1 (addWorker "a" 1 (new 1000)))))))).
  - vm_compute. lia.
  - vm_compute. repeat constructor.
Defined.

(** X7. Round-robin choice. With the cursor at position [i] of a list of
    [n] workers, [assignTask()] gives the task to the first worker that can
    take one in the order [i], [i+1], ..., wrapping round at [n]: that
    worker gets one more task and the time of the assignment, no other
    worker changes, and the cursor moves to the position after the chosen
    worker. *)
Theorem assignTask_picks_next_available (now : Z) (s : t) (k : nat) (w : Worker) :
  let n := length (workers s) in
  let i := currentIndex s in
  let j := (i + k) `mod` n in
  i < n → k < n →
  workers s !! j = Some w →
  can_take w = true →
  (∀ k' w', k' < k → workers s !! ((i + k') `mod` n) = Some w' →
     can_take w' = false) →
  assignTask now s
  = ({| workers := <[j := assigned now w]> (workers s);
        currentIndex := (j + 1) `mod` n;
        quantum := quantum s |}, Ok (Some (assigned now w))).
Proof.
  intros n i j Hi Hk Hw Hc Hbefore.
  rewrite assignTask_in_range_scan by done. by apply assign_loop_pick.
Qed.

Lemma assignTask_picks_next_available_witness :
  let s := fst (assignTask 1 (addWorker "c" 2 (addWorker "b" 0
                 (addWorker "a" 1 (new 1000))))) in
  assignTask 2 s
  = ({| workers := <[2 := assigned 2 (mkWorker "c" 0 2 true 0)]> (workers s);
        currentIndex := 0; quantum := 1000 |},
     Ok (Some (assigned 2 (mkWorker "c" 0 2 true 0)))).
Proof.
  apply (assignTask_picks_next_available 2
           (fst (assignTask 1 (addWorker "c" 2 (addWorker "b" 0
                   (addWorker "a" 1 (new 1000)))))) 1 (mkWorker "c" 0 2 true 0)).
  - vm_compute. lia.
  - vm_compute. lia.
  - reflexivity.
  - reflexivity.
  - intros k' w' Hk'. assert (k' = 0) as -> by lia. vm_compute.
    by intros [= <-].
Defined.

(** ** Assignment and release *)

Lemma find_index_lookup (ws : list Worker) : ∀ j w,
  NoDup (id <$> ws) → ws !! j = Some w → find_index (id w) ws = Some j.
Proof.
  induction ws as [|w0 ws IH]; intros j w Hnd Hj; [done|].
  simpl in Hnd. apply NoDup_cons in Hnd as [Hw0 Hnd]. simpl.
  destruct j as [|j]; simpl in Hj.
  - injection Hj as ->. by rewrite bool_decide_true.
  - rewrite bool_decide_false.
    + by rewrite (IH j w).
    + intros E. apply Hw0. rewrite E. apply list_elem_of_fmap.
      exists w. split; [done|]. by eapply list_elem_of_lookup_2.
Qed.

(** X8. Assigning a task and releasing it again gives the loads back.
    When the ids of the workers are pairwise distinct and no load is
    negative, [releaseTask(worker.id)] on the worker [assignTask()]
    returned leaves every worker with the id, load, maximal load and
    [active] flag it had before the assignment. (With two workers of the
    same id, [releaseTask] finds the first of them, which need not be the
    one the task went to.) *)
Theorem release_undoes_assignment (now : Z) (s : t) (w : Worker) :
  NoDup (id <$> workers s) →
  Forall (λ w, (0 ≤ load w)%Z) (workers s) →
  snd (assignTask now s) = Ok (Some w) →
  booking <$> workers (releaseTask (id w) (fst (assignTask now s)))
  = booking <$> workers s
  ∧ quantum (releaseTask (id w) (fst (assignTask now s))) = quantum s.
Proof.
  intros Hnd Hpos Hret.
  destruct (assignTask_workers now s) as [Hq [[_ Hno]|(j & w0 & Hj & Hc & Hws & Hr)]].
  { by destruct (Hno w). }
  rewrite Hr in Hret. injection Hret as <-.
  set (s' := fst (assignTask now s)) in *.
  assert (Hj' : workers s' !! j = Some (assigned now w0)).
  { rewrite Hws. apply list_lookup_insert_eq. by eapply lookup_lt_Some. }
  assert (Hids : id <$> workers s' = id <$> workers s).
  { rewrite Hws, list_fmap_insert. simpl. apply list_insert_id.
    by rewrite list_lookup_fmap, Hj. }
  unfold releaseTask.
  rewrite (find_index_lookup (workers s') j (assigned now w0)); [|by rewrite Hids|done].
  rewrite Hj'. simpl.
  pose proof (Forall_lookup_1 _ _ _ _ Hpos Hj) as Hw0. simpl in Hw0.
  destruct (Z.ltb_spec 0 (load w0 + 1)); [|lia]. simpl.
  split; [|done].
  rewrite Hws, list_insert_insert_eq, list_fmap_insert. apply list_insert_id.
  rewrite list_lookup_fmap, Hj. simpl. unfold booking. simpl.
  do 4 f_equal. lia.
Qed.

Lemma release_undoes_assignment_witness :
  let s := addWorker "b" 1 (addWorker "a" 1 (new 1000)) in
  booking <$> workers (releaseTask "a" (fst (assignTask 7 s)))
  = booking <$> workers s
  ∧ quantum (releaseTask "a" (fst (assignTask 7 s))) = quantum s.
Proof.
  apply (release_undoes_assignment 7
           (addWorker "b" 1 (addWorker "a" 1 (new 1000)))
           (mkWorker "a" 1 1 true 7)).
  - vm_compute. repeat constructor; set_solver.
  - vm_compute. repeat constructor; discriminate.
  - reflexivity.
Defined.

End SchedulerMore.

(** * Further properties of the priority message queue *)

Section QueueMore.
Import PriorityMessageQueue QueueEvents.
Context {A : Type}.
Implicit Types (m : QueuedMessage A) (s : t A) (q : list (QueuedMessage A))
  (es : list (event A)).

Lemma queue_run_snoc es e s : run (es ++ [e]) s = step e (run es s).
Proof. unfold run. by rewrite foldl_app. Qed.

(** ** The buckets stay sorted *)

Lemma insert_by_timestamp_sorted m q :
  StronglySorted older q → StronglySorted older (insert_by_timestamp m q).
Proof.
  induction 1 as [|m' q Hq IH Hall]; simpl.
  - repeat constructor.
  - destruct (Z.leb_spec (timestamp m) (timestamp m')) as [Hle|Hgt].
    + constructor; [by constructor|]. constructor; [done|].
      eapply Forall_impl; [exact Hall|]. intros x Hx. unfold older in *. lia.
    + constructor; [done|].
      rewrite insert_by_timestamp_perm. constructor; [|done].
      unfold older. lia.
Qed.

Lemma sort_by_timestamp_sorted q : StronglySorted older (sort_by_timestamp q).
Proof.
  induction q as [|m q IH]; simpl; [constructor|].
  by apply insert_by_timestamp_sorted.
Qed.

Lemma get_set_queue p p' q s :
  get_queue p (set_queue p' q s) = if decide (p' = p) then q else get_queue p s.
Proof. destruct p, p'; done. Qed.

Lemma push_sorted m s : buckets_sorted s → buckets_sorted (push m s).
Proof.
  intros Hs p. unfold push. rewrite get_set_queue.
  case_decide as Hp; [|apply Hs]. split.
  - rewrite sort_by_timestamp_perm. apply Forall_app. split; [|by constructor].
    rewrite Hp. apply Hs.
  - apply sort_by_timestamp_sorted.
Qed.

Lemma tail_sorted p m q s :
  buckets_sorted s → get_queue p s = m :: q → buckets_sorted (set_queue p q s).
Proof.
  intros Hs Hq p'. rewrite get_set_queue. case_decide as Hp; [|apply Hs].
  subst p'. destruct (Hs p) as [Hf Hso]. rewrite Hq in Hf, Hso.
  split; [by eapply Forall_cons_1|by inversion Hso].
Qed.

Lemma dequeue_sorted s : buckets_sorted s → buckets_sorted (dequeue s).2.
Proof.
  intros Hs. unfold dequeue.
  destruct (urgent s) as [|m q] eqn:Hu; [|by apply (tail_sorted URGENT m)].
  destruct (high s) as [|m q] eqn:Hh; [|by apply (tail_sorted HIGH m)].
  destruct (normal s) as [|m q] eqn:Hn; [|by apply (tail_sorted NORMAL m)].
  destruct (low s) as [|m q] eqn:Hl; [|by apply (tail_sorted LOW m)].
  done.
Qed.

Lemma drain_sorted s : buckets_sorted s → buckets_sorted (drain s).
Proof.
  intros Hs. unfold drain. pose proof (dequeue_sorted s Hs) as Hd.
  by destruct (dequeue s) as [[m|] s'].
Qed.

Lemma enqueue_sorted m s : buckets_sorted s → buckets_sorted (enqueue m s).
Proof.
  intros Hs. unfold enqueue, processQueue. apply (push_sorted m) in Hs.
  destruct (processing (push m s)); [done|]. by apply drain_sorted.
Qed.

Lemma settle_sorted b s : buckets_sorted s → buckets_sorted (settle b s).
Proof.
  intros Hs. unfold settle. destruct (awaiting s) as [m|]; [|done].
  apply drain_sorted. destruct b; [done|].
  destruct (retries m <? _); [|done]. by apply enqueue_sorted.
Qed.

Lemma run_sorted es : buckets_sorted (run es (@new A)).
Proof.
  induction es as [|e es IH] using rev_ind.
  - intros p. destruct p; split; constructor.
  - rewrite queue_run_snoc. destruct e as [m|b]; simpl.
    + by apply enqueue_sorted.
    + by apply settle_sorted.
Qed.

(** X9. The drain loop always takes the most urgent message, and among
    the messages of that priority the oldest. In every state the queue
    goes through (messages submitted and deliveries settled in any order),
    when [dequeue()] returns a message [m], every message [m'] left in the
    buckets is of a less urgent priority, or of the same priority and not
    older than [m]; and [dequeue()] returns [null] only when all four
    buckets are empty. *)
Theorem dequeue_takes_most_urgent_oldest es :
  let s := run es new in
  match dequeue s with
  | (Some m, s') =>
      all_buckets s = m :: all_buckets s'
      ∧ ∀ m', m' ∈ all_buckets s' →
          rank (priority m) < rank (priority m')
          ∨ (priority m' = priority m ∧ timestamp m <= timestamp m')
  | (None, s') => s' = s ∧ buckets_empty s
  end.
Proof.
  intros s. pose proof (run_sorted es) as Hs. fold s in Hs.
  assert (Hpick : ∀ p m q,
            get_queue p s = m :: q →
            (∀ p', rank p' < rank p → get_queue p' s = []) →
            ∀ m', m' ∈ all_buckets (set_queue p q s) →
              rank (priority m) < rank (priority m')
              ∨ (priority m' = priority m ∧ timestamp m <= timestamp m')).
  { intros p m q Hq Hbefore m' Hin.
    destruct (Hs p) as [Hf Hso]. rewrite Hq in Hf, Hso.
    assert (Hpm : priority m = p) by (by apply Forall_cons_1 in Hf as [? _]).
    assert (Hcase : ∃ p', m' ∈ get_queue p' (set_queue p q s)).
    { unfold all_buckets in Hin.
      repeat (apply elem_of_app in Hin as [Hin|Hin]);
        [by exists URGENT|by exists HIGH|by exists NORMAL|by exists LOW]. }
    destruct Hcase as [p' Hin']. rewrite get_set_queue in Hin'.
    case_decide as Hp.
    - subst p'. right. split.
      + rewrite Hpm. apply Forall_cons_1 in Hf as [_ Hf].
        by apply (proj1 (Forall_forall _ _) Hf).
      + apply StronglySorted_inv in Hso as [_ Hall].
        by apply (proj1 (Forall_forall _ _) Hall).
    - destruct (Hs p') as [Hf' _].
      assert (Hpm' : priority m' = p')
        by by apply (proj1 (Forall_forall _ _) Hf').
      left. rewrite Hpm, Hpm'.
      destruct (Z.lt_ge_cases (rank p) (rank p')) as [Hlt|Hge]; [done|].
      assert (Hne : rank p' ≠ rank p) by (destruct p, p'; done).
      rewrite (Hbefore p') in Hin' by lia. by apply elem_of_nil in Hin'. }
  pose proof (dequeue_all_buckets s) as Hd. unfold dequeue in *.
  destruct (urgent s) as [|m q] eqn:Hu.
  2:{ split; [apply Hd|]. apply (Hpick URGENT); [done|]. intros []; simpl; lia. }
  destruct (high s) as [|m q] eqn:Hh.
  2:{ split; [apply Hd|]. apply (Hpick HIGH); [done|].
      intros []; simpl; try lia; done. }
  destruct (normal s) as [|m q] eqn:Hn.
  2:{ split; [apply Hd|]. apply (Hpick NORMAL); [done|].
      intros []; simpl; try lia; done. }
  destruct (low s) as [|m q] eqn:Hl.
  2:{ split; [apply Hd|]. apply (Hpick LOW); [done|].
      intros []; simpl; try lia; done. }
  done.
Qed.

(** ** Where a message goes in its bucket *)

Lemma insert_by_timestamp_front m q :
  Forall (older m) q → insert_by_timestamp m q = m :: q.
Proof.
  destruct q as [|m' q]; [done|]. intros [Hle _]%Forall_cons_1. simpl.
  unfold older in Hle. by destruct (Z.leb_spec (timestamp m) (timestamp m')); [|lia].
Qed.

Lemma filter_nothing {B} (P : B → Prop) `{∀ x, Decision (P x)} (l : list B) :
  Forall (λ x, ¬ P x) l → filter P l = [].
Proof.
  induction 1 as [|x l Hx _ IH]; [done|]. by rewrite filter_cons_False.
Qed.

Lemma filter_everything {B} (P : B → Prop) `{∀ x, Decision (P x)} (l : list B) :
  Forall P l → filter P l = l.
Proof.
  induction 1 as [|x l Hx _ IH]; [done|]. rewrite filter_cons_True by done.
  by rewrite IH.
Qed.

Lemma sort_sorted_snoc m q :
  StronglySorted older q →
  sort_by_timestamp (q ++ [m])
  = filter (λ x, timestamp x <= timestamp m) q
    ++ m :: filter (λ x, timestamp m < timestamp x) q.
Proof.
  induction 1 as [|a q Hq IH Hall]; [done|].
  simpl. rewrite IH. rewrite !filter_cons.
  destruct (decide (timestamp a <= timestamp m)) as [Hle|Hgt].
  - rewrite decide_False by lia. simpl.
    apply insert_by_timestamp_front. apply Forall_app. split.
    + apply Forall_forall. intros x [_ Hx]%list_elem_of_filter.
      by apply (proj1 (Forall_forall _ _) Hall).
    + constructor; [done|].
      apply Forall_forall. intros x [_ Hx]%list_elem_of_filter.
      by apply (proj1 (Forall_forall _ _) Hall).
  - rewrite decide_True by lia.
    assert (Hnone : filter (λ x, timestamp x <= timestamp m) q = []).
    { apply filter_nothing. apply Forall_forall. intros x Hx Hxm.
      pose proof (proj1 (Forall_forall _ _) Hall x Hx) as Hax.
      unfold older in Hax. lia. }
    assert (Hall' : filter (λ x, timestamp m < timestamp x) q = q).
    { apply filter_everything. apply Forall_forall. intros x Hx.
      pose proof (proj1 (Forall_forall _ _) Hall x Hx) as Hax.
      unfold older in Hax. lia. }
    rewrite Hnone, Hall'. simpl.
    destruct (Z.leb_spec (timestamp a) (timestamp m)); [lia|].
    by rewrite insert_by_timestamp_front.
Qed.

(** X10. Where [enqueue] puts a message. In every state the queue goes
    through, the first two statements of [enqueue(m)] (push, then the
    stable sort by timestamp) leave the bucket of the priority of [m] as
    it was with [m] put in behind every message whose timestamp is not
    later than its own and ahead of every message with a later timestamp;
    the other buckets do not change. So messages of equal timestamp leave
    in the order of their submission, and a message that is retried, which
    keeps its timestamp, goes back ahead of the newer messages of its
    bucket. *)
Theorem push_keeps_arrival_order es m :
  let s := run es new in
  let q := get_queue (priority m) s in
  get_queue (priority m) (push m s)
  = filter (λ x, timestamp x <= timestamp m) q
    ++ m :: filter (λ x, timestamp m < timestamp x) q
  ∧ (∀ p, p ≠ priority m → get_queue p (push m s) = get_queue p s)
  ∧ timestamp (retried m) = timestamp m
  ∧ priority (retried m) = priority m.
Proof.
  intros s q. pose proof (run_sorted es) as Hs. fold s in Hs.
  split; [|split; [|done]].
  - unfold push. rewrite get_set_queue, decide_True by done.
    apply sort_sorted_snoc, Hs.
  - intros p Hp. unfold push. rewrite get_set_queue. by rewrite decide_False.
Qed.

(** ** Nothing is lost *)

Lemma settle_resolve m s :
  coherent s → awaiting s = Some m →
  let s' := settle true s in
  coherent s'
  ∧ delivered s' = delivered s ++ [m]
  ∧ pending s' = all_buckets s
  ∧ console_error s' = console_error s.
Proof.
  intros (Hmax & Hproc & Hidle) Ha. unfold settle. rewrite Ha. simpl.
  assert (Hp : processing s = true) by (apply Hproc; by rewrite Ha).
  set (s1 := log_delivered m (set_awaiting None s)).
  destruct (drain_pending s1) as (Hpend & Hnil & Hne & Hm' & Hd' & He' & Hidle');
    [done|done|].
  change (all_buckets s1) with (all_buckets s) in *.
  split; [|split; [by rewrite Hd'|split; [done|by rewrite He']]].
  split; [by rewrite Hm'|]. split; [|done].
  destruct (all_buckets s) eqn:E.
  - destruct (Hnil eq_refl) as [-> ->]. split; [done|]. by intros [? ?].
  - destruct Hne as [-> ?]; done.
Qed.

Lemma step_accounted e s :
  coherent s →
  coherent (step e s)
  ∧ accounted (step e s)
    ≡ₚ accounted s ++ (id <$> submitted [e]).
Proof.
  intros Hc. unfold accounted. destruct e as [m|b].
  - change (id <$> submitted [Enqueue m]) with [id m].
    change (step (Enqueue m) s) with (enqueue m s).
    destruct (enqueue_coherent m s Hc) as (Hc' & Hp & Hd & He & _).
    split; [done|]. rewrite Hd, He, Hp, fmap_cons.
    rewrite <- !Permutation_middle. by rewrite app_nil_r.
  - change (id <$> submitted [Settle b]) with (@nil string).
    change (step (Settle b) s) with (settle b s).
    rewrite app_nil_r. destruct (awaiting s) as [m|] eqn:Ha.
    2:{ unfold settle. by rewrite Ha. }
    assert (Hpend : pending s = m :: all_buckets s).
    { unfold pending. by rewrite Ha. }
    destruct b.
    + destruct (settle_resolve m s Hc Ha) as (Hc' & Hd & Hp & He).
      split; [done|]. rewrite Hd, Hp, He, Hpend, fmap_app. simpl.
      rewrite <- !app_assoc. simpl.
      by rewrite <- !Permutation_middle.
    + destruct (settle_reject m s Hc Ha) as (Hc' & Hd & [(_ & Hp & He)|(_ & Hp & He)]).
      * split; [done|]. by rewrite Hd, Hp, He, Hpend.
      * split; [done|]. rewrite Hd, Hp, He, Hpend, fmap_app. simpl.
        rewrite <- !app_assoc. simpl.
        by rewrite <- !Permutation_middle.
Qed.

Lemma submitted_snoc es e : submitted (es ++ [e]) = submitted es ++ submitted [e].
Proof. unfold submitted. by rewrite omap_app. Qed.

Lemma run_accounted es :
  coherent (run es (@new A))
  ∧ accounted (run es new) ≡ₚ id <$> submitted es.
Proof.
  induction es as [|e es [Hc IH]] using rev_ind; [split; [apply new_coherent|done]|].
  rewrite queue_run_snoc. destruct (step_accounted e _ Hc) as [Hc' Hp].
  split; [done|]. by rewrite Hp, IH, submitted_snoc, fmap_app.
Qed.

(** X11. No message is lost or duplicated. Whatever messages are
    submitted and however the deliveries settle, in any order, the ids of
    the messages submitted so far are, counted with multiplicity, the ids
    of the messages delivered, of the messages reported by [console.error]
    as given up, of the message in delivery and of the messages in the
    buckets. The queue is idle exactly when it owns nothing. *)
Theorem queue_accounts_for_every_message es :
  let s := run es new in
  id <$> submitted es
  ≡ₚ (id <$> delivered s) ++ (console_error s).*1 ++ (id <$> pending s)
  ∧ (processing s = false ↔ pending s = [])
  ∧ maxRetries s = 3.
Proof.
  intros s. destruct (run_accounted es) as [Hc Hp]. fold s in Hc, Hp.
  split; [by rewrite <- Hp|]. destruct Hc as (Hmax & Hproc & Hidle).
  split; [|done]. split.
  - intros Hf. unfold pending.
    destruct (awaiting s) eqn:Ha.
    + destruct Hproc as [_ Hproc]. rewrite Hproc in Hf; [done|eauto].
    + by rewrite Hidle.
  - intros Hn. unfold pending in Hn.
    destruct (awaiting s) eqn:Ha; [done|].
    destruct (processing s) eqn:Hps; [|done].
    destruct Hproc as [Hproc _]. by destruct (Hproc eq_refl).
Qed.

(** ** The drain always ends *)

Lemma attempts_left_pos m : (1 ≤ attempts_left m)%nat.
Proof. unfold attempts_left. lia. Qed.

Lemma run_drain_ends (send : QueuedMessage A → bool) fuel : ∀ s,
  coherent s →
  (sum_list_with attempts_left (pending s) ≤ fuel)%nat →
  let s' := run_drain fuel send s in
  awaiting s' = None ∧ processing s' = false ∧ all_buckets s' = []
  ∧ accounted s' ≡ₚ accounted s
  ∧ (length (trace_drain fuel send s)
     ≤ sum_list_with attempts_left (pending s))%nat
  ∧ (length (pending s) ≤ length (trace_drain fuel send s))%nat.
Proof.
  induction fuel as [|fuel IH]; intros s Hc Hsum.
  - assert (Hnil : pending s = []).
    { destruct (pending s) as [|m l]; [done|]. cbn [sum_list_with] in Hsum.
      pose proof (attempts_left_pos m). lia. }
    assert (Ha : awaiting s = None).
    { unfold pending in Hnil. by destruct (awaiting s). }
    destruct Hc as (_ & Hproc & Hidle). simpl. rewrite Hnil. simpl.
    split_and!; [done| |by apply Hidle|done|done|done].
    destruct (processing s) eqn:E; [|done].
    destruct Hproc as [Hproc _]. rewrite Ha in Hproc.
    by destruct (Hproc eq_refl).
  - cbn [run_drain trace_drain]. cbv zeta. destruct (awaiting s) as [m|] eqn:Ha.
    + assert (Hpend : pending s = m :: all_buckets s).
      { unfold pending. by rewrite Ha. }
      pose proof (step_accounted (Settle (send m)) s Hc) as [Hc' Hacc].
      simpl in Hc', Hacc. rewrite app_nil_r in Hacc.
      rewrite Hpend in Hsum |- *. cbn [sum_list_with length] in Hsum |- *.
      assert (Hmeasure :
        (sum_list_with attempts_left (pending (settle (send m) s))
         < attempts_left m + sum_list_with attempts_left (all_buckets s))%nat
        ∧ (length (all_buckets s) ≤ length (pending (settle (send m) s)))%nat).
      { destruct (send m).
        - destruct (settle_resolve m s Hc Ha) as (_ & _ & -> & _).
          pose proof (attempts_left_pos m). lia.
        - destruct (settle_reject m s Hc Ha)
            as (_ & _ & [(Hlt & Hp & _)|(_ & -> & _)]).
          + rewrite Hp. cbn [sum_list_with length].
            rewrite (attempts_left_retried m Hlt). lia.
          + pose proof (attempts_left_pos m). lia. }
      destruct Hmeasure as [Hm1 Hm2].
      destruct (IH (settle (send m) s) Hc') as (H1 & H2 & H3 & H4 & H5 & H6);
        [lia|].
      split_and!; [done|done|done|by rewrite H4|lia|lia].
    + destruct Hc as (_ & Hproc & Hidle).
      assert (Hnil : pending s = []).
      { unfold pending. by rewrite Ha, Hidle. }
      rewrite Hnil. simpl.
      split_and!; [done| |by apply Hidle|done|done|done].
      destruct (processing s) eqn:E; [|done].
      destruct Hproc as [Hproc _]. rewrite Ha in Hproc.
      by destruct (Hproc eq_refl).
Qed.

(** X12. The drain loop always ends, whatever the deliveries do. From
    any state the queue goes through, and for any way [send] the
    deliveries succeed or fail, the loop stops after at most as many
    deliveries as the messages it owns have attempts left (four for a
    message not retried yet): it is then idle, the four buckets are empty,
    and every message it owned was delivered or reported as given up. *)
Theorem drain_always_ends es (send : QueuedMessage A → bool) (fuel : nat) :
  let s := run es new in
  (sum_list_with attempts_left (pending s) ≤ fuel)%nat →
  let s' := run_drain fuel send s in
  processing s' = false ∧ awaiting s' = None ∧ buckets_empty s'
  ∧ stat_total (getStats s') = 0
  ∧ (id <$> delivered s') ++ (console_error s').*1 ≡ₚ id <$> submitted es
  ∧ (length (pending s) ≤ length (trace_drain fuel send s)
     ≤ sum_list_with attempts_left (pending s))%nat.
Proof.
  intros s Hfuel s'. destruct (run_accounted es) as [Hc Hp]. fold s in Hc, Hp.
  destruct (run_drain_ends send fuel s Hc Hfuel) as (Ha & Hpr & Hb & Hacc & Ht1 & Ht2).
  fold s' in Ha, Hpr, Hb, Hacc.
  split; [done|]. split; [done|].
  assert (Hbe : buckets_empty s').
  { unfold all_buckets in Hb.
    apply app_eq_nil in Hb as [? Hb]. apply app_eq_nil in Hb as [? Hb].
    apply app_eq_nil in Hb as [? ?]. done. }
  split; [done|]. split; [by rewrite stat_total_all_buckets, Hb|].
  split; [|lia].
  rewrite <- Hp, <- Hacc. unfold accounted, pending. rewrite Ha, Hb. simpl.
  by rewrite !app_nil_r.
Qed.

End QueueMore.

Lemma drain_always_ends_witness :
  let m (i : string) p ts :=
    PriorityMessageQueue.mkQueued i "thread" tt p ts 0 in
  let es := [QueueEvents.Enqueue (m "a" PriorityMessageQueue.NORMAL 1);
             QueueEvents.Enqueue (m "b" PriorityMessageQueue.URGENT 2);
             QueueEvents.Settle false;
             QueueEvents.Enqueue (m "c" PriorityMessageQueue.LOW 3)] in
  let s := QueueEvents.run es PriorityMessageQueue.new in
  let s' := PriorityMessageQueue.run_drain 11
              PriorityMessageQueue.fails_three_times s in
  PriorityMessageQueue.processing s' = false
  ∧ PriorityMessageQueue.buckets_empty s'
  ∧ (PriorityMessageQueue.id <$> PriorityMessageQueue.delivered s')
      ++ (PriorityMessageQueue.console_error s').*1 ≡ₚ ["a"; "b"; "c"].
Proof.
  intros m es s s'.
  destruct (drain_always_ends es PriorityMessageQueue.fails_three_times 11)
    as (H1 & _ & H3 & _ & H5 & _).
  - vm_compute. lia.
  - split; [exact H1|]. split; [exact H3|exact H5].
Defined.

(** * Further properties of the deadlock detector *)

Section DetectorMore.
Import AssocMap DeadlockDetector DetectorCalls.
Implicit Types (g : graph) (st : marks) (s : t).
#[local] Open Scope nat_scope.

(** ** The search reports real cycles only *)

Lemma path_snoc g x y z : path g x y → edge g y z → path g x z.
Proof.
  induction 1 as [x y He|x y y' He Hp IH]; intros Hz.
  - eapply path_step; [done|]. by apply path_edge.
  - eapply path_step; [done|]. by apply IH.
Qed.

Lemma search_inv_push g st node :
  node ∉ st.1 → search_inv g st →
  search_inv g ({[node]} ∪ st.1, {[node]} ∪ st.2).
Proof.
  intros Hfresh (Hsub & l & Hl & Hfin). split; simpl; [set_solver|].
  exists l. split; [|done]. intros x. rewrite Hl. set_solver.
Qed.

Lemma dfs_neighbors_true g rec node (ns : list string) :
  keeps_search_inv g rec → finds_cycles g rec →
  ∀ st st', dfs_neighbors rec ns st = Some (true, st') → search_inv g st →
    (∀ n, n ∈ ns → edge g node n) →
    (∀ y, y ∈ st.2 → y = node ∨ path g y node) →
    ∃ x, path g x x.
Proof.
  intros Hkeep Hrec. induction ns as [|n ns IH]; intros st st' Hrun Hinv Hns Hstack;
    simpl in Hrun; [done|].
  assert (He : edge g node n) by (apply Hns; left).
  assert (Hns' : ∀ n', n' ∈ ns → edge g node n') by (intros; apply Hns; by right).
  assert (Hreach : ∀ y, y ∈ st.2 → path g y n).
  { intros y [->|Hy]%Hstack; [by apply path_edge|by eapply path_snoc]. }
  case_decide as Hv.
  - case_decide as Hr; [|by eapply IH].
    exists n. by apply Hreach.
  - destruct (rec n st) as [[[] st1]|] eqn:Hn; try done.
    + by eapply Hrec.
    + destruct (Hkeep _ _ _ Hn Hv Hinv) as (Hinv1 & Hst1 & _).
      eapply IH; [done|done|done|]. by rewrite Hst1.
Qed.

Lemma dfs_true g fuel : finds_cycles g (dfs fuel g).
Proof.
  induction fuel as [|f IH]; intros node st st' Hrun Hfresh Hinv Hstack; [done|].
  simpl in Hrun.
  destruct (dfs_neighbors _ _ _) as [[[] st1]|] eqn:Hns; try done.
  eapply (dfs_neighbors_true g _ node); [apply dfs_false|exact IH|exact Hns| | |].
  - by apply search_inv_push.
  - intros n Hn. destruct (aget node g) as [l|] eqn:Hl; simpl in Hn.
    + by exists l.
    + by apply elem_of_nil in Hn.
  - simpl. intros y [->%elem_of_singleton|Hy]%elem_of_union; [by left|].
    right. by apply Hstack.
Qed.

Lemma hasCycle_loop_true g fuel (keys : list string) : ∀ st,
  hasCycle_loop fuel g keys st = Some true →
  st.2 = ∅ → search_inv g st → ∃ x, path g x x.
Proof.
  induction keys as [|k keys IH]; intros st Hrun Hempty Hinv; simpl in Hrun; [done|].
  case_decide as Hv; [by eapply IH|].
  destruct (dfs fuel g k st) as [[[] st1]|] eqn:Hd; try done.
  - eapply dfs_true; [done|done|done|]. rewrite Hempty. set_solver.
  - destruct (dfs_false g fuel _ _ _ Hd Hv Hinv) as (Hinv1 & Hst1 & _).
    eapply IH; [done| |done]. congruence.
Qed.

Lemma hasCycle_sound g : hasCycle g = true → ∃ x, path g x x.
Proof.
  unfold hasCycle, hasCycle_search.
  destruct (hasCycle_loop _ _ _ _) as [[]|] eqn:Hrun; try done. intros _.
  eapply hasCycle_loop_true; [done|done|].
  split; simpl; [done|]. exists []. split; [set_solver|done].
Qed.

(** X13. The cycle search is exact. For every graph (a [Map] from a node
    to the list of its neighbours, in which a neighbour need not be a key
    and may be listed twice), [hasCycle] ends and returns [true] exactly
    when the graph has a cycle: a path of one or more edges from a node
    back to itself. *)
Theorem hasCycle_iff_cycle g :
  is_Some (hasCycle_search g)
  ∧ (hasCycle g = true ↔ ∃ x, path g x x).
Proof.
  split; [apply hasCycle_within_fuel|]. split.
  - apply hasCycle_sound.
  - intros [x Hx]. by eapply hasCycle_complete.
Qed.

(** ** The edges of the allocation graph are the waits and the grants *)

Lemma truthy_Some h :
  truthy h = true ↔ ∃ p, h = Some p ∧ p ≠ "".
Proof.
  destruct h as [p|]; simpl.
  - rewrite negb_true_iff, String.eqb_neq. split; [eauto|]. by intros (? & [= <-] & ?).
  - split; [done|]. by intros (? & ? & ?).
Qed.

Lemma edge_add_node_inv g k x y : edge (add_node k g) x y → edge g x y.
Proof.
  unfold add_node, ahas. case_bool_decide as Hk; [done|].
  intros (l & Hget & Hy). destruct (decide (k = x)) as [->|Hne].
  - rewrite aget_aset_eq in Hget. injection Hget as <-. by apply elem_of_nil in Hy.
  - rewrite aget_aset_ne in Hget by done. by exists l.
Qed.

Lemma edge_add_edge_inv g k v x y :
  edge (add_edge k v g) x y → edge g x y ∨ (x = k ∧ y = v).
Proof.
  unfold add_edge. destruct (aget k g) as [l|] eqn:Hk; [|by left].
  intros (l' & Hget & Hy). destruct (decide (k = x)) as [->|Hne].
  - rewrite aget_aset_eq in Hget. injection Hget as <-.
    apply elem_of_app in Hy as [Hy|Hy%list_elem_of_singleton].
    + left. by exists l.
    + by right.
  - rewrite aget_aset_ne in Hget by done. left. by exists l'.
Qed.

Lemma edge_add_process_inv g e x y :
  edge (add_process g e) x y → edge g x y ∨ (x = pid e.2 ∧ y ∈ waiting e.2).
Proof.
  unfold add_process.
  assert (Hgen : ∀ (l : list string) g0,
            edge (foldl (λ g r, add_edge (pid e.2) r g) g0 l) x y →
            edge g0 x y ∨ (x = pid e.2 ∧ y ∈ l)).
  { induction l as [|r l IH]; intros g0 He; simpl in He; [by left|].
    apply IH in He as [He|[-> Hy]].
    - apply edge_add_edge_inv in He as [He|[-> ->]]; [by left|].
      right. split; [done|left].
    - right. split; [done|by right]. }
  intros [He|?]%Hgen; [|by right]. left. by eapply edge_add_node_inv.
Qed.

Lemma edge_add_resource_inv g e x y :
  edge (add_resource g e) x y →
  edge g x y ∨ (x = rid e.2 ∧ holder e.2 = Some y ∧ y ≠ "").
Proof.
  unfold add_resource. destruct (truthy (holder e.2)) eqn:Ht.
  - apply truthy_Some in Ht as (p & Hp & Hne). rewrite Hp. simpl.
    intros [He|[-> ->]]%edge_add_edge_inv; [|by right].
    left. by eapply edge_add_node_inv.
  - intros He. left. by eapply edge_add_node_inv.
Qed.

Lemma foldl_edge_inv {B} (f : graph → B → graph) (Q : B → Prop) x y (l : list B) :
  (∀ g a, edge (f g a) x y → edge g x y ∨ Q a) →
  ∀ g0, edge (foldl f g0 l) x y → edge g0 x y ∨ ∃ a, a ∈ l ∧ Q a.
Proof.
  intros Hf. induction l as [|a l IH]; intros g0 He; simpl in He; [by left|].
  apply IH in He as [He|(a' & Ha' & HQ)].
  - apply Hf in He as [He|HQ]; [by left|]. right. exists a. split; [left|done].
  - right. exists a'. split; [by right|done].
Qed.

Lemma edge_depends s x y :
  edge (buildResourceAllocationGraph s) x y ↔ depends s x y.
Proof.
  split.
  - unfold buildResourceAllocationGraph. intros He.
    apply (foldl_edge_inv add_resource
             (λ e, x = rid e.2 ∧ holder e.2 = Some y ∧ y ≠ "")) in He;
      [|intros; by apply edge_add_resource_inv].
    destruct He as [He|([k r] & Hin & -> & Hh & Hy)].
    + apply (foldl_edge_inv add_process
               (λ e, x = pid e.2 ∧ y ∈ waiting e.2)) in He;
        [|intros; by apply edge_add_process_inv].
      destruct He as [(l & Hl & _)|([k p] & Hin & -> & Hy)]; [done|].
      left. by exists k, p.
    + right. by exists k, r.
  - intros [(k & p & Hin & <- & Hy)|(k & r & Hin & <- & Hh & Hy)].
    + by eapply edge_waits.
    + eapply edge_held; [done|done|]. apply truthy_Some. eauto.
Qed.

Lemma path_tc g (R : relation string) x y :
  (∀ x y, edge g x y ↔ R x y) → path g x y ↔ tc R x y.
Proof.
  intros HR. split.
  - induction 1 as [x y He|x y z He Hp IH].
    + apply tc_once. by apply HR.
    + eapply tc_l; [|done]. by apply HR.
  - induction 1 as [x y He|x y z He Hp IH].
    + apply path_edge. by apply HR.
    + eapply path_step; [|done]. by apply HR.
Qed.

(** X14. What [detectDeadlock] detects. In every state, the edges of the
    graph [buildResourceAllocationGraph] builds are exactly the
    dependencies of the state: from a process to each resource in its
    [waiting] list, and from a resource to its holder (a holder that is
    the empty string counts as none). [detectDeadlock()] returns [true]
    exactly when some process or resource depends, through one or more
    steps, on itself. *)
Theorem detectDeadlock_iff_circular_wait s :
  (∀ x y, edge (buildResourceAllocationGraph s) x y ↔ depends s x y)
  ∧ (detectDeadlock s = true ↔ ∃ x, tc (depends s) x x).
Proof.
  split; [apply edge_depends|]. unfold detectDeadlock. split.
  - intros [x Hx]%hasCycle_sound. exists x.
    by apply (path_tc _ (depends s) x x (edge_depends s)).
  - intros [x Hx]. apply (hasCycle_complete _ x).
    by apply (path_tc _ (depends s) x x (edge_depends s)).
Qed.

(** ** Reading the state after an update *)

Lemma detector_run_snoc cs c s : run (cs ++ [c]) s = step c (run cs s).
Proof. unfold run. by rewrite foldl_app. Qed.

Lemma holder_of_set s s' r res' r0 :
  resources s' = aset r res' (resources s) →
  holder_of s' r0 =
    if decide (r = r0) then (if truthy (holder res') then holder res' else None)
    else holder_of s r0.
Proof.
  intros Hr. unfold holder_of. rewrite Hr. case_decide as E.
  - subst. by rewrite aget_aset_eq.
  - by rewrite aget_aset_ne.
Qed.

Lemma waitQueue_of_set s s' r res' r0 :
  resources s' = aset r res' (resources s) →
  waitQueue_of s' r0 = if decide (r = r0) then waitQueue res' else waitQueue_of s r0.
Proof.
  intros Hr. unfold waitQueue_of. rewrite Hr. case_decide as E.
  - subst. by rewrite aget_aset_eq.
  - by rewrite aget_aset_ne.
Qed.

Lemma holding_of_set s s' p proc' p0 :
  processes s' = aset p proc' (processes s) →
  holding_of s' p0 = if decide (p = p0) then holding proc' else holding_of s p0.
Proof.
  intros Hp. unfold holding_of. rewrite Hp. case_decide as E.
  - subst. by rewrite aget_aset_eq.
  - by rewrite aget_aset_ne.
Qed.

Lemma waiting_of_set s s' p proc' p0 :
  processes s' = aset p proc' (processes s) →
  waiting_of s' p0 = if decide (p = p0) then waiting proc' else waiting_of s p0.
Proof.
  intros Hp. unfold waiting_of. rewrite Hp. case_decide as E.
  - subst. by rewrite aget_aset_eq.
  - by rewrite aget_aset_ne.
Qed.

Lemma known_set s s' p proc' q :
  processes s' = aset p proc' (processes s) →
  is_Some (aget q (processes s)) → is_Some (aget q (processes s')).
Proof.
  intros Hp Hq. rewrite Hp. destruct (decide (p = q)) as [->|Hne].
  - rewrite aget_aset_eq. eauto.
  - by rewrite aget_aset_ne.
Qed.

Lemma holder_resource_or_new s r :
  (if truthy (holder (resource_or_new r s)) then holder (resource_or_new r s)
   else None) = holder_of s r.
Proof.
  unfold holder_of, resource_or_new. by destruct (aget r (resources s)).
Qed.

Lemma waitQueue_resource_or_new s r :
  waitQueue (resource_or_new r s) = waitQueue_of s r.
Proof. unfold waitQueue_of, resource_or_new. by destruct (aget r (resources s)). Qed.

Lemma holding_process_or_new s p : holding (process_or_new p s) = holding_of s p.
Proof. unfold holding_of, process_or_new. by destruct (aget p (processes s)). Qed.

Lemma waiting_process_or_new s p : waiting (process_or_new p s) = waiting_of s p.
Proof. unfold waiting_of, process_or_new. by destruct (aget p (processes s)). Qed.

Lemma aset_keys {V} k (v : V) m :
  (aset k v m).*1 = if ahas k m then m.*1 else m.*1 ++ [k].
Proof.
  unfold ahas. induction m as [|[k' v'] m IH]; [done|].
  cbn [aset aget]. case_decide as E.
  - subst. rewrite !fmap_cons. by rewrite bool_decide_true by eauto.
  - rewrite !fmap_cons, IH. by destruct (bool_decide _).
Qed.

Lemma aget_None_keys {V} k (m : list (string * V)) : aget k m = None → k ∉ m.*1.
Proof.
  intros Hk (e & Hke & He)%list_elem_of_fmap. destruct e as [k' v].
  simpl in Hke. subst k'. apply elem_of_aget in He. rewrite Hk in He.
  by destruct He.
Qed.

Lemma aset_NoDup {V} k (v : V) m : NoDup m.*1 → NoDup (aset k v m).*1.
Proof.
  intros Hnd. rewrite aset_keys. unfold ahas. case_bool_decide as Hk; [done|].
  apply NoDup_app. split; [done|]. split; [|apply NoDup_singleton].
  intros x Hx Hxk%list_elem_of_singleton. subst x.
  apply (aget_None_keys k m); [|done].
  destruct (aget k m) eqn:E; [|done]. destruct Hk. eauto.
Qed.

Lemma aget_of_elem {V} k (v : V) m : NoDup m.*1 → (k, v) ∈ m → aget k m = Some v.
Proof.
  induction m as [|[k' v'] m IH]; simpl; [by intros _ ?%elem_of_nil|].
  intros [Hk' Hnd]%NoDup_cons [E|Hin]%elem_of_cons.
  - injection E as -> ->. by rewrite decide_True.
  - rewrite decide_False; [by apply IH|]. intros ->. apply Hk'.
    apply list_elem_of_fmap. by exists (k, v).
Qed.

(** With records under their ids and ids not repeated, the dependencies
    are read off the four views of the state. *)
Lemma depends_views P s x y :
  consistent P s →
  depends s x y ↔ y ∈ waiting_of s x ∨ holder_of s x = Some y.
Proof.
  intros ([Hkr Hkp] & Hndr & Hndp & _). unfold depends. split.
  - intros [(k & p & Hin & <- & Hy)|(k & r & Hin & <- & Hh & Hy)].
    + left. unfold waiting_of. rewrite (Hkp _ _ Hin).
      by rewrite (aget_of_elem _ _ _ Hndp Hin).
    + right. unfold holder_of. rewrite (Hkr _ _ Hin).
      rewrite (aget_of_elem _ _ _ Hndr Hin), Hh. simpl.
      by apply String.eqb_neq in Hy as ->.
  - intros [Hy|Hh].
    + left. unfold waiting_of in Hy.
      destruct (aget x (processes s)) as [p|] eqn:Hp; simpl in Hy;
        [|by apply elem_of_nil in Hy].
      apply aget_elem_of in Hp. exists x, p. split; [done|]. split; [by apply Hkp|done].
    + right. apply holder_of_Some in Hh as (res & Hres & Hh & Ht).
      apply aget_elem_of in Hres. exists x, res.
      split; [done|]. split; [by apply Hkr|]. split; [done|].
      apply truthy_Some in Ht as (p & Hp & Hne). congruence.
Qed.

(** ** The records stay consistent *)

Section Consistency.
Variable P : string → Prop.
Hypothesis P_named : ∀ x, P x → x ≠ "".

Lemma truthy_named p : P p → truthy (Some p) = true.
Proof. intros Hp. apply truthy_Some. exists p. split; [done|by apply P_named]. Qed.

Lemma consistent_new : consistent P new.
Proof.
  split; [apply keyed_new|]. split; [constructor|]. split; [constructor|].
  split_and!; try done.
  - intros r p. unfold holder_of, holding_of. simpl. split; [done|].
    by intros ?%elem_of_nil.
  - intros r q. unfold waitQueue_of. simpl. by intros ?%elem_of_nil.
  - intros p r. unfold waiting_of. simpl. by intros ?%elem_of_nil.
Qed.

Lemma consistent_grant p r s :
  P p → consistent P s → holder_of s r = None → consistent P (grant p r s).
Proof.
  intros Hp (Hk & Hndr & Hndp & HH & HT & HQ & HW & HF) Hfree.
  assert (Hh : ∀ r0, holder_of (grant p r s) r0
                     = if decide (r = r0) then Some p else holder_of s r0).
  { intros r0. rewrite (holder_of_set s (grant p r s) r _ r0 eq_refl). cbn [holder waitQueue holding waiting].
    by rewrite (truthy_named p Hp). }
  assert (Hq : ∀ r0, waitQueue_of (grant p r s) r0 = waitQueue_of s r0).
  { intros r0. rewrite (waitQueue_of_set s (grant p r s) r _ r0 eq_refl). cbn [holder waitQueue holding waiting].
    rewrite waitQueue_resource_or_new. by case_decide; subst. }
  assert (Hhd : ∀ p0, holding_of (grant p r s) p0
                      = if decide (p = p0) then holding_of s p ++ [r]
                        else holding_of s p0).
  { intros p0. rewrite (holding_of_set s (grant p r s) p _ p0 eq_refl). cbn [holder waitQueue holding waiting].
    by rewrite holding_process_or_new. }
  assert (Hw : ∀ p0, waiting_of (grant p r s) p0 = waiting_of s p0).
  { intros p0. rewrite (waiting_of_set s (grant p r s) p _ p0 eq_refl). cbn [holder waitQueue holding waiting].
    rewrite waiting_process_or_new. by case_decide; subst. }
  split; [by apply keyed_grant|].
  split; [by apply aset_NoDup|]. split; [by apply aset_NoDup|].
  split_and!.
  - intros r0 p0. rewrite Hh, Hhd. repeat case_decide; subst.
    + split; [set_solver|done].
    + rewrite <- HH, Hfree. split; [congruence|done].
    + rewrite elem_of_app, list_elem_of_singleton, <- HH. naive_solver.
    + apply HH.
  - intros r0 p0. rewrite Hh. case_decide; [congruence|apply HT].
  - intros r0 q. rewrite Hq. intros [HPq Hq']%HQ. split; [done|].
    by eapply known_set.
  - intros p0 r0. rewrite Hw, Hq. apply HW.
  - intros r0. rewrite Hh, Hq. case_decide; [done|apply HF].
Qed.

Lemma consistent_enter_wait p r s :
  P p → consistent P s → is_Some (holder_of s r) →
  consistent P (enter_wait p r s).
Proof.
  intros Hp (Hk & Hndr & Hndp & HH & HT & HQ & HW & HF) Hheld.
  assert (Hq : ∀ r0, waitQueue_of (enter_wait p r s) r0
                     = if decide (r = r0) then waitQueue_of s r ++ [p]
                       else waitQueue_of s r0).
  { intros r0. rewrite (waitQueue_of_set s (enter_wait p r s) r _ r0 eq_refl). cbn [holder waitQueue holding waiting].
    by rewrite waitQueue_resource_or_new. }
  assert (Hw : ∀ p0, waiting_of (enter_wait p r s) p0
                     = if decide (p = p0) then waiting_of s p ++ [r]
                       else waiting_of s p0).
  { intros p0. rewrite (waiting_of_set s (enter_wait p r s) p _ p0 eq_refl). cbn [holder waitQueue holding waiting].
    by rewrite waiting_process_or_new. }
  assert (Hknown : is_Some (aget p (processes (enter_wait p r s)))).
  { simpl. rewrite aget_aset_eq. eauto. }
  split; [by apply keyed_enter_wait|].
  split; [by apply aset_NoDup|]. split; [by apply aset_NoDup|].
  split_and!.
  - intros r0 p0. rewrite holder_of_enter_wait, holding_of_enter_wait. apply HH.
  - intros r0 p0. rewrite holder_of_enter_wait. apply HT.
  - intros r0 q. rewrite Hq. case_decide; subst.
    + intros [[HPq Hq']%HQ| ->%list_elem_of_singleton]%elem_of_app; [|done].
      split; [done|]. by eapply known_set.
    + intros [HPq Hq']%HQ. split; [done|]. by eapply known_set.
  - intros p0 r0. rewrite Hw, Hq. repeat case_decide; subst.
    + set_solver.
    + intros [?%HW| ->%list_elem_of_singleton]%elem_of_app; done.
    + intros ?%HW. set_solver.
    + apply HW.
  - intros r0. rewrite holder_of_enter_wait, Hq. case_decide; subst.
    + intros Hn. rewrite Hn in Hheld. by destruct Hheld.
    + apply HF.
Qed.

Lemma consistent_retract_wait p r s :
  consistent P s → consistent P (retract_wait p r s).
Proof.
  intros (Hk & Hndr & Hndp & HH & HT & HQ & HW & HF).
  assert (Hq : ∀ r0, waitQueue_of (retract_wait p r s) r0
                     = if decide (r = r0)
                       then filter (λ p', p' ≠ p) (waitQueue_of s r)
                       else waitQueue_of s r0).
  { intros r0. rewrite (waitQueue_of_set s (retract_wait p r s) r _ r0 eq_refl). cbn [holder waitQueue holding waiting].
    by rewrite waitQueue_resource_or_new. }
  assert (Hw : ∀ p0, waiting_of (retract_wait p r s) p0
                     = if decide (p = p0)
                       then filter (λ r', r' ≠ r) (waiting_of s p)
                       else waiting_of s p0).
  { intros p0. rewrite (waiting_of_set s (retract_wait p r s) p _ p0 eq_refl). cbn [holder waitQueue holding waiting].
    by rewrite waiting_process_or_new. }
  split; [by apply keyed_retract_wait|].
  split; [by apply aset_NoDup|]. split; [by apply aset_NoDup|].
  split_and!.
  - intros r0 p0. rewrite holder_of_retract_wait, holding_of_retract_wait. apply HH.
  - intros r0 p0. rewrite holder_of_retract_wait. apply HT.
  - intros r0 q. rewrite Hq. case_decide; subst.
    + intros [_ [HPq Hq']%HQ]%list_elem_of_filter.
      split; [done|]. by eapply known_set.
    + intros [HPq Hq']%HQ. split; [done|]. by eapply known_set.
  - intros p0 r0. rewrite Hw, Hq. repeat case_decide; subst.
    + by intros [? _]%list_elem_of_filter.
    + intros [_ ?%HW]%list_elem_of_filter. done.
    + intros ?%HW. by apply list_elem_of_filter.
    + apply HW.
  - intros r0. rewrite holder_of_retract_wait, Hq. case_decide; subst.
    + intros ->%HF. done.
    + apply HF.
Qed.

Lemma consistent_requestResource p r s :
  P p → consistent P s → consistent P (requestResource p r s).1.
Proof.
  intros Hp Hc. unfold requestResource.
  destruct (truthy (holder (resource_or_new r s))) eqn:Ht; simpl.
  - assert (Hheld : is_Some (holder_of s r)).
    { destruct (holder_of s r) eqn:E; [eauto|].
      apply holder_of_None in E. congruence. }
    destruct (detectDeadlock _); simpl.
    + by apply consistent_retract_wait, consistent_enter_wait.
    + by apply consistent_enter_wait.
  - apply consistent_grant; [done|done|]. by apply holder_of_None.
Qed.

Lemma consistent_releaseResource p r s :
  P p → consistent P s → consistent P (releaseResource p r s).
Proof.
  intros Hp Hc. pose proof Hc as (Hk & Hndr & Hndp & HH & HT & HQ & HW & HF).
  pose proof (keyed_releaseResource s p r Hk) as Hk'.
  unfold releaseResource in *.
  destruct (aget r (resources s)) as [res|] eqn:Hres; [|done].
  destruct (aget p (processes s)) as [proc|] eqn:Hproc; [|done].
  case_bool_decide as Hholder; [|done].
  assert (Hheld : holder_of s r = Some p).
  { unfold holder_of. rewrite Hres, Hholder. by rewrite (truthy_named p Hp). }
  assert (Hqueue : waitQueue res = waitQueue_of s r).
  { unfold waitQueue_of. by rewrite Hres. }
  assert (Hholding : holding proc = holding_of s p).
  { unfold holding_of. by rewrite Hproc. }
  set (proc' := {| pid := pid proc;
                   holding := filter (λ r0, r0 ≠ r) (holding proc);
                   waiting := waiting proc |}) in *.
  set (s1 := {| resources := resources s;
                processes := aset p proc' (processes s) |}).
  assert (Hhd1 : ∀ p0, holding_of s1 p0
                       = if decide (p = p0)
                         then filter (λ r0, r0 ≠ r) (holding_of s p)
                         else holding_of s p0).
  { intros p0. rewrite (holding_of_set s s1 p proc' p0 eq_refl).
    unfold proc'. cbn [holding]. by rewrite Hholding. }
  assert (Hw1 : ∀ p0, waiting_of s1 p0 = waiting_of s p0).
  { intros p0. rewrite (waiting_of_set s s1 p proc' p0 eq_refl).
    unfold proc'. cbn [waiting]. case_decide; [|done]. subst.
    unfold waiting_of. by rewrite Hproc. }
  assert (Hknown1 : ∀ q, is_Some (aget q (processes s)) →
                         is_Some (aget q (processes s1))).
  { intros q. by apply (known_set s s1 p proc'). }
  destruct (waitQueue res) as [|next rest] eqn:Hwq.
  - (* no one waits *)
    set (s' := {| resources := aset r _ (resources s); processes := _ |}) in *.
    assert (Hh : ∀ r0, holder_of s' r0
                       = if decide (r = r0) then None else holder_of s r0).
    { intros r0. by rewrite (holder_of_set s1 s' r _ r0 eq_refl). }
    assert (Hq : ∀ r0, waitQueue_of s' r0
                       = if decide (r = r0) then [] else waitQueue_of s r0).
    { intros r0. by rewrite (waitQueue_of_set s1 s' r _ r0 eq_refl). }
    assert (Hhd : ∀ p0, holding_of s' p0 = holding_of s1 p0) by done.
    assert (Hw : ∀ p0, waiting_of s' p0 = waiting_of s p0).
    { intros p0. by rewrite <- Hw1. }
    split; [done|]. split; [by apply aset_NoDup|]. split; [by apply aset_NoDup|].
    split_and!.
    + intros r0 p0. rewrite Hh, Hhd, Hhd1. repeat case_decide; subst.
      * split; [done|]. by intros [? _]%list_elem_of_filter.
      * rewrite <- HH, Hheld. split; [done|congruence].
      * rewrite list_elem_of_filter, <- HH. naive_solver.
      * apply HH.
    + intros r0 p0. rewrite Hh. case_decide; [done|apply HT].
    + intros r0 q. rewrite Hq. case_decide; [by intros ?%elem_of_nil|].
      intros [HPq Hq']%HQ. split; [done|]. by apply Hknown1.
    + intros p0 r0. rewrite Hw, Hq. case_decide; subst; [|apply HW].
      intros ?%HW. by rewrite <- Hqueue in *.
    + intros r0. rewrite Hh, Hq. case_decide; [done|apply HF].
  - (* the resource goes to the first waiter *)
    assert (Hnext : next ∈ waitQueue_of s r) by (rewrite <- Hqueue; left).
    destruct (HQ _ _ Hnext) as [HPnext Hnknown].
    apply Hknown1 in Hnknown as [nobj Hnobj]. simpl in Hnobj.
    rewrite Hnobj in *.
    set (s' := {| resources := aset r _ (resources s); processes := _ |}) in *.
    assert (Hh : ∀ r0, holder_of s' r0
                       = if decide (r = r0) then Some next else holder_of s r0).
    { intros r0. rewrite (holder_of_set s1 s' r _ r0 eq_refl). cbn [holder].
      by rewrite (truthy_named next HPnext). }
    assert (Hq : ∀ r0, waitQueue_of s' r0
                       = if decide (r = r0) then rest else waitQueue_of s r0).
    { intros r0. by rewrite (waitQueue_of_set s1 s' r _ r0 eq_refl). }
    assert (Hhd : ∀ p0, holding_of s' p0
                        = if decide (next = p0) then holding_of s1 next ++ [r]
                          else holding_of s1 p0).
    { intros p0. rewrite (holding_of_set s1 s' next _ p0 eq_refl). cbn [holding].
      case_decide; [|done]. unfold holding_of. simpl. by rewrite Hnobj. }
    assert (Hw : ∀ p0, waiting_of s' p0
                       = if decide (next = p0)
                         then filter (λ r0, r0 ≠ r) (waiting_of s next)
                         else waiting_of s p0).
    { intros p0. rewrite (waiting_of_set s1 s' next _ p0 eq_refl). cbn [waiting].
      rewrite Hw1. case_decide; [|done]. rewrite <- Hw1.
      unfold waiting_of. simpl. by rewrite Hnobj. }
    assert (Hknown' : ∀ q, is_Some (aget q (processes s)) →
                           is_Some (aget q (processes s'))).
    { intros q Hq'. eapply (known_set s1 s' next); [reflexivity|].
      by apply Hknown1. }
    split; [done|]. split; [by apply aset_NoDup|].
    split; [by apply aset_NoDup, aset_NoDup|].
    split_and!.
    + intros r0 p0. rewrite Hh, Hhd, !Hhd1.
      repeat case_decide; subst;
        rewrite ?elem_of_app, ?list_elem_of_filter, ?list_elem_of_singleton,
          <- ?HH, ?Hheld; naive_solver.
    + intros r0 p0. rewrite Hh. case_decide; [congruence|apply HT].
    + intros r0 q. rewrite Hq. case_decide as E; [subst r0|].
      * intros Hin. destruct (HQ r q) as [HPq Hq'].
        { rewrite <- Hqueue. by right. }
        split; [done|]. by apply Hknown'.
      * intros [HPq Hq']%HQ. split; [done|]. by apply Hknown'.
    + intros p0 r0. rewrite Hw, Hq. repeat case_decide; subst.
      * by intros [? _]%list_elem_of_filter.
      * intros [_ ?%HW]%list_elem_of_filter. done.
      * intros Hin%HW. rewrite <- Hqueue in Hin.
        apply elem_of_cons in Hin as [->|Hin]; done.
      * apply HW.
    + intros r0. rewrite Hh, Hq. case_decide; [done|apply HF].
Qed.

(** The state after the holder of [r] releases it. *)
Lemma releaseResource_views p r s :
  P p → consistent P s → holder_of s r = Some p →
  let s' := releaseResource p r s in
  let first := head (waitQueue_of s r) in
  (∀ r0, holder_of s' r0 = if decide (r = r0) then first else holder_of s r0)
  ∧ (∀ r0, waitQueue_of s' r0
           = if decide (r = r0) then tail (waitQueue_of s r) else waitQueue_of s r0)
  ∧ (∀ p0, holding_of s' p0
           = (if decide (p = p0) then filter (λ r0, r0 ≠ r) (holding_of s p)
              else holding_of s p0)
             ++ (if decide (first = Some p0) then [r] else []))
  ∧ (∀ p0, waiting_of s' p0
           = if decide (first = Some p0)
             then filter (λ r0, r0 ≠ r) (waiting_of s p0) else waiting_of s p0).
Proof.
  intros Hp (Hk & Hndr & Hndp & HH & HT & HQ & HW & HF) Hheld s' first.
  subst s' first.
  destruct (holder_of_Some _ _ _ Hheld) as (res & Hres & Hholder & _).
  assert (Hproc : is_Some (aget p (processes s))).
  { apply HH in Hheld. unfold holding_of in Hheld.
    destruct (aget p (processes s)); [eauto|]. by apply elem_of_nil in Hheld. }
  destruct Hproc as [proc Hproc].
  unfold releaseResource. rewrite Hres, Hproc, bool_decide_true by done.
  assert (Hqueue : waitQueue res = waitQueue_of s r).
  { unfold waitQueue_of. by rewrite Hres. }
  assert (Hholding : holding proc = holding_of s p).
  { unfold holding_of. by rewrite Hproc. }
  set (proc' := {| pid := pid proc;
                   holding := filter (λ r0, r0 ≠ r) (holding proc);
                   waiting := waiting proc |}) in *.
  set (s1 := {| resources := resources s;
                processes := aset p proc' (processes s) |}).
  assert (Hhd1 : ∀ p0, holding_of s1 p0
                       = if decide (p = p0)
                         then filter (λ r0, r0 ≠ r) (holding_of s p)
                         else holding_of s p0).
  { intros p0. rewrite (holding_of_set s s1 p proc' p0 eq_refl).
    unfold proc'. cbn [holding]. by rewrite Hholding. }
  assert (Hw1 : ∀ p0, waiting_of s1 p0 = waiting_of s p0).
  { intros p0. rewrite (waiting_of_set s s1 p proc' p0 eq_refl).
    unfold proc'. cbn [waiting]. case_decide; [|done]. subst.
    unfold waiting_of. by rewrite Hproc. }
  rewrite <- Hqueue.
  destruct (waitQueue res) as [|next rest] eqn:Hwq; cbn [head tail].
  - set (s' := {| resources := aset r _ (resources s); processes := _ |}).
    split_and!.
    + intros r0. by rewrite (holder_of_set s1 s' r _ r0 eq_refl).
    + intros r0. by rewrite (waitQueue_of_set s1 s' r _ r0 eq_refl).
    + intros p0. rewrite (decide_False (P := None = Some p0)) by done.
      rewrite app_nil_r. apply Hhd1.
    + intros p0. rewrite (decide_False (P := None = Some p0)) by done. apply Hw1.
  - assert (Hnext : next ∈ waitQueue_of s r) by (rewrite <- Hqueue; left).
    destruct (HQ _ _ Hnext) as [HPnext Hnknown].
    apply (known_set s s1 p proc' next eq_refl) in Hnknown as [nobj Hnobj].
    simpl in Hnobj. rewrite Hnobj.
    set (s' := {| resources := aset r _ (resources s); processes := _ |}).
    split_and!.
    + intros r0. rewrite (holder_of_set s1 s' r _ r0 eq_refl). cbn [holder].
      by rewrite (truthy_named next HPnext).
    + intros r0. by rewrite (waitQueue_of_set s1 s' r _ r0 eq_refl).
    + intros p0. rewrite (holding_of_set s1 s' next _ p0 eq_refl). cbn [holding].
      destruct (decide (next = p0)) as [->|Hne].
      * rewrite (decide_True (P := Some p0 = Some p0)) by done. rewrite <- Hhd1.
        unfold holding_of. simpl. by rewrite Hnobj.
      * rewrite (decide_False (P := Some next = Some p0)) by congruence.
        by rewrite app_nil_r, Hhd1.
    + intros p0. rewrite (waiting_of_set s1 s' next _ p0 eq_refl). cbn [waiting].
      destruct (decide (next = p0)) as [->|Hne].
      * rewrite (decide_True (P := Some p0 = Some p0)) by done. rewrite <- Hw1.
        unfold waiting_of. simpl. by rewrite Hnobj.
      * rewrite (decide_False (P := Some next = Some p0)) by congruence. apply Hw1.
Qed.

Lemma consistent_step c s :
  (∀ p, p ∈ process_ids [c] → P p) → consistent P s → consistent P (step c s).
Proof.
  intros Hc Hs. destruct c as [p r|p r|]; simpl.
  - apply consistent_requestResource; [|done]. apply Hc. simpl. left.
  - apply consistent_releaseResource; [|done]. apply Hc. simpl. left.
  - apply consistent_new.
Qed.

Lemma process_ids_app cs cs' :
  process_ids (cs ++ cs') = process_ids cs ++ process_ids cs'.
Proof. unfold process_ids. by rewrite omap_app. Qed.

Lemma consistent_run cs :
  (∀ p, p ∈ process_ids cs → P p) → consistent P (run cs new).
Proof.
  induction cs as [|c cs IH] using rev_ind; intros Hcs; [apply consistent_new|].
  rewrite detector_run_snoc. apply consistent_step.
  - intros p Hp. apply Hcs. rewrite process_ids_app. set_solver.
  - apply IH. intros p Hp. apply Hcs. rewrite process_ids_app. set_solver.
Qed.

End Consistency.

Lemma named_process_ids cs p :
  named cs = true → p ∈ process_ids cs → p ≠ "".
Proof.
  unfold named. rewrite forallb_forall. intros Hall Hp.
  apply list_elem_of_In, Hall in Hp. by apply negb_true_iff, String.eqb_neq in Hp.
Qed.

Lemma named_consistent cs :
  named cs = true → consistent (λ x, x ≠ "") (run cs new).
Proof.
  intros Hn. apply consistent_run; [done|]. intros p. by apply named_process_ids.
Qed.

(** X15. The two sides of the bookkeeping agree. Along every sequence of
    [requestResource], [releaseResource] and [clear] on a new detector in
    which no process is named by the empty string: a resource names a
    process as its holder exactly when that process lists the resource in
    [holding]; a process that lists a resource in [waiting] is in the wait
    queue of that resource; a resource with a waiter has a holder; and
    every process in a wait queue has a record. *)
Theorem detector_records_agree (cs : list call) :
  named cs = true →
  let s := run cs new in
  (∀ r p, holder_of s r = Some p ↔ r ∈ holding_of s p)
  ∧ (∀ p r, r ∈ waiting_of s p → p ∈ waitQueue_of s r)
  ∧ (∀ r q, q ∈ waitQueue_of s r →
       is_Some (holder_of s r) ∧ is_Some (aget q (processes s)) ∧ q ≠ "")
  ∧ keyed s.
Proof.
  intros Hn s.
  destruct (named_consistent cs Hn) as (Hk & _ & _ & HH & _ & HQ & HW & HF).
  fold s in Hk, HH, HQ, HW, HF.
  split; [done|]. split; [done|]. split; [|done].
  intros r q Hq. destruct (HQ r q Hq) as [Hne Hknown]. split; [|done].
  destruct (holder_of s r) eqn:E; [eauto|].
  rewrite (HF r E) in Hq. by apply elem_of_nil in Hq.
Qed.

Lemma detector_records_agree_witness :
  let s := run [Request "a" "t"; Request "b" "t"; Request "b" "u";
                Release "a" "t"; Request "a" "u"] new in
  (∀ r p, holder_of s r = Some p ↔ r ∈ holding_of s p)
  ∧ (∀ p r, r ∈ waiting_of s p → p ∈ waitQueue_of s r)
  ∧ (∀ r q, q ∈ waitQueue_of s r →
       is_Some (holder_of s r) ∧ is_Some (aget q (processes s)) ∧ q ≠ "")
  ∧ keyed s.
Proof.
  apply (detector_records_agree
           [Request "a" "t"; Request "b" "t"; Request "b" "u";
            Release "a" "t"; Request "a" "u"]).
  reflexivity.
Defined.

(** X16. [releaseResource] hands the resource to the oldest waiter. In
    every state of such a sequence, when [p] holds [r]:
    [releaseResource(p, r)] takes [r] out of the [holding] list of [p];
    if processes wait for [r], the first of the queue becomes the holder,
    leaves the queue, gets [r] in its [holding] list and loses it from its
    [waiting] list; if none waits, [r] is left without holder. No other
    resource changes holder. A call by a process that is not the holder
    changes nothing. *)
Theorem release_hands_to_first_waiter (cs : list call) (p r : string) :
  named cs = true →
  let s := run cs new in
  let s' := releaseResource p r s in
  (holder_of s r = Some p →
     holder_of s' r = head (waitQueue_of s r)
     ∧ waitQueue_of s' r = tail (waitQueue_of s r)
     ∧ (∀ q, head (waitQueue_of s r) = Some q →
          r ∈ holding_of s' q ∧ r ∉ waiting_of s' q)
     ∧ (head (waitQueue_of s r) ≠ Some p → r ∉ holding_of s' p)
     ∧ (∀ r0, r0 ≠ r → holder_of s' r0 = holder_of s r0
                       ∧ waitQueue_of s' r0 = waitQueue_of s r0))
  ∧ (p ≠ "" → holder_of s r ≠ Some p → s' = s).
Proof.
  intros Hn s s'. pose proof (named_consistent cs Hn) as Hc. fold s in Hc.
  split.
  - intros Hheld.
    assert (Hp : p ≠ "").
    { destruct Hc as (_ & _ & _ & _ & HT & _). by eapply HT. }
    destruct (releaseResource_views (λ x, x ≠ "") (λ _ H, H) p r s Hp Hc Hheld)
      as (Hh & Hq & Hhd & Hw).
    fold s' in Hh, Hq, Hhd, Hw.
    split_and!.
    + by rewrite Hh, decide_True.
    + by rewrite Hq, decide_True.
    + intros q Hfirst. rewrite Hhd, Hw.
      rewrite !(decide_True (P := head (waitQueue_of s r) = Some q)) by done.
      split.
      * set_solver.
      * by intros [? _]%list_elem_of_filter.
    + intros Hfirst. rewrite Hhd, (decide_True (P := p = p)) by done.
      rewrite (decide_False (P := head (waitQueue_of s r) = Some p)) by done.
      rewrite app_nil_r. by intros [? _]%list_elem_of_filter.
    + intros r0 Hr0. by rewrite Hh, Hq, !decide_False.
  - intros Hp Hnot. subst s'. unfold releaseResource.
    destruct (aget r (resources s)) as [res|] eqn:Hres; [|done].
    destruct (aget p (processes s)) as [proc|]; [|done].
    case_bool_decide as Hholder; [|done].
    destruct Hnot. unfold holder_of. rewrite Hres, Hholder. simpl.
    by apply String.eqb_neq in Hp as ->.
Qed.

Lemma release_hands_to_first_waiter_witness :
  let s := run [Request "a" "t"; Request "b" "t"; Request "c" "t"] new in
  let s' := releaseResource "a" "t" s in
  holder_of s' "t" = Some "b" ∧ waitQueue_of s' "t" = ["c"]
  ∧ releaseResource "c" "t" s = s.
Proof.
  intros s s'.
  destruct (release_hands_to_first_waiter
              [Request "a" "t"; Request "b" "t"; Request "c" "t"] "a" "t" eq_refl)
    as [H1 _].
  destruct (release_hands_to_first_waiter
              [Request "a" "t"; Request "b" "t"; Request "c" "t"] "c" "t" eq_refl)
    as [_ H2].
  destruct (H1 eq_refl) as (Ha & Hb & _).
  split; [exact Ha|]. split; [exact Hb|]. apply H2; discriminate.
Defined.

(** ** A request never closes a cycle *)

Lemma path_mono g g' x y :
  (∀ x y, edge g' x y → edge g x y) → path g' x y → path g x y.
Proof.
  intros Hsub. induction 1 as [x y He|x y z He Hp IH].
  - apply path_edge. by apply Hsub.
  - eapply path_step; [|done]. by apply Hsub.
Qed.

Lemma path_last g x y : path g x y → ∃ z, edge g z y.
Proof. induction 1 as [x y He|x y z He Hp IH]; eauto. Qed.

(** A path that starts off a node without incoming edge never goes
    through it. *)
Lemma path_avoid g g' r x y :
  (∀ z, ¬ edge g' z r) →
  (∀ x y, x ≠ r → edge g' x y → edge g x y) →
  path g' x y → x ≠ r → path g x y.
Proof.
  intros Hin Hsub. induction 1 as [x y He|x y z He Hp IH]; intros Hx.
  - apply path_edge. by apply Hsub.
  - eapply path_step; [by apply Hsub|]. apply IH. intros ->. by eapply Hin.
Qed.

Lemma well_named_split cs :
  well_named cs = true →
  named cs = true
  ∧ ∀ p r, p ∈ process_ids cs → r ∈ resource_ids cs → p ≠ r.
Proof.
  unfold well_named. rewrite andb_true_iff. intros [Hn Hd]. split; [done|].
  intros p r Hp Hr. rewrite forallb_forall in Hd.
  apply list_elem_of_In, Hd in Hp. rewrite forallb_forall in Hp.
  apply list_elem_of_In, Hp in Hr. by apply negb_true_iff, String.eqb_neq in Hr.
Qed.

(** X17. A request never closes a cycle. Along every sequence of calls in
    which no process is named by the empty string and no string names
    both a process and a resource: if the detector finds no cycle in the
    state before [requestResource(p, r)], it finds none in the state after
    it, whether the resource was granted, the process left waiting, or the
    wait refused and taken back. (The same does not hold of
    [releaseResource], which hands the resource to the first waiter
    without a search.) *)
Theorem request_never_closes_a_cycle (cs : list call) (p r : string) :
  well_named (cs ++ [Request p r]) = true →
  let s := run cs new in
  detectDeadlock s = false →
  detectDeadlock (fst (requestResource p r s)) = false.
Proof.
  intros [Hn Hdisj]%well_named_split s Hfree.
  set (all := cs ++ [Request p r]) in *.
  set (P := λ x, x ≠ "" ∧ x ∈ process_ids all).
  assert (HPn : ∀ x, P x → x ≠ "") by (by intros x [? _]).
  assert (Hp : P p).
  { assert (Hin : p ∈ process_ids all).
    { unfold all. rewrite process_ids_app. set_solver. }
    split; [|done]. by eapply named_process_ids. }
  assert (Hr : ¬ P r).
  { intros [_ Hin]. apply (Hdisj r r); [done| |done].
    unfold all, resource_ids. rewrite omap_app. set_solver. }
  assert (Hc : consistent P s).
  { apply consistent_run; [done|]. intros x Hx.
    assert (Hin : x ∈ process_ids all).
    { unfold all. rewrite process_ids_app. set_solver. }
    split; [|done]. by eapply named_process_ids. }
  assert (Hacyclic : ∀ x, ¬ path (buildResourceAllocationGraph s) x x).
  { intros x Hx. apply hasCycle_complete in Hx.
    unfold detectDeadlock in Hfree. congruence. }
  assert (Hedge : ∀ s0, consistent P s0 → ∀ x y,
            edge (buildResourceAllocationGraph s0) x y
            ↔ y ∈ waiting_of s0 x ∨ holder_of s0 x = Some y).
  { intros s0 Hs0 x y. rewrite edge_depends. by apply (depends_views P). }
  unfold requestResource.
  destruct (truthy (holder (resource_or_new r s))) eqn:Ht; simpl.
  - assert (Hheld : is_Some (holder_of s r)).
    { destruct (holder_of s r) eqn:E; [eauto|].
      apply holder_of_None in E. congruence. }
    destruct (detectDeadlock (enter_wait p r s)) eqn:Hd; [|done]. simpl.
    pose proof (consistent_enter_wait P HPn p r s Hp Hc Hheld) as Hc1.
    pose proof (consistent_retract_wait P p r _ Hc1) as Hc2.
    destruct (detectDeadlock (retract_wait _ _ _)) eqn:Hd2; [|done].
    apply hasCycle_sound in Hd2 as [x Hx]. destruct (Hacyclic x).
    eapply path_mono; [|exact Hx].
    intros a b. rewrite (Hedge _ Hc2), (Hedge _ Hc).
    rewrite holder_of_retract_wait, holder_of_enter_wait.
    intros [Hw|Hh]; [|by right]. left.
    destruct (decide (p = a)) as [->|Hne].
    + rewrite waiting_of_retract_wait, waiting_of_enter_wait in Hw.
      apply list_elem_of_filter in Hw as [Hbr Hw]. set_solver.
    + rewrite (waiting_of_set (enter_wait p r s)
                 (retract_wait p r (enter_wait p r s)) p _ a eq_refl) in Hw.
      rewrite decide_False in Hw by done.
      by rewrite waiting_of_enter_wait_ne in Hw.
  - apply holder_of_None in Ht.
    pose proof (consistent_grant P HPn p r s Hp Hc Ht) as Hc1.
    destruct (detectDeadlock (grant p r s)) eqn:Hd; [|done].
    apply hasCycle_sound in Hd as [x Hx].
    destruct Hc as (Hk & Hndr & Hndp & HH & HT & HQ & HW & HF).
    pose proof Hc1 as (_ & _ & _ & _ & HT1 & _).
    assert (Hw : ∀ p0, waiting_of (grant p r s) p0 = waiting_of s p0).
    { intros p0. rewrite (waiting_of_set s (grant p r s) p _ p0 eq_refl).
      cbn [waiting]. rewrite waiting_process_or_new. by case_decide; subst. }
    assert (Hh : ∀ r0, r0 ≠ r → holder_of (grant p r s) r0 = holder_of s r0).
    { intros r0 Hne. rewrite (holder_of_set s (grant p r s) r _ r0 eq_refl).
      by rewrite decide_False. }
    assert (Hin : ∀ z, ¬ edge (buildResourceAllocationGraph (grant p r s)) z r).
    { intros z. rewrite (Hedge _ Hc1). intros [Hz|Hz].
      - rewrite Hw in Hz. apply HW in Hz. rewrite (HF r Ht) in Hz.
        by apply elem_of_nil in Hz.
      - by apply HT1 in Hz. }
    assert (Hsub : ∀ a b, a ≠ r →
              edge (buildResourceAllocationGraph (grant p r s)) a b →
              edge (buildResourceAllocationGraph s) a b).
    { intros a b Ha. rewrite (Hedge _ Hc1), Hedge, Hw, Hh by done. done. }
    destruct (decide (x = r)) as [->|Hne].
    + apply path_last in Hx as [z Hz]. by destruct (Hin z).
    + destruct (Hacyclic x). by eapply path_avoid.
Qed.

Lemma request_never_closes_a_cycle_witness :
  let cs := [Request "a" "t"; Request "b" "u"; Request "a" "u"] in
  detectDeadlock (fst (requestResource "b" "t" (run cs new))) = false.
Proof.
  apply (request_never_closes_a_cycle
           [Request "a" "t"; Request "b" "u"; Request "a" "u"] "b" "t").
  - reflexivity.
  - reflexivity.
Defined.

(** The remark on [releaseResource] in X17: [p] waits for [t] and for [u],
    [q] holds [u] and waits for [t]; when the holder of [t] releases it,
    [t] goes to [p], and [p], [u], [q], [t] form a cycle that no call was
    refused for. *)
Example release_may_close_a_cycle :
  let s := run [Request "h" "t"; Request "q" "u"; Request "p" "t";
                Request "p" "u"; Request "q" "t"] new in
  detectDeadlock s = false
  ∧ detectDeadlock (releaseResource "h" "t" s) = true.
Proof. vm_compute. by split. Qed.

End DetectorMore.

(** * Further properties of the LRU cache *)

Section CacheMore.
Import LRUCache CacheCalls.
Context {K : Type} `{Countable K} {V : Type}.
Implicit Types (h : gmap ref (CacheNode K V)) (s : t K V) (l : list ref)
  (r : ref) (ks : list K) (m : list (K * V)) (cs : list (call K V)).
#[local] Open Scope nat_scope.

Lemma cache_run_snoc cs c s : run (cs ++ [c]) s = step c (run cs s).
Proof. unfold run. by rewrite foldl_app. Qed.

(** ** The list model *)

Lemma assoc_None k m : assoc k m = None ↔ k ∉ m.*1.
Proof.
  induction m as [|[k' v] m IH]; simpl; [set_solver|].
  case_decide; [set_solver|]. rewrite IH. set_solver.
Qed.

Lemma assoc_app k m1 m2 :
  assoc k (m1 ++ m2) = match assoc k m1 with Some v => Some v | None => assoc k m2 end.
Proof.
  induction m1 as [|[k' v] m1 IH]; simpl; [done|]. by case_decide.
Qed.

Lemma assoc_without k k' m : k' ≠ k → assoc k' (without k m) = assoc k' m.
Proof.
  intros Hne. unfold without. induction m as [|[k0 v] m IH]; [done|].
  rewrite filter_cons. simpl. destruct (decide (k0 ≠ k)) as [Hk0|Hk0]; simpl.
  - by rewrite IH.
  - rewrite IH. apply dec_stable in Hk0. subst k0. by rewrite decide_False.
Qed.

Lemma without_keys k m : (without k m).*1 = filter (λ k', k' ≠ k) m.*1.
Proof.
  unfold without. induction m as [|[k0 v] m IH]; [done|].
  rewrite fmap_cons, !filter_cons. cbn [fst].
  destruct (decide (k0 ≠ k)); [rewrite fmap_cons|]; by rewrite IH.
Qed.

Lemma removelast_keys m : (removelast m).*1 = removelast m.*1.
Proof.
  induction m as [|kv m IH] using rev_ind; [done|].
  rewrite fmap_app. change (fst <$> [kv]) with [kv.1].
  by rewrite !removelast_last.
Qed.

Lemma model_put_keys (N : Z) k v now m :
  (model_step N (Put k v now) m).*1 = recency_put N k m.*1.
Proof.
  unfold model_step, recency_put, touch. rewrite length_fmap.
  case_decide; [by rewrite fmap_cons, without_keys|].
  destruct (N <=? _)%Z; [|done]. by rewrite fmap_cons, removelast_keys.
Qed.

Lemma model_get_keys (N : Z) k now m :
  (model_step N (Get k now) m).*1 = recency_get k m.*1.
Proof.
  unfold model_step, recency_get, touch.
  destruct (assoc k m) as [v|] eqn:E.
  - rewrite decide_True; [by rewrite fmap_cons, without_keys|].
    apply dec_stable. intros Hn. apply assoc_None in Hn. congruence.
  - apply assoc_None in E. by rewrite decide_False.
Qed.

Lemma model_get_assoc (N : Z) k now m k' :
  assoc k' (model_step N (Get k now) m) = assoc k' m.
Proof.
  unfold model_step. destruct (assoc k m) as [v|] eqn:E; [|done].
  cbn [assoc]. case_decide as Hk; [by subst|]. by apply assoc_without.
Qed.

(** ** The values in the nodes *)

Lemma value_of_alter_keep h r (f : CacheNode K V → CacheNode K V) r' :
  (∀ n, value (f n) = value n) → value_of (alter f r h) r' = value_of h r'.
Proof.
  intros Hf. unfold value_of. destruct (decide (r = r')) as [->|Hne].
  - rewrite lookup_alter_eq. destruct (h !! r'); simpl; [|done]. by rewrite Hf.
  - by rewrite lookup_alter_ne.
Qed.

Lemma value_of_alter_ne h r (f : CacheNode K V → CacheNode K V) r' :
  r ≠ r' → value_of (alter f r h) r' = value_of h r'.
Proof. intros Hne. unfold value_of. by rewrite lookup_alter_ne. Qed.

Lemma value_of_alter_eq h r (f : CacheNode K V → CacheNode K V) n :
  h !! r = Some n → value_of (alter f r h) r = Some (value (f n)).
Proof. intros Hn. unfold value_of. by rewrite lookup_alter_eq, Hn. Qed.

Lemma linked_key_inj s l k k' r :
  linked s l → cache s !! k = Some r → cache s !! k' = Some r → k = k'.
Proof.
  intros (_ & _ & _ & _ & Hcache & _) [_ Hk]%Hcache [_ Hk']%Hcache. congruence.
Qed.

Lemma evictLRU_values s r :
  value_of (nodes (evictLRU s)) r = value_of (nodes s) r.
Proof.
  unfold evictLRU. destruct (tail s) as [tl|]; [|done].
  destruct (nodes s !! tl) as [n|]; [|done].
  destruct (prev n); simpl; [apply value_of_set_next|done].
Qed.

Lemma stored_same s s' :
  cache s' = cache s → (∀ r, value_of (nodes s') r = value_of (nodes s) r) →
  ∀ k, stored s' k = stored s k.
Proof.
  intros Hc Hv k. unfold stored. rewrite Hc.
  destruct (cache s !! k); simpl; [apply Hv|done].
Qed.

(** [get] returns the stored value and changes no stored value. *)
Lemma get_stored s l k now :
  linked s l →
  (get k now s).2 = stored s k ∧ ∀ k', stored (get k now s).1 k' = stored s k'.
Proof.
  intros Hl. unfold get. destruct (cache s !! k) as [r|] eqn:Hc.
  2:{ split; [by unfold stored; rewrite Hc|]. by apply stored_same. }
  set (f := λ n : CacheNode K V,
              {| key := key n; value := value n; prev := prev n; next := next n;
                 accessCount := (accessCount n + 1)%Z; lastAccessed := now |}).
  set (s0 := {| capacity := capacity s; cache := cache s; head := head s;
                tail := tail s; hits := (hits s + 1)%Z; misses := misses s;
                nodes := alter f r (nodes s); fresh := fresh s |}).
  pose proof Hl as (_ & _ & _ & _ & Hcache & _).
  pose proof Hc as Hc'. apply Hcache in Hc' as [Hrl _].
  apply list_elem_of_split in Hrl as (l1 & l2 & ->).
  assert (Hl0 : linked s0 (l1 ++ r :: l2)).
  { eapply (linked_alter_payload s s0 _ r f); try done. }
  destruct (moveToFront_linked s0 l1 r l2 Hl0) as [_ Hsame].
  destruct Hsame as (_ & Hcache' & _ & _ & _ & _ & Hvals).
  assert (Hv : ∀ r', value_of (nodes (moveToFront r s0)) r' = value_of (nodes s) r').
  { intros r'. rewrite Hvals. by apply value_of_alter_keep. }
  cbn [fst snd]. split; [|by apply stored_same].
  change (value <$> nodes (moveToFront r s0) !! r)
    with (value_of (nodes (moveToFront r s0)) r).
  rewrite Hv. unfold stored. by rewrite Hc.
Qed.

Lemma get_refines s m k now :
  refines s m →
  refines (get k now s).1 (model_step (capacity s) (Get k now) m)
  ∧ (get k now s).2 = assoc k m
  ∧ capacity (get k now s).1 = capacity s.
Proof.
  intros [Hrec Hval].
  destruct (get_recency s m.*1 k now Hrec) as (Hrec' & Hcap & _).
  destruct Hrec as (l & Hl & _).
  destruct (get_stored s l k now Hl) as [Hres Hst].
  split; [|split; [by rewrite Hres|done]].
  split; [by rewrite model_get_keys|].
  intros k'. by rewrite Hst, model_get_assoc.
Qed.

Lemma clear_refines s : refines (clear s) [] ∧ capacity (clear s) = capacity s.
Proof.
  split; [|done]. split; [|done]. exists []. split; [|by apply Forall2_nil].
  split_and!; simpl; try done.
  - apply NoDup_nil_2.
  - intros k r. rewrite lookup_empty. split; [done|]. by intros [?%elem_of_nil _].
  - by intros ??%elem_of_nil.
Qed.

(** The node a miss of [put] links in front. *)
Lemma new_node_stored s l k v now k' :
  linked s l → cache s !! k = None →
  let newNode := fresh s in
  let h1 :=
    <[newNode := {| key := k; value := v; prev := None; next := head s;
                    accessCount := 1; lastAccessed := now |}]> (nodes s) in
  let h2 := match head s with
            | Some hd => set_prev hd (Some newNode) h1
            | None => h1
            end in
  <[k := newNode]> (cache s) !! k' ≫= value_of h2
  = if decide (k = k') then Some v else stored s k'.
Proof.
  intros Hl Hnone newNode h1 h2.
  assert (Hh2 : ∀ r, value_of h2 r = value_of h1 r).
  { intros r. subst h2. destruct (head s); [apply value_of_set_prev|done]. }
  case_decide as Hk.
  - subst k'. rewrite lookup_insert_eq. simpl. rewrite Hh2.
    unfold value_of, h1. by rewrite lookup_insert_eq.
  - rewrite lookup_insert_ne by done. unfold stored.
    destruct (cache s !! k') as [r'|] eqn:Hc'; simpl; [|done].
    rewrite Hh2. unfold value_of, h1. rewrite lookup_insert_ne; [done|].
    destruct Hl as (_ & _ & _ & _ & Hcache & _ & Hfresh).
    apply Hcache in Hc' as [Hin _]. apply Hfresh in Hin. unfold newNode. lia.
Qed.

Lemma put_refines s m k v now :
  refines s m →
  refines (put k v now s) (model_step (capacity s) (Put k v now) m)
  ∧ capacity (put k v now s) = capacity s.
Proof.
  intros [Hrec Hval].
  destruct (put_recency s m.*1 k v now Hrec) as [Hrec' Hcap].
  split; [|done]. split; [by rewrite model_put_keys|].
  destruct Hrec as (l & Hl & Hks). intros k'.
  pose proof (recency_cache s l m.*1 k Hl Hks) as Hin.
  pose proof (recency_NoDup _ _ _ Hl Hks) as Hnd.
  unfold put, model_step. destruct (cache s !! k) as [r|] eqn:Hc.
  - (* the key is present: its node takes the value and goes to the front *)
    rewrite decide_True by (apply Hin; eauto).
    set (f := λ n : CacheNode K V,
                {| key := key n; value := v; prev := prev n; next := next n;
                   accessCount := accessCount n; lastAccessed := now |}).
    set (s0 := with_links (head s) (tail s) (alter f r (nodes s)) s).
    pose proof Hl as (_ & _ & _ & Hseg & Hcache & _).
    pose proof Hc as Hc'. apply Hcache in Hc' as [Hrl _].
    destruct (seg_lookup _ _ _ _ _ Hseg Hrl) as [n Hn].
    apply list_elem_of_split in Hrl as (l1 & l2 & ->).
    assert (Hl0 : linked s0 (l1 ++ r :: l2)).
    { eapply (linked_alter_payload s s0 _ r f); try done. }
    destruct (moveToFront_linked s0 l1 r l2 Hl0) as [_ Hsame].
    destruct Hsame as (_ & Hcache' & _ & _ & _ & _ & Hvals).
    unfold stored. rewrite Hcache'.
    change (cache s0) with (cache s). change (nodes s0) with (alter f r (nodes s)) in Hvals.
    cbn [assoc]. case_decide as Hk.
    + subst k'. rewrite Hc. simpl. rewrite Hvals.
      by rewrite (value_of_alter_eq _ _ f n Hn).
    + rewrite assoc_without by done. rewrite <- Hval. unfold stored.
      destruct (cache s !! k') as [r'|] eqn:Hc'; simpl; [|done].
      rewrite Hvals. apply value_of_alter_ne. intros ->.
      apply Hk. by eapply linked_key_inj.
  - (* a new key *)
    assert (Hnin : k ∉ m.*1).
    { intros Hk. apply Hin in Hk. by destruct Hk. }
    rewrite decide_False by done.
    pose proof Hl as (_ & _ & Htail & _ & _ & Hsize & _).
    rewrite Hsize, (Forall2_length _ _ _ Hks), length_fmap.
    destruct (capacity s <=? Z.of_nat (length m))%Z eqn:Hfull.
    + destruct l as [|tl l _] using rev_ind.
      * (* capacity 0 or less, nothing to evict *)
        apply Forall2_nil_inv_l in Hks. apply fmap_nil_inv in Hks as ->.
        simpl in Htail. unfold evictLRU. rewrite Htail.
        unfold stored at 1. cbn [cache nodes].
        rewrite (new_node_stored s [] k v now k' Hl Hc).
        cbn [removelast assoc]. case_decide; [done|]. by rewrite Hval.
      * destruct (evictLRU_linked s l tl Hl)
          as (n & Hn & Hl1 & Hc1 & Hcap1 & Hfr1 & Hkeys1).
        assert (Hnone1 : cache (evictLRU s) !! k = None).
        { rewrite Hc1. apply lookup_delete_None. by right. }
        unfold stored at 1. cbn [cache nodes].
        rewrite (new_node_stored (evictLRU s) l k v now k' Hl1 Hnone1).
        (* the key of the node evicted is the last key of the model *)
        destruct m as [|[kt vt] m _] using rev_ind.
        { apply Forall2_length in Hks. rewrite length_app in Hks. simpl in Hks. lia. }
        rewrite fmap_app in Hks.
        apply Forall2_app_inv_r in Hks as (l' & lt & Hl' & Hlt & Hsplit).
        apply Forall2_cons_inv_r in Hlt as (tl' & ? & Hkt & ->%Forall2_nil_inv_r & ->).
        apply app_inj_tail in Hsplit as [-> ->].
        unfold key_of in Hkt. rewrite Hn in Hkt. simpl in Hkt. injection Hkt as Hkt.
        rewrite removelast_last. cbn [assoc].
        case_decide as Hk; [done|].
        unfold stored. rewrite Hc1, Hkt.
        rewrite fmap_app in Hnd. apply NoDup_app in Hnd as (_ & Hdisj & _).
        assert (Hlast : assoc kt m = None).
        { apply assoc_None. intros Hc'. apply (Hdisj _ Hc'). simpl. left. }
        specialize (Hval k'). rewrite assoc_app in Hval. cbn [assoc] in Hval.
        destruct (decide (kt = k')) as [->|Hne].
        -- rewrite lookup_delete_eq. by rewrite Hlast.
        -- rewrite lookup_delete_ne by done.
           erewrite option_bind_ext_fun; [|apply evictLRU_values].
           fold (stored s k'). rewrite Hval. by destruct (assoc k' m).
    + unfold stored at 1. cbn [cache nodes].
      rewrite (new_node_stored s l k v now k' Hl Hc).
      cbn [assoc]. case_decide; [done|]. by rewrite Hval.
Qed.

Lemma new_refines (N : Z) : refines (K:=K) (V:=V) (new N) [].
Proof. split; [apply new_recency|done]. Qed.

Lemma step_refines c s m :
  refines s m →
  refines (step c s) (model_step (capacity s) c m)
  ∧ capacity (step c s) = capacity s.
Proof.
  intros Hr. destruct c as [k now|k v now|].
  - destruct (get_refines s m k now Hr) as (? & _ & ?). done.
  - by apply put_refines.
  - apply clear_refines.
Qed.

Lemma run_refines cs : ∀ s m,
  refines s m →
  refines (run cs s) (model_run (capacity s) cs m)
  ∧ results cs s = model_results (capacity s) cs m
  ∧ capacity (run cs s) = capacity s.
Proof.
  induction cs as [|c cs IH]; intros s m Hr; [done|].
  destruct (step_refines c s m Hr) as [Hr1 Hcap1].
  destruct (IH _ _ Hr1) as (Hr2 & Hres & Hcap2). rewrite Hcap1 in *.
  split; [done|]. split; [|done].
  cbn [results model_results]. rewrite Hres. f_equal.
  destruct c as [k now|k v now|]; [|done|done].
  destruct (get_refines s m k now Hr) as (_ & -> & _). done.
Qed.

(** X18. The cache behaves as a list of key-value pairs kept in order
    of use. Whatever calls of [get], [put] and [clear] are made on a new
    cache, of any capacity: the doubly linked list and the [Map] stay in
    step, the keys from [head] to [tail] are those of the list model, most
    recently used first; each call of [get] returned what the model
    returns; and a further [get(k)] returns the value the model holds for
    [k], or [null] when it holds none. In the model [get] of a key present
    moves its pair to the front, [put] of a key present replaces its value
    and moves it to the front, [put] of a new key drops the last pair when
    the list has [capacity] pairs or more and puts the new pair in front,
    and [clear] empties the list. *)
Theorem cache_behaves_as_recency_list (N : Z) cs :
  let s := run cs (new N) in
  let m := model_run N cs [] in
  recency s m.*1
  ∧ results cs (new N) = model_results N cs []
  ∧ (∀ k now, (get k now s).2 = assoc k m)
  ∧ (∀ k, has k s = true ↔ k ∈ m.*1)
  ∧ size_of s = Z.of_nat (length m)
  ∧ capacity s = N.
Proof.
  intros s m.
  destruct (run_refines cs (new N) [] (new_refines N)) as (Hr & Hres & Hcap).
  fold s in Hr, Hcap. change (capacity (new N)) with N in *. fold m in Hr.
  pose proof Hr as [Hrec _].
  split; [done|]. split; [done|]. split; [|split; [|split; [|done]]].
  - intros k now. by destruct (get_refines s m k now Hr) as (_ & -> & _).
  - intros k. by apply recency_has.
  - rewrite (recency_size s _ Hrec). by rewrite length_fmap.
Qed.

(** ** The size of the cache *)

Lemma model_step_length (N : Z) c m :
  (Z.of_nat (length m) ≤ Z.max N 1)%Z →
  (Z.of_nat (length (model_step N c m)) ≤ Z.max N 1)%Z.
Proof.
  intros Hm. destruct c as [k now|k v now|]; simpl; [| |lia].
  - destruct (assoc k m) as [v|] eqn:E; [|done].
    assert (Hk : k ∈ m.*1).
    { apply dec_stable. intros Hn. apply assoc_None in Hn. congruence. }
    apply list_elem_of_fmap in Hk as ([k0 v0] & -> & Hin).
    pose proof (length_filter_lt (λ kv : K * V, kv.1 ≠ k0) m (k0, v0) Hin) as Hlt.
    simpl in *. unfold without.
    assert (length (filter (λ kv : K * V, kv.1 ≠ k0) m) < length m); [|lia].
    apply Hlt. by intros Hc.
  - case_decide as Hk.
    + apply list_elem_of_fmap in Hk as ([k0 v0] & -> & Hin).
      pose proof (length_filter_lt (λ kv : K * V, kv.1 ≠ k0) m (k0, v0) Hin) as Hlt.
      simpl in *. unfold without.
      assert (length (filter (λ kv : K * V, kv.1 ≠ k0) m) < length m); [|lia].
      apply Hlt. by intros Hc.
    + destruct (Z.leb_spec N (Z.of_nat (length m))); simpl.
      * destruct m as [|kv m _] using rev_ind; [simpl; lia|].
        rewrite removelast_last. rewrite length_app in *. simpl in *. lia.
      * lia.
Qed.

(** X19. The cache never holds more entries than its capacity (than one
    entry, when the capacity is 0 or negative: [put] then evicts the only
    entry before it inserts). Whatever calls are made on a new cache of
    capacity [N], its size is between 0 and the larger of [N] and 1. *)
Theorem cache_size_within_capacity (N : Z) cs :
  (0 ≤ size_of (run cs (new N)) ≤ Z.max N 1)%Z.
Proof.
  destruct (run_refines cs (new N) [] (new_refines N)) as ([Hrec _] & _).
  change (capacity (new N)) with N in *.
  rewrite (recency_size _ _ Hrec), length_fmap. split; [lia|].
  clear Hrec. induction cs as [|c cs IH] using rev_ind; [simpl; lia|].
  unfold model_run. rewrite foldl_app. simpl. by apply model_step_length.
Qed.

(** X20. What is put is what is got. In every state a new cache goes
    through, of any capacity, [get(k)] made right after [put(k, v)]
    returns [v]; and for any other key [k'] the [put] left the value of
    [k'] as it was, unless it evicted [k'], which it does only if [k] was
    not in the cache and [k'] was the least recently used key. *)
Theorem get_after_put (N : Z) cs k v now now' :
  let s := run cs (new N) in
  (get k now' (put k v now s)).2 = Some v
  ∧ ∀ k', k' ≠ k →
      (get k' now' (put k v now s)).2 = (get k' now' s).2
      ∨ ((get k' now' (put k v now s)).2 = None
         ∧ has k s = false
         ∧ last (model_run N cs []).*1 = Some k'
         ∧ (N ≤ size_of s)%Z).
Proof.
  intros s.
  destruct (run_refines cs (new N) [] (new_refines N)) as (Hr & _ & Hcap).
  fold s in Hr, Hcap. change (capacity (new N)) with N in *.
  remember (model_run N cs []) as m eqn:Hm.
  destruct (put_refines s m k v now Hr) as [Hr' _].
  split.
  - destruct (get_refines _ _ k now' Hr') as (_ & -> & _).
    unfold model_step. repeat case_decide; try destruct (_ <=? _)%Z;
      cbn [assoc]; by rewrite decide_True.
  - intros k' Hne.
    destruct (get_refines _ _ k' now' Hr') as (_ & -> & _).
    destruct (get_refines _ _ k' now' Hr) as (_ & -> & _).
    pose proof Hr as [Hrec _].
    pose proof (recency_size s _ Hrec) as Hsize. rewrite length_fmap in Hsize.
    unfold model_step. case_decide as Hin.
    + left. cbn [assoc]. rewrite decide_False by done. by apply assoc_without.
    + rewrite Hcap.
      destruct (Z.leb_spec N (Z.of_nat (length m))) as [Hfull|_]; cbn [assoc];
        rewrite decide_False by done; [|by left].
      clear Hm Hr Hr'.
      destruct m as [|[kt vt] m' _] using rev_ind; [by left|].
      rewrite removelast_last, assoc_app. cbn [assoc].
      destruct (assoc k' m') eqn:E; [by left|].
      case_decide as Hk; [|by left]. subst kt. right.
      split; [done|]. split; [|split; [|lia]].
      * destruct (has k s) eqn:Hhas; [|done].
        apply (recency_has s _ k Hrec) in Hhas. done.
      * rewrite fmap_app. simpl. by rewrite last_snoc.
Qed.


(** ** The counters *)

Lemma evictLRU_counters s :
  hits (evictLRU s) = hits s ∧ misses (evictLRU s) = misses s.
Proof.
  unfold evictLRU. destruct (tail s) as [tl|]; [|done].
  destruct (nodes s !! tl) as [n|]; [|done]. by destruct (prev n).
Qed.

Lemma put_counters s m k v now :
  refines s m →
  hits (put k v now s) = hits s ∧ misses (put k v now s) = misses s.
Proof.
  intros [(l & Hl & _) _]. unfold put. destruct (cache s !! k) as [r|] eqn:Hc.
  - set (f := λ n : CacheNode K V,
                {| key := key n; value := v; prev := prev n; next := next n;
                   accessCount := accessCount n; lastAccessed := now |}).
    set (s0 := with_links (head s) (tail s) (alter f r (nodes s)) s).
    pose proof Hl as (_ & _ & _ & _ & Hcache & _).
    apply Hcache in Hc as [Hrl _].
    apply list_elem_of_split in Hrl as (l1 & l2 & ->).
    assert (Hl0 : linked s0 (l1 ++ r :: l2)).
    { eapply (linked_alter_payload s s0 _ r f); try done. }
    destruct (moveToFront_linked s0 l1 r l2 Hl0) as [_ Hsame].
    by destruct Hsame as (_ & _ & _ & -> & -> & _).
  - destruct (capacity s <=? _)%Z; simpl; [apply evictLRU_counters|done].
Qed.

Lemma get_counters s m k now :
  refines s m →
  hits (get k now s).1
  = (hits s + if (get k now s).2 is Some _ then 1 else 0)%Z
  ∧ misses (get k now s).1
    = (misses s + if (get k now s).2 is Some _ then 0 else 1)%Z.
Proof.
  intros [(l & Hl & Hks) _].
  destruct (get_stored s l k now Hl) as [-> _]. unfold get, stored.
  destruct (cache s !! k) as [r|] eqn:Hc; simpl; [|lia].
  set (f := λ n : CacheNode K V,
              {| key := key n; value := value n; prev := prev n; next := next n;
                 accessCount := (accessCount n + 1)%Z; lastAccessed := now |}).
  set (s0 := {| capacity := capacity s; cache := cache s; head := head s;
                tail := tail s; hits := (hits s + 1)%Z; misses := misses s;
                nodes := alter f r (nodes s); fresh := fresh s |}).
  pose proof Hl as (_ & _ & _ & Hseg & Hcache & _).
  apply Hcache in Hc as [Hrl _].
  destruct (seg_lookup _ _ _ _ _ Hseg Hrl) as [n Hn].
  apply list_elem_of_split in Hrl as (l1 & l2 & ->).
  assert (Hl0 : linked s0 (l1 ++ r :: l2)).
  { eapply (linked_alter_payload s s0 _ r f); try done. }
  destruct (moveToFront_linked s0 l1 r l2 Hl0) as [_ Hsame].
  destruct Hsame as (_ & _ & _ & -> & -> & _).
  unfold value_of. rewrite Hn. simpl. lia.
Qed.

Lemma results_counters cs : ∀ s m,
  refines s m →
  forallb (λ c, negb (is_clear c)) cs = true →
  hits (run cs s) = (hits s + count_hits cs s)%Z
  ∧ misses (run cs s) = (misses s + count_misses cs s)%Z.
Proof.
  unfold count_hits, count_misses.
  induction cs as [|c cs IH]; intros s m Hr Hcs; [simpl; lia|].
  simpl in Hcs. apply andb_true_iff in Hcs as [Hc Hcs].
  destruct (step_refines c s m Hr) as [Hr1 _].
  destruct (IH _ _ Hr1 Hcs) as [Hh Hm].
  change (run (c :: cs) s) with (run cs (step c s)). rewrite Hh, Hm.
  cbn [results]. rewrite !filter_app, !length_app.
  destruct c as [k now|k v now|]; [| |done].
  - destruct (get_counters s m k now Hr) as [Hh1 Hm1]. cbn [step].
    rewrite Hh1, Hm1. rewrite !filter_cons, !filter_nil.
    destruct ((get k now s).2) as [v|]; simpl; lia.
  - destruct (put_counters s m k v now Hr) as [Hh1 Hm1]. cbn [step].
    rewrite Hh1, Hm1. simpl. lia.
Qed.

(** X21. The counters count the calls of [get]. From any state a new
    cache goes through, along calls of [get] and [put] (no [clear]):
    [hits] grows by the number of calls of [get] that returned a value and
    [misses] by the number of calls of [get] that returned [null]; [put]
    changes neither. [clear] sets both back to 0. *)
Theorem counters_count_gets (N : Z) cs cs' :
  forallb (λ c, negb (is_clear c)) cs' = true →
  let s := run cs (new N) in
  hits (run cs' s) = (hits s + count_hits cs' s)%Z
  ∧ misses (run cs' s) = (misses s + count_misses cs' s)%Z
  ∧ hits (clear (run cs' s)) = 0%Z ∧ misses (clear (run cs' s)) = 0%Z.
Proof.
  intros Hcs s.
  destruct (run_refines cs (new N) [] (new_refines N)) as (Hr & _ & _).
  destruct (results_counters cs' _ _ Hr Hcs) as [Hh Hm]. by split_and!.
Qed.

End CacheMore.

Lemma counters_count_gets_witness :
  let cs := [CacheCalls.Put "a" 1 0; CacheCalls.Get "b" 1] in
  let cs' := [CacheCalls.Get "a" 2; CacheCalls.Put "b" 2 3; CacheCalls.Get "b" 4;
              CacheCalls.Get "c" 5] in
  let s := CacheCalls.run cs (LRUCache.new 2) in
  LRUCache.hits (CacheCalls.run cs' s) = (LRUCache.hits s + 2)%Z
  ∧ LRUCache.misses (CacheCalls.run cs' s) = (LRUCache.misses s + 1)%Z.
Proof.
  intros cs cs' s.
  destruct (counters_count_gets 2 cs cs' eq_refl) as (Hh & Hm & _).
  split; [exact Hh|exact Hm].
Defined.

(** * Further properties of the socket handlers *)

Section HandlerMore.
Import Coordinator Handlers.

(** ** One message for each socket *)

Lemma fan_out_sockets us message threadId (ps : list string) : ∀ served,
  let out := fan_out us message threadId ps served in
  NoDup (socket_of <$> out)
  ∧ (∀ sid, sid ∈ socket_of <$> out
       ↔ (sid ∉ served) ∧ ∃ u, u ∈ ps ∧ connected us u sid)
  ∧ Forall (λ e, e = EmitReceiveMessage (socket_of e) message threadId) out.
Proof.
  induction ps as [|u ps IH]; intros served; simpl.
  - split; [constructor|]. split; [|constructor].
    intros sid. split; [by intros ?%elem_of_nil|].
    by intros (_ & u & ?%elem_of_nil & _).
  - destruct (us !! u ≫= socketId) as [sid0|] eqn:Hu.
    + destruct (negb (String.eqb sid0 "") && bool_decide (sid0 ∉ served)) eqn:Hc.
      * apply andb_true_iff in Hc as [Hne%negb_true_iff%String.eqb_neq Hfresh].
        apply bool_decide_eq_true in Hfresh.
        destruct (IH ({[sid0]} ∪ served)) as (Hnd & Hin & Hall).
        split; [|split].
        -- simpl. constructor; [|done]. rewrite Hin. set_solver.
        -- intros sid. simpl. rewrite elem_of_cons, Hin. split.
           ++ intros [->|(Hs & u' & Hu' & Hc')].
              ** split; [done|]. exists u. split; [left|done].
              ** split; [set_solver|]. exists u'. split; [by right|done].
           ++ intros (Hs & u' & Hu' & Hc').
              destruct (decide (sid = sid0)) as [->|Hsid]; [by left|].
              right. split; [set_solver|].
              apply elem_of_cons in Hu' as [->|Hu']; [|by exists u'].
              destruct Hc' as [Hc' _]. congruence.
        -- by constructor.
      * destruct (IH served) as (Hnd & Hin & Hall).
        split; [done|]. split; [|done].
        intros sid. rewrite Hin. split.
        -- intros (Hs & u' & Hu' & Hc'). split; [done|].
           exists u'. split; [by right|done].
        -- intros (Hs & u' & Hu' & Hc'). split; [done|].
           apply elem_of_cons in Hu' as [->|Hu']; [|by exists u'].
           destruct Hc' as [Hc' Hne]. rewrite Hu in Hc'. injection Hc' as ->.
           apply andb_false_iff in Hc as [Hc|Hc].
           ++ apply negb_false_iff, String.eqb_eq in Hc. done.
           ++ apply bool_decide_eq_false in Hc. by destruct Hc.
    + destruct (IH served) as (Hnd & Hin & Hall).
      split; [done|]. split; [|done].
      intros sid. rewrite Hin. split.
      * intros (Hs & u' & Hu' & Hc'). split; [done|].
        exists u'. split; [by right|done].
      * intros (Hs & u' & Hu' & Hc'). split; [done|].
        apply elem_of_cons in Hu' as [->|Hu']; [|by exists u'].
        destruct Hc' as [Hc' _]. congruence.
Qed.

(** X22. A message is sent once to each socket. The [forEach] over
    the participants of the thread emits [receive-message], with the
    message and the thread id, to exactly the sockets on which some
    participant is connected (a user with a non-empty [socketId]), and
    to each of them once, even when two participants share a socket or a
    participant is listed twice; participants that are unknown or not
    connected get nothing. *)
Theorem fan_out_once_per_socket
    (us : gmap string User) (message : Message) (threadId : string)
    (ps : list string) :
  let out := fan_out us message threadId ps ∅ in
  NoDup (socket_of <$> out)
  ∧ (∀ sid, sid ∈ socket_of <$> out ↔ ∃ u, u ∈ ps ∧ connected us u sid)
  ∧ Forall (λ e, e = EmitReceiveMessage (socket_of e) message threadId) out.
Proof.
  intros out. destruct (fan_out_sockets us message threadId ps ∅) as (Hnd & Hin & Hall).
  subst out. split; [done|]. split; [|done].
  intros sid. rewrite Hin. set_solver.
Qed.

(** ** What the cache holds *)

Lemma assoc_elem {K V} `{EqDecision K} (k : K) (v : V) (m : list (K * V)) :
  CacheCalls.assoc k m = Some v → (k, v) ∈ m.
Proof.
  induction m as [|[k' v'] m IH]; simpl; [done|].
  case_decide as E; [intros [= ->]; subst; left|]. intros Hm. right. by apply IH.
Qed.

Lemma removelast_elem {A} (x : A) (l : list A) : x ∈ removelast l → x ∈ l.
Proof.
  destruct l as [|y l _] using rev_ind; [done|].
  rewrite removelast_last. set_solver.
Qed.

Lemma model_step_elem {K V} `{Countable K} (N : Z) (c : CacheCalls.call K V)
    (m : list (K * V)) (e : K * V) :
  e ∈ CacheCalls.model_step N c m →
  e ∈ m ∨ ∃ now, c = CacheCalls.Put e.1 e.2 now.
Proof.
  destruct c as [k now|k v now|]; simpl.
  - destruct (CacheCalls.assoc k m) as [v|] eqn:E; [|by left].
    intros [->|He]%elem_of_cons; left; [by apply assoc_elem|].
    by apply list_elem_of_filter in He as [_ ?].
  - case_decide.
    + intros [->|He]%elem_of_cons; [right; by exists now|left].
      by apply list_elem_of_filter in He as [_ ?].
    + destruct (N <=? _).
      * intros [->|He]%elem_of_cons; [right; by exists now|left].
        by apply removelast_elem.
      * intros [->|He]%elem_of_cons; [right; by exists now|by left].
  - by intros ?%elem_of_nil.
Qed.

(** X23. A message sent while the detector is at rest is always accepted.
    The handler of [send-message] asks the detector for the thread,
    releases it before it returns, and does not suspend in between; so
    between two events no resource is held. In such a state, and with the
    cursor of the scheduler on a worker: the request is granted, the
    handler does not throw and sends no [error]; the message is appended
    to the log of its thread, created if need be, and put in the queue
    with the priority of its content; the participants connected get it;
    and the handler leaves the detector at rest again, the cursor on a
    worker, and the cache in step with [threads]. *)
Theorem send_message_accepted_when_quiet
    (socket threadId : string) (message : Message)
    (now_enqueue now_assign now_put : Z) (w : t) :
  quiet w →
  let r := send_message socket threadId message now_enqueue now_assign now_put w in
  let thread := default (new_thread threadId (groups w)) (threads w !! threadId) in
  snd r = Ok tt
  ∧ emitted (fst r)
    = emitted w ++ fan_out (users w) message threadId (participants thread) ∅
  ∧ threads (fst r)
    = <[threadId := {| thread_id := thread_id thread;
                       participants := participants thread;
                       messages := messages thread ++ [message] |}]> (threads w)
  ∧ messageQueue (fst r)
    = PriorityMessageQueue.enqueue
        {| PriorityMessageQueue.id := id message;
           PriorityMessageQueue.threadId := threadId;
           PriorityMessageQueue.message := message;
           PriorityMessageQueue.priority := classify (content message);
           PriorityMessageQueue.timestamp := now_enqueue;
           PriorityMessageQueue.retries := 0 |} (messageQueue w)
  ∧ threadCache (fst r) = LRUCache.put threadId threadId now_put (threadCache w)
  ∧ quiet (fst r)
  ∧ (faithful w → faithful (fst r)).
Proof.
  intros [Hfree Hcursor] r thread. subst r. unfold send_message.
  set (d := deadlockDetector w) in *.
  assert (Hnew : DeadlockDetector.holder
                   (DeadlockDetector.resource_or_new threadId d) = None
                 ∧ DeadlockDetector.waitQueue
                     (DeadlockDetector.resource_or_new threadId d) = []).
  { unfold DeadlockDetector.resource_or_new.
    destruct (AssocMap.aget threadId (DeadlockDetector.resources d)) as [res|] eqn:E;
      simpl; [by apply (Hfree threadId)|done]. }
  destruct Hnew as [Hholder Hqueue].
  unfold DeadlockDetector.requestResource. rewrite Hholder. cbn [DeadlockDetector.truthy negb].
  destruct (assignTask_in_range now_assign (messageScheduler w) Hcursor)
    as [Hnothrow Hcursor1].
  destruct (RoundRobinScheduler.assignTask now_assign (messageScheduler w))
    as [scheduler1 assigned] eqn:Ha.
  simpl in Hnothrow, Hcursor1.
  destruct assigned as [worker|err]; [|by destruct (Hnothrow err)].
  cbn [fst snd negb]. fold thread.
  assert (Hthread : match threads w !! threadId with
                    | Some thread => thread
                    | None => new_thread threadId (groups w)
                    end = thread).
  { unfold thread. by destruct (threads w !! threadId). }
  rewrite Hthread.
  split; [done|]. split; [done|]. split; [done|]. split; [done|]. split; [done|].
  split; [split|].
  - (* the detector is at rest again *)
    cbn [deadlockDetector]. unfold DeadlockDetector.releaseResource.
    unfold DeadlockDetector.grant at 1 2. cbn [DeadlockDetector.resources
      DeadlockDetector.processes].
    rewrite !aget_aset_eq. cbn [DeadlockDetector.holder DeadlockDetector.waitQueue].
    rewrite bool_decide_true by done. rewrite Hqueue.
    cbn [DeadlockDetector.resources]. intros r0 res.
    destruct (decide (threadId = r0)) as [<-|Hne].
    + rewrite aget_aset_eq. by intros [= <-].
    + rewrite aget_aset_ne by done. unfold DeadlockDetector.grant.
      cbn [DeadlockDetector.resources]. rewrite aget_aset_ne by done. apply Hfree.
  - (* the cursor is on a worker *)
    cbn [messageScheduler]. destruct worker as [worker|]; [|done].
    destruct (releaseTask_length (RoundRobinScheduler.id worker) scheduler1)
      as [-> ->]. done.
  - (* the cache is in step with the threads *)
    intros (m & Href & Hm). unfold faithful. cbn [threadCache threads].
    destruct (put_refines (threadCache w) m threadId threadId now_put Href)
      as [Href' _].
    eexists. split; [exact Href'|].
    intros k ref [Hin|[now Hput]]%model_step_elem.
    + destruct (Hm k ref Hin) as [-> Hk]. split; [done|].
      destruct (decide (threadId = k)) as [->|Hne].
      * rewrite lookup_insert_eq. eauto.
      * by rewrite lookup_insert_ne.
    + injection Hput as <- <- _. split; [done|]. rewrite lookup_insert_eq. eauto.
Qed.

Lemma send_message_accepted_when_quiet_witness :
  let m := mkMessage "m1" "alice" "hello" "2025-01-01" in
  let r := send_message "socket-1" "alice-bob" m 1 2 3 initial in
  snd r = Ok tt
  ∧ emitted (fst r) = []
  ∧ messages_of "alice-bob" (fst r) = [m]
  ∧ quiet (fst r).
Proof.
  intros m r.
  assert (Hq : quiet initial).
  { split; [|vm_compute; lia]. intros r0 res H. discriminate H. }
  destruct (send_message_accepted_when_quiet "socket-1" "alice-bob" m 1 2 3
              initial Hq) as (H1 & H2 & H3 & _ & _ & H6 & _).
  split; [exact H1|]. split; [exact H2|]. split; [|exact H6].
  unfold messages_of. subst r. rewrite H3. reflexivity.
Defined.

(** X24. [join-thread] sends back the whole log of the thread, whether
    the cache holds the thread or not. In a state where the cache is in
    step with [threads], the handler sends one [thread-history] with the
    messages [threads] holds for the thread id, or nothing when the thread
    does not exist; it changes neither the threads nor the queue, the
    scheduler or the detector; afterwards the cache holds the thread, if
    it exists, and is still in step with [threads]. *)
Theorem join_thread_replays_history
    (socket threadId : string) (now_get now_put : Z) (w : t) :
  faithful w →
  let w' := join_thread socket threadId now_get now_put w in
  emitted w'
  = emitted w
    ++ match threads w !! threadId with
       | Some thread => [EmitThreadHistory socket threadId (messages thread)]
       | None => []
       end
  ∧ (LRUCache.has threadId (threadCache w') = true
     ↔ is_Some (threads w !! threadId))
  ∧ threads w' = threads w
  ∧ messageQueue w' = messageQueue w
  ∧ messageScheduler w' = messageScheduler w
  ∧ deadlockDetector w' = deadlockDetector w
  ∧ faithful w'.
Proof.
  intros (m & Href & Hm) w'. subst w'. unfold join_thread.
  destruct (get_refines (threadCache w) m threadId now_get Href)
    as (Href1 & Hres & Hcap).
  destruct (LRUCache.get threadId now_get (threadCache w)) as [cache1 cached].
  cbn [fst snd] in Href1, Hres, Hcap. subst cached.
  assert (Hm1 : ∀ k ref,
            (k, ref) ∈ CacheCalls.model_step (LRUCache.capacity (threadCache w))
                         (CacheCalls.Get threadId now_get) m →
            ref = k ∧ is_Some (threads w !! k)).
  { intros k ref [Hin|[now Hput]]%model_step_elem; [by apply Hm|done]. }
  destruct (CacheCalls.assoc threadId m) as [ref|] eqn:Hassoc.
  - (* the cache holds the thread *)
    apply assoc_elem in Hassoc. destruct (Hm _ _ Hassoc) as [-> [thread Hthread]].
    cbn [emitted threads messageQueue messageScheduler deadlockDetector threadCache].
    unfold messages_of, thread_ref in *. rewrite !Hthread.
    split; [done|]. split; [|split_and!; try done; by eexists].
    split; [eauto|]. intros _.
    destruct Href1 as [Hrec _]. apply (recency_has _ _ threadId Hrec).
    rewrite model_get_keys. unfold LRUCache.recency_get.
    assert (Hk : threadId ∈ m.*1).
    { apply list_elem_of_fmap. by exists (threadId, threadId). }
    rewrite decide_True by done. left.
  - destruct (threads w !! threadId) as [thread|] eqn:Hthread.
    + (* the thread comes from the store and goes into the cache *)
      cbn [emitted threads messageQueue messageScheduler deadlockDetector threadCache].
      unfold messages_of, thread_ref in *. rewrite !Hthread.
      destruct (put_refines cache1 _ threadId threadId now_put Href1)
        as [Href2 _].
      split; [done|]. split; [|split_and!; try done].
      * split; [eauto|]. intros _.
        destruct Href2 as [Hrec _]. apply (recency_has _ _ threadId Hrec).
        rewrite model_put_keys. unfold LRUCache.recency_put, LRUCache.touch.
        repeat case_decide; try destruct (_ <=? _)%Z; left.
      * eexists. split; [exact Href2|].
        intros k ref [Hin|[now Hput]]%model_step_elem; [by apply Hm1|].
        injection Hput as <- <- _. split; [done|].
        cbn [threads]. by exists thread.
    + (* no such thread *)
      cbn [emitted threads messageQueue messageScheduler deadlockDetector threadCache].
      rewrite app_nil_r.
      split; [done|]. split; [|split_and!; try done; by eexists].
      split; [|by intros [? ?]]. intros Hhas.
      destruct Href1 as [Hrec _]. apply (recency_has _ _ threadId Hrec) in Hhas.
      rewrite model_get_keys in Hhas. unfold LRUCache.recency_get in Hhas.
      apply assoc_None in Hassoc. by rewrite decide_False in Hhas.
Qed.

Lemma join_thread_replays_history_witness :
  let m := mkMessage "m1" "alice" "hello" "2025-01-01" in
  let w := fst (send_message "socket-1" "alice-bob" m 1 2 3 initial) in
  emitted (join_thread "socket-2" "alice-bob" 4 5 w)
  = emitted w ++ [EmitThreadHistory "socket-2" "alice-bob" [m]]
  ∧ emitted (join_thread "socket-2" "bob-carol" 4 5 w) = emitted w ++ [].
Proof.
  intros m w.
  assert (Hf : faithful w).
  { exists (CacheCalls.model_step (LRUCache.capacity (threadCache initial))
              (CacheCalls.Put "alice-bob" "alice-bob" 3) []).
    split.
    - change (threadCache w)
        with (LRUCache.put "alice-bob" "alice-bob" 3 (threadCache initial)).
      by apply put_refines, new_refines.
    - intros k ref [= -> ->]%list_elem_of_singleton. split; [done|].
      by exists (mkThread "alice-bob" ["alice"; "bob"] [m]). }
  split.
  - by destruct (join_thread_replays_history "socket-2" "alice-bob" 4 5 w Hf)
      as (H1 & _).
  - by destruct (join_thread_replays_history "socket-2" "bob-carol" 4 5 w Hf)
      as (H1 & _).
Defined.

End HandlerMore.
